(** * Cube Collector: the evasion engine and the population controller

    A shallow embedding of the last revision of [game.js] (the one with
    AI modules 7.1 to 7.11) and the properties of its specification.  The
    first revision, which has the same clamp and the same bounce, is
    embedded in module [Rev1], the agent update of the revision with zigs
    in module [Zig], and the minimal revision in module [Minimal].

    Numbers.  JavaScript numbers are modelled as real numbers: no rounding,
    no NaN and no infinities.  The heat grid is a [Float32Array] in the
    script: a store into it rounds the number to the nearest binary32 value
    ([fround]), and a read gives that value back exactly.  [Math.hypot] is
    the Euclidean length, [Math.floor] is [Zfloor].  Counters that only
    ever hold integers (the cap, the score, grid indices) are in [Z] or
    [nat].

    Effects.  [Math.random()] reads the next value of an oracle
    ([Rng]: a sequence of reals with a cursor).  The module-level variables
    of the script ([player], [keys], [score], [hp], [alive], [elapsed],
    [targets], [_HEAT], [_SECT]) are the fields of [State], passed
    explicitly.  [canvas.width], [canvas.height] and the clock read by the
    sector module are inputs of a tick ([Env]). *)

From Stdlib Require Import String.
From Stdlib Require Import Reals Lra Lia ZArith List Bool.
From Equations Require Import Equations.
Import ListNotations.

Local Open Scope R_scope.

(** ** JavaScript primitives over the reals *)

Definition Rltb (a b : R) : bool := if Rlt_dec a b then true else false.
Definition Rleb (a b : R) : bool := if Rle_dec a b then true else false.
Definition Reqb (a b : R) : bool := if Req_dec_T a b then true else false.

Infix "<?" := Rltb (at level 70, no associativity) : R_scope.
Infix "<=?" := Rleb (at level 70, no associativity) : R_scope.
Infix "=?" := Reqb (at level 70, no associativity) : R_scope.
Notation "a >? b" := (Rltb b a) (at level 70, no associativity) : R_scope.

(** [a || d] on numbers: [d] when [a] is falsy, that is zero. *)
Definition orElse (a d : R) : R := if a =? 0 then d else a.

(** [if (a || b)] on numbers. *)
Definition truthy2 (a b : R) : bool := negb (a =? 0) || negb (b =? 0).

Definition hypot (a b : R) : R := sqrt (a * a + b * b).

(** [Math.sign] *)
Definition sign (a : R) : R :=
  if 0 <? a then 1 else if a <? 0 then -1 else 0.

(** *** The store into a [Float32Array] *)

(** The nearest integer, ties to the even one. *)
Definition rne (x : R) : Z :=
  let f := Zfloor x in
  let d := x - IZR f in
  if d <? 1 / 2 then f
  else if 1 / 2 <? d then (f + 1)%Z
  else if Z.even f then f else (f + 1)%Z.

(** The scan for the binary exponent of a magnitude [m]: the largest of
    [e], [e - 1], ... with [2^e <= m], and [e - n] when the [n] largest are
    all too large. *)
Fixpoint f32Scan (m : R) (e : Z) (n : nat) : Z :=
  match n with
  | O => e
  | S n' => if powerRZ 2 e <=? m then e else f32Scan m (e - 1) n'
  end.

(** The binary32 exponent of [x], from 127 down to -126; every number
    below [2^-126] in magnitude, a subnormal one, has the exponent
    -126. *)
Definition f32Exp (x : R) : Z := f32Scan (Rabs x) 127 253.

(** What a [Float32Array] holds after [x] is stored into it: [x] rounded to
    24 significant bits at its exponent, ties to even.  A store that
    overflows, of a magnitude that rounds to [2^128] or more, leaves an
    infinity in the script, which the reals do not have; the cells of the
    heat grid stay below 44. *)
Definition fround (x : R) : R :=
  let e := f32Exp x in
  IZR (rne (x * powerRZ 2 (23 - e))) * powerRZ 2 (e - 23).

Arguments f32Exp x : simpl never.
Arguments fround x : simpl never.

(** ** MODULE 1: Config *)

Module CFG.
Definition PLAYER_SIZE : R := 24.
Definition PLAYER_SPEED : R := 240.
Definition TARGET_SIZE : R := 24.
Definition TARGET_MAX_SPEED : R := 220.
Definition TARGET_MAX_ACCEL : R := 600.
Definition JUKE_STRENGTH : R := 8 / 10.
Definition JITTER : R := 35 / 100.
Definition HEALTH_MAX : R := 100.
Definition HEALTH_DECAY_PER_SEC : R := 8.
Definition HEALTH_REFILL_ON_CLEAR : R := 100.
Definition TIME_STEP_SEC : R := 30.
End CFG.

(** ** MODULE 3: State *)

Inductive Key : Type := up_key | down_key | left_key | right_key | space_key.

Definition Key_eqb (a b : Key) : bool :=
  match a, b with
  | up_key, up_key | down_key, down_key | left_key, left_key
  | right_key, right_key | space_key, space_key => true
  | _, _ => false
  end.

(** [keys.has(k)] *)
Definition has (ks : list Key) (k : Key) : bool := existsb (Key_eqb k) ks.

Record Player : Type := mkPlayer {
  p_x : R; p_y : R; p_w : R; p_h : R; p_speed : R }.

(** The late-bound [t._ai] object of MODULE 7.2; [sectorIndex] is absent
    until [aiAssignSectors] writes it. *)
Record AI : Type := mkAI {
  wanderTimer : R; wanderPhase : R;
  lastSteerX : R; lastSteerY : R;
  jukeTime : R; jukeCool : R; jukeDirX : R; jukeDirY : R;
  patrolTime : R; patrolCool : R; patrolDirX : R; patrolDirY : R;
  sectorIndex : option nat }.

Record Target : Type := mkTarget {
  t_x : R; t_y : R; t_w : R; t_h : R; t_vx : R; t_vy : R;
  t_ai : option AI }.

(** The oracle behind [Math.random()]. *)
Record Rng : Type := mkRng { src : nat -> R; pos : nat }.

Definition random (g : Rng) : R * Rng :=
  (src g (pos g), mkRng (src g) (S (pos g))).

(** [_HEAT] of MODULE 7.10; [grid = None] is the initial [null]. *)
Record Heat : Type := mkHeat {
  grid : option (list R); cols : Z; rows : Z; lastW : R; lastH : R }.

Record State : Type := mkState {
  player : Player;
  keys : list Key;
  score : Z;
  hp : R;
  alive : bool;
  elapsed : R;
  targets : list Target;
  heat : Heat;
  sect_assigned : bool;
  rng : Rng }.

(** What a tick reads from the page: the canvas size, and the seconds since
    [_SECT.t0] that [performance.now()] gives. *)
Record Env : Type := mkEnv {
  canvas_width : R; canvas_height : R; sect_now : R }.

Definition set_targets (s : State) (ts : list Target) : State :=
  mkState (player s) (keys s) (score s) (hp s) (alive s) (elapsed s) ts
          (heat s) (sect_assigned s) (rng s).

Definition set_rng (s : State) (g : Rng) : State :=
  mkState (player s) (keys s) (score s) (hp s) (alive s) (elapsed s)
          (targets s) (heat s) (sect_assigned s) g.

Definition set_heat (s : State) (hm : Heat) : State :=
  mkState (player s) (keys s) (score s) (hp s) (alive s) (elapsed s)
          (targets s) hm (sect_assigned s) (rng s).

(** ** MODULE 4: Input *)

Definition readInput (ks : list Key) : R * R :=
  let dx := 0 in
  let dy := 0 in
  let dy := if has ks up_key then dy - 1 else dy in
  let dy := if has ks down_key then dy + 1 else dy in
  let dx := if has ks left_key then dx - 1 else dx in
  let dx := if has ks right_key then dx + 1 else dx in
  if truthy2 dx dy
  then let l := orElse (hypot dx dy) 1 in (dx / l, dy / l)
  else (dx, dy).

(** [mapKey(code)]; [None] is the [null] of a code the game ignores. *)
Definition mapKey (code : string) : option Key :=
  if String.eqb code "KeyW" || String.eqb code "ArrowUp" then Some up_key
  else if String.eqb code "KeyS" || String.eqb code "ArrowDown"
  then Some down_key
  else if String.eqb code "KeyA" || String.eqb code "ArrowLeft"
  then Some left_key
  else if String.eqb code "KeyD" || String.eqb code "ArrowRight"
  then Some right_key
  else if String.eqb code "Space" then Some space_key
  else None.

(** [keys.add(k)] and [keys.delete(k)] of the [Set]. *)
Definition keys_add (ks : list Key) (k : Key) : list Key :=
  if has ks k then ks else ks ++ [k].

Definition keys_delete (ks : list Key) (k : Key) : list Key :=
  filter (fun k' => negb (Key_eqb k k')) ks.

(** The [keydown] and [keyup] listeners, on the set of held keys. *)
Definition keydown (code : string) (ks : list Key) : list Key :=
  match mapKey code with
  | Some k => keys_add ks k
  | None => ks
  end.

Definition keyup (code : string) (ks : list Key) : list Key :=
  match mapKey code with
  | Some k => keys_delete ks k
  | None => ks
  end.

(** ** MODULE 5: Helpers *)

Definition clamp (v lo hi : R) : R := Rmax lo (Rmin hi v).

Record Rect : Type := mkRect { r_x : R; r_y : R; r_w : R; r_h : R }.

Definition rectP (p : Player) : Rect := mkRect (p_x p) (p_y p) (p_w p) (p_h p).
Definition rectT (t : Target) : Rect := mkRect (t_x t) (t_y t) (t_w t) (t_h t).

Definition rectsOverlap (a b : Rect) : bool :=
  (r_x a <? r_x b + r_w b) && (r_x a + r_w a >? r_x b) &&
  (r_y a <? r_y b + r_h b) && (r_y a + r_h a >? r_y b).

Definition len (a b : R) : R := orElse (hypot a b) 1.

Definition norm (a b : R) : R * R :=
  let l := len a b in (a / l, b / l).

(** ** MODULE 6: Spawning and cap *)

Definition makeTarget (env : Env) (g : Rng) : Target * Rng :=
  let w := CFG.TARGET_SIZE in
  let h := CFG.TARGET_SIZE in
  let '(r1, g) := random g in
  let '(r2, g) := random g in
  (mkTarget (r1 * (canvas_width env - w)) (r2 * (canvas_height env - h))
            w h 0 0 None, g).

Definition spawnFallback (env : Env) : Target :=
  let w := CFG.TARGET_SIZE in
  let h := CFG.TARGET_SIZE in
  mkTarget (canvas_width env - w - 10) (canvas_height env - h - 10) w h 0 0 None.

(** The [for] loop of [spawnAvoidingPlayer] with [n] attempts left. *)
Fixpoint spawnAttempts (n : nat) (env : Env) (p : Player) (g : Rng)
  : Target * Rng :=
  match n with
  | O => (spawnFallback env, g)
  | S n' =>
      let '(t, g') := makeTarget env g in
      if negb (rectsOverlap (rectP p) (rectT t)) then (t, g')
      else spawnAttempts n' env p g'
  end.

Definition spawnAvoidingPlayer (env : Env) (p : Player) (g : Rng)
  : Target * Rng := spawnAttempts 20 env p g.

(** [1 + Math.floor(e / step)] *)
Definition capAt (step e : R) : Z := (1 + Zfloor (e / step))%Z.

Definition targetCap (s : State) : Z := capAt CFG.TIME_STEP_SEC (elapsed s).

Definition push_spawn (env : Env) (s : State) : State :=
  let '(t, g) := spawnAvoidingPlayer env (player s) (rng s) in
  set_rng (set_targets s (targets s ++ [t])) g.

(** [while (targets.length < cap) targets.push(spawnAvoidingPlayer());] *)
Equations? spawnToCap (env : Env) (cap : Z) (s : State) : State
  by wf (Z.to_nat (cap - Z.of_nat (length (targets s)))) lt :=
  spawnToCap env cap s with Z_lt_dec (Z.of_nat (length (targets s))) cap => {
    | left _ := spawnToCap env cap (push_spawn env s);
    | right _ := s }.
Proof.
  unfold push_spawn.
  destruct (spawnAvoidingPlayer env (player s) (rng s)) as [t g].
  simpl. rewrite length_app. simpl. lia.
Qed.

Definition ensureCap (env : Env) (s : State) : State :=
  spawnToCap env (targetCap s) s.

(** ** MODULE 7.1: AI_CFG *)

Module AI_CFG.
Definition SEP_RADIUS : R := 90.
Definition SEP_FORCE : R := 9 / 10.
Definition ORBIT_DIST : R := 260.
Definition ORBIT_FORCE : R := 85 / 100.
Definition WALL_REPEL_MARGIN : R := 60.
Definition SLIDE_FORCE : R := 115 / 100.
Definition JUKE_CLOSE_DIST : R := 190.
Definition JUKE_TRIGGER_ANGLE : R := 85 / 100.
Definition JUKE_COOLDOWN : R := 11 / 10.
Definition JUKE_DURATION : R := 14 / 100.
Definition JUKE_PUSH : R := 165 / 100.
Definition CORNER_NEAR_EDGE : R := 12.
Definition PATROL_COOLDOWN : R := 16 / 10.
Definition PATROL_TIME : R := 5 / 10.
Definition PATROL_PUSH : R := 9 / 10.
Definition SAFE_BAND : R := 120.
Definition WANDER_T : R := 9 / 10.
Definition WANDER_MAG_FAR : R := 8 / 10.
Definition WANDER_MAG_NEAR : R := 35 / 100.
Definition PANIC_SPEED_UP : R := 112 / 100.
Definition JITTER : R := 28 / 100.
Definition SMOOTH : R := 6 / 10.
Definition LEAD : R := 22 / 100.
End AI_CFG.

(** ** MODULE 7.8: DIFFICULTY_PROFILES (the knobs the code reads) *)

Module AI_PROFILE.
Definition HEATMAP_BIAS : R := 75 / 100.
Definition SECTOR_STICK : R := 55 / 100.
Definition DISPERSION_MIN_SPACING : R := 110.
Definition DISPERSION_EDGE_FAN : R := 9 / 10.
Definition HEATMAP_CELL : Z := 80.
Definition HEATMAP_DECAY : R := 94 / 100.
Definition HEATMAP_PLAYER_STAMP : R := 26 / 10.
Definition SECTOR_RING_RATIO : R := 34 / 100.
Definition SECTOR_ROT_SPEED : R := 6 / 100.
End AI_PROFILE.

(** ** MODULE 7.2: AI_STATE *)

Definition set_ai (t : Target) (a : AI) : Target :=
  mkTarget (t_x t) (t_y t) (t_w t) (t_h t) (t_vx t) (t_vy t) (Some a).

Definition aiInit (t : Target) (g : Rng) : Target * Rng :=
  match t_ai t with
  | Some _ => (t, g)
  | None =>
      let '(r1, g) := random g in
      let '(r2, g) := random g in
      (set_ai t (mkAI (r1 * AI_CFG.WANDER_T) (r2 * PI * 2)
                      0 0 0 0 0 0 0 0 0 0 None), g)
  end.

(** The object [{px, py, hx, hy, hv}] of [aiPredictPlayer]. *)
Record Pred : Type := mkPred {
  pr_px : R; pr_py : R; pr_hx : R; pr_hy : R; pr_hv : R }.

Definition aiPredictPlayer (p : Player) (ks : list Key) : Pred :=
  let '(dx, dy) := readInput ks in
  let px := (p_x p + p_w p / 2) + dx * p_speed p * AI_CFG.LEAD in
  let py := (p_y p + p_h p / 2) + dy * p_speed p * AI_CFG.LEAD in
  let hv := hypot dx dy in
  mkPred px py dx dy hv.

(** The flags [{L, R, T, B, inCorner}] of [aiNearEdges]. *)
Record Edges : Type := mkEdges {
  e_L : bool; e_R : bool; e_T : bool; e_B : bool; inCorner : bool }.

Definition aiNearEdges (env : Env) (t : Target) : Edges :=
  let L := t_x t <? AI_CFG.CORNER_NEAR_EDGE in
  let R_ := t_x t >? canvas_width env - t_w t - AI_CFG.CORNER_NEAR_EDGE in
  let T := t_y t <? AI_CFG.CORNER_NEAR_EDGE in
  let B := t_y t >? canvas_height env - t_h t - AI_CFG.CORNER_NEAR_EDGE in
  mkEdges L R_ T B ((L || R_) && (T || B)).

(** ** MODULE 7.3: AI_STEER_BASE *)

(** The steering accumulator [{sx, sy, d, cx, cy}] that the AI layers
    pass on and mutate. *)
Record Base : Type := mkBase {
  sx : R; sy : R; b_d : R; b_cx : R; b_cy : R }.

Definition add_steer (b : Base) (ax ay : R) : Base :=
  mkBase (sx b + ax) (sy b + ay) (b_d b) (b_cx b) (b_cy b).

(** The array with the index of each element, for loops that skip
    [o === t]. *)
Definition indexed {A : Type} (l : list A) : list (nat * A) :=
  combine (seq 0 (length l)) l.

(** One turn of the separation loop of [aiSteerBase] at [targets[j] = o],
    for the agent at index [i] centred at [(cx, cy)]. *)
Definition sepStep (i : nat) (cx cy : R) (acc : R * R) (jo : nat * Target)
  : R * R :=
  let '(sepX, sepY) := acc in
  let '(j, o) := jo in
  if Nat.eqb j i then acc
  else
    let ox := t_x o + t_w o / 2 in
    let oy := t_y o + t_h o / 2 in
    let dx := cx - ox in
    let dy := cy - oy in
    let dist := hypot dx dy in
    if (dist >? 0) && (dist <? AI_CFG.SEP_RADIUS) then
      let s := (AI_CFG.SEP_RADIUS - dist) / AI_CFG.SEP_RADIUS in
      (sepX + (dx / dist) * s, sepY + (dy / dist) * s)
    else acc.

Definition aiSteerBase (env : Env) (ts : list Target) (i : nat) (t : Target)
  (pred : Pred) : Base :=
  let px := pr_px pred in
  let py := pr_py pred in
  let cx := t_x t + t_w t / 2 in
  let cy := t_y t + t_h t / 2 in
  let toX := px - cx in
  let toY := py - cy in
  let d := orElse (hypot toX toY) 1 in
  let awayX := - toX / d in
  let awayY := - toY / d in
  let tangX := - awayY in
  let tangY := awayX in
  let near := Rmin 1 (Rmax 0 ((AI_CFG.ORBIT_DIST - d) / AI_CFG.ORBIT_DIST)) in
  let sx := awayX * (75 / 100 + 25 / 100 * near)
            + tangX * (AI_CFG.ORBIT_FORCE * near) in
  let sy := awayY * (75 / 100 + 25 / 100 * near)
            + tangY * (AI_CFG.ORBIT_FORCE * near) in
  (* Separation *)
  let '(sepX, sepY) := fold_left (sepStep i cx cy) (indexed ts) (0, 0) in
  let '(sx, sy) :=
    if truthy2 sepX sepY then
      let sl := orElse (hypot sepX sepY) 1 in
      (sx + (sepX / sl) * AI_CFG.SEP_FORCE, sy + (sepY / sl) * AI_CFG.SEP_FORCE)
    else (sx, sy) in
  (* Wall repel + slide *)
  let m := AI_CFG.WALL_REPEL_MARGIN in
  let sx := if t_x t <? m
            then sx + (if cx >? px then 4 / 10 else 2 / 10) else sx in
  let sx := if t_x t >? canvas_width env - t_w t - m
            then sx + (if cx <? px then - (4 / 10) else - (2 / 10)) else sx in
  let sy := if t_y t <? m
            then sy + (if cy >? py then 4 / 10 else 2 / 10) else sy in
  let sy := if t_y t >? canvas_height env - t_h t - m
            then sy + (if cy <? py then - (4 / 10) else - (2 / 10)) else sy in
  let edge := aiNearEdges env t in
  let sy := if e_L edge || e_R edge
            then sy + (if cy >? py then 1 else -1) * AI_CFG.SLIDE_FORCE
            else sy in
  let sx := if e_T edge || e_B edge
            then sx + (if cx >? px then 1 else -1) * AI_CFG.SLIDE_FORCE
            else sx in
  mkBase sx sy d cx cy.

(** ** MODULE 7.4: AI_JUKE *)

Definition set_juke (a : AI) (time cool dirX dirY : R) : AI :=
  mkAI (wanderTimer a) (wanderPhase a) (lastSteerX a) (lastSteerY a)
       time cool dirX dirY
       (patrolTime a) (patrolCool a) (patrolDirX a) (patrolDirY a)
       (sectorIndex a).

Definition aiApplyJuke (p : Player) (s : AI) (base : Base) (pred : Pred)
  (dt : R) (g : Rng) : AI * Base * Rng :=
  (* cooldown timers *)
  let s := set_juke s (Rmax 0 (jukeTime s - dt)) (Rmax 0 (jukeCool s - dt))
                    (jukeDirX s) (jukeDirY s) in
  let px := pr_px pred in
  let py := pr_py pred in
  let hx := pr_hx pred in
  let hy := pr_hy pred in
  let hv := pr_hv pred in
  let cx := b_cx base in
  let cy := b_cy base in
  let d := b_d base in
  if jukeTime s >? 0 then
    (s, add_steer base (jukeDirX s * AI_CFG.JUKE_PUSH)
                       (jukeDirY s * AI_CFG.JUKE_PUSH), g)
  else if (d <? AI_CFG.JUKE_CLOSE_DIST) && (jukeCool s =? 0) && (hv >? 3 / 10)
  then
    let toTX := cx - (p_x p + p_w p / 2) in
    let toTY := cy - (p_y p + p_h p / 2) in
    let toTL := orElse (hypot toTX toTY) 1 in
    let nhx := hx / orElse (hypot hx hy) 1 in
    let nhy := hy / orElse (hypot hx hy) 1 in
    let dot := (toTX / toTL) * nhx + (toTY / toTL) * nhy in
    if dot >? AI_CFG.JUKE_TRIGGER_ANGLE then
      let awayX := (cx - px) / orElse (hypot (cx - px) (cy - py)) 1 in
      let awayY := (cy - py) / orElse (hypot (cx - px) (cy - py)) 1 in
      let lx := - awayY in
      let ly := awayX in
      let rx := awayY in
      let ry := - awayX in
      let sL := (cx + lx * 40 - px) ^ 2 + (cy + ly * 40 - py) ^ 2 in
      let sR := (cx + rx * 40 - px) ^ 2 + (cy + ry * 40 - py) ^ 2 in
      let '(jx, jy) := if sL >? sR then (lx, ly) else (rx, ry) in
      let '(r, g) := random g in
      (set_juke s AI_CFG.JUKE_DURATION (AI_CFG.JUKE_COOLDOWN + r * (4 / 10))
                jx jy, base, g)
    else (s, base, g)
  else (s, base, g).

(** ** MODULE 7.5: AI_PATROL *)

Definition set_patrol (a : AI) (time cool dirX dirY : R) : AI :=
  mkAI (wanderTimer a) (wanderPhase a) (lastSteerX a) (lastSteerY a)
       (jukeTime a) (jukeCool a) (jukeDirX a) (jukeDirY a)
       time cool dirX dirY
       (sectorIndex a).

Definition aiApplyPatrol (env : Env) (t : Target) (s : AI) (base : Base)
  (pred : Pred) (dt : R) (g : Rng) : AI * Base * Rng :=
  let s := set_patrol s (Rmax 0 (patrolTime s - dt))
                      (Rmax 0 (patrolCool s - dt))
                      (patrolDirX s) (patrolDirY s) in
  let cx := b_cx base in
  let cy := b_cy base in
  let d := b_d base in
  let edge := aiNearEdges env t in
  if patrolTime s >? 0 then
    (s, add_steer base (patrolDirX s * AI_CFG.PATROL_PUSH)
                       (patrolDirY s * AI_CFG.PATROL_PUSH), g)
  else
    let playerFar := d >? AI_CFG.ORBIT_DIST * (9 / 10) in
    let onEdge := inCorner edge || e_L edge || e_R edge || e_T edge
                  || e_B edge in
    if playerFar && onEdge && (patrolCool s =? 0) then
      let targetX := Rmin (canvas_width env - AI_CFG.SAFE_BAND)
                          (Rmax AI_CFG.SAFE_BAND cx) in
      let targetY := Rmin (canvas_height env - AI_CFG.SAFE_BAND)
                          (Rmax AI_CFG.SAFE_BAND cy) in
      let dirX := sign (targetX - cx) in
      let dirY := sign (targetY - cy) in
      let tangX := - (pr_py pred - cy) in
      let tangY := pr_px pred - cx in
      let tL := orElse (hypot tangX tangY) 1 in
      let dirX := 75 / 100 * dirX + 25 / 100 * (tangX / tL) in
      let dirY := 75 / 100 * dirY + 25 / 100 * (tangY / tL) in
      let n := orElse (hypot dirX dirY) 1 in
      let '(r, g) := random g in
      (set_patrol s AI_CFG.PATROL_TIME (AI_CFG.PATROL_COOLDOWN + r * (5 / 10))
                  (dirX / n) (dirY / n), base, g)
    else (s, base, g).

(** ** MODULE 7.6: AI_INTEGRATE *)

Definition set_wander (a : AI) (timer phase : R) : AI :=
  mkAI timer phase (lastSteerX a) (lastSteerY a)
       (jukeTime a) (jukeCool a) (jukeDirX a) (jukeDirY a)
       (patrolTime a) (patrolCool a) (patrolDirX a) (patrolDirY a)
       (sectorIndex a).

Definition set_lastSteer (a : AI) (ax ay : R) : AI :=
  mkAI (wanderTimer a) (wanderPhase a) ax ay
       (jukeTime a) (jukeCool a) (jukeDirX a) (jukeDirY a)
       (patrolTime a) (patrolCool a) (patrolDirX a) (patrolDirY a)
       (sectorIndex a).

(** Wander and jitter: the first block of [aiIntegrate]. *)
Definition aiWander (s : AI) (base : Base) (dt : R) (g : Rng)
  : AI * Base * Rng :=
  let s := set_wander s (wanderTimer s - dt) (wanderPhase s) in
  let '(s, g) :=
    if wanderTimer s <=? 0 then
      let '(r1, g) := random g in
      let s := set_wander s (AI_CFG.WANDER_T + r1 * (6 / 10)) (wanderPhase s) in
      let '(r2, g) := random g in
      (set_wander s (wanderTimer s)
                  (wanderPhase s + (r2 - 5 / 10) * (11 / 10)), g)
    else (s, g) in
  let wanderMag := if b_d base >? AI_CFG.ORBIT_DIST
                   then AI_CFG.WANDER_MAG_FAR else AI_CFG.WANDER_MAG_NEAR in
  let '(r3, g) := random g in
  let bx := sx base + (cos (wanderPhase s) * wanderMag
                       + (r3 - 5 / 10) * AI_CFG.JITTER) in
  let '(r4, g) := random g in
  let by_ := sy base + (sin (wanderPhase s) * wanderMag
                        + (r4 - 5 / 10) * AI_CFG.JITTER) in
  (s, mkBase bx by_ (b_d base) (b_cx base) (b_cy base), g).

(** Smooth steering: the summed vector is normalized and blended with the
    direction remembered from the previous frame. *)
Definition aiSmooth (s : AI) (base : Base) : R * R :=
  let sl := orElse (hypot (sx base) (sy base)) 1 in
  let ax := sx base / sl in
  let ay := sy base / sl in
  let ax := ax * (1 - AI_CFG.SMOOTH) + lastSteerX s * AI_CFG.SMOOTH in
  let ay := ay * (1 - AI_CFG.SMOOTH) + lastSteerY s * AI_CFG.SMOOTH in
  (ax, ay).

(** Panic speed bump near player. *)
Definition panicMult (d : R) : R :=
  if d <? 150 then AI_CFG.PANIC_SPEED_UP else 1.

(** Clamp speed. *)
Definition clampSpeed (maxV vx vy : R) : R * R :=
  let vL := orElse (hypot vx vy) 1 in
  if vL >? maxV then ((vx / vL) * maxV, (vy / vL) * maxV) else (vx, vy).

(** Bounds with soft bounce: the four [if]s that end [aiIntegrate]. *)
Definition softBounce (env : Env) (t : Target) : Target :=
  let x := t_x t in
  let y := t_y t in
  let vx := t_vx t in
  let vy := t_vy t in
  let '(x, vx) := if x <? 0 then (0, Rabs vx * (7 / 10)) else (x, vx) in
  let '(y, vy) := if y <? 0 then (0, Rabs vy * (7 / 10)) else (y, vy) in
  let '(x, vx) := if x >? canvas_width env - t_w t
                  then (canvas_width env - t_w t, - Rabs vx * (7 / 10))
                  else (x, vx) in
  let '(y, vy) := if y >? canvas_height env - t_h t
                  then (canvas_height env - t_h t, - Rabs vy * (7 / 10))
                  else (y, vy) in
  mkTarget x y (t_w t) (t_h t) vx vy (t_ai t).

(** The agent after "Move" and before the bounds are applied. *)
Definition aiMove (t : Target) (s : AI) (base : Base) (dt : R) : Target :=
  let '(ax, ay) := aiSmooth s base in
  let s := set_lastSteer s ax ay in
  let panic := panicMult (b_d base) in
  let vx := t_vx t + ax * CFG.TARGET_MAX_ACCEL * dt in
  let vy := t_vy t + ay * CFG.TARGET_MAX_ACCEL * dt in
  let maxV := CFG.TARGET_MAX_SPEED * panic in
  let '(vx, vy) := clampSpeed maxV vx vy in
  mkTarget (t_x t + vx * dt) (t_y t + vy * dt) (t_w t) (t_h t) vx vy (Some s).

Definition aiIntegrate (env : Env) (t : Target) (s : AI) (base : Base)
  (dt : R) (g : Rng) : Target * Rng :=
  let '(s, base, g) := aiWander s base dt g in
  (softBounce env (aiMove t s base dt), g).

(** ** MODULE 7.9: SECTORS *)

Definition set_sectorIndex (a : AI) (i : nat) : AI :=
  mkAI (wanderTimer a) (wanderPhase a) (lastSteerX a) (lastSteerY a)
       (jukeTime a) (jukeCool a) (jukeDirX a) (jukeDirY a)
       (patrolTime a) (patrolCool a) (patrolDirX a) (patrolDirY a)
       (Some i).

(** The loop of [aiAssignSectors] from index [i] on. *)
Fixpoint assignFrom (i : nat) (ts : list Target) (g : Rng)
  : list Target * Rng :=
  match ts with
  | [] => ([], g)
  | t :: rest =>
      let '(t, g) := aiInit t g in
      let t := match t_ai t with
               | Some a => set_ai t (set_sectorIndex a i)
               | None => t
               end in
      let '(rest, g) := assignFrom (S i) rest g in
      (t :: rest, g)
  end.

Definition aiAssignSectors (s : State) : State :=
  if sect_assigned s then s
  else
    let '(ts, g) := assignFrom 0 (targets s) (rng s) in
    mkState (player s) (keys s) (score s) (hp s) (alive s) (elapsed s) ts
            (heat s) true g.

Definition aiSectorPointFor (env : Env) (ts : list Target) (s : AI)
  (timeSec : R) : R * R :=
  let idx := match sectorIndex s with Some i => INR i | None => 0 end in
  let N := Rmax 1 (INR (length ts)) in
  let arenaW := canvas_width env in
  let arenaH := canvas_height env in
  let ring := Rmin arenaW arenaH * AI_PROFILE.SECTOR_RING_RATIO in
  let cx := arenaW * (5 / 10) in
  let cy := arenaH * (5 / 10) in
  let baseAngle := (idx / N) * PI * 2 in
  let rot := baseAngle + timeSec * AI_PROFILE.SECTOR_ROT_SPEED in
  (cx + cos rot * ring, cy + sin rot * ring).

Definition aiSectorBias (env : Env) (ts : list Target) (t : Target) (s : AI)
  (base : Base) (playerFar : bool) : Base :=
  if negb playerFar then base
  else
    let now := sect_now env in
    let '(qx, qy) := aiSectorPointFor env ts s now in
    let toX := qx - (t_x t + t_w t / 2) in
    let toY := qy - (t_y t + t_h t / 2) in
    let L := orElse (hypot toX toY) 1 in
    let gain := AI_PROFILE.SECTOR_STICK in
    add_steer base ((toX / L) * gain) ((toY / L) * gain).

(** ** MODULE 7.10: HEATMAP *)

(** [g[idx]] of a typed array, [None] when [idx] is out of range. *)
Definition getAt (g : list R) (idx : Z) : option R :=
  if (idx <? 0)%Z then None else nth_error g (Z.to_nat idx).

(** [g[n] += v] on a [Float32Array]: the sum is rounded as it is stored;
    nothing is written out of range. *)
Fixpoint addNth (g : list R) (n : nat) (v : R) : list R :=
  match g, n with
  | [], _ => []
  | a :: rest, O => fround (a + v) :: rest
  | a :: rest, S n' => a :: addNth rest n' v
  end.

Definition addAt (g : list R) (idx : Z) (v : R) : list R :=
  if (idx <? 0)%Z then g else addNth g (Z.to_nat idx) v.

Definition heatmapInit (env : Env) (hm : Heat) : Heat :=
  let cell := AI_PROFILE.HEATMAP_CELL in
  if (cell =? 0)%Z then hm
  else
    let cols := Zceil (canvas_width env / IZR cell) in
    let rows := Zceil (canvas_height env / IZR cell) in
    mkHeat (Some (repeat 0 (Z.to_nat (cols * rows)))) cols rows
           (canvas_width env) (canvas_height env).

Definition heatmapEnsure (env : Env) (hm : Heat) : Heat :=
  match grid hm with
  | None => heatmapInit env hm
  | Some _ =>
      if negb (lastW hm =? canvas_width env)
         || negb (lastH hm =? canvas_height env)
      then heatmapInit env hm else hm
  end.

Definition heatmapIdx (hm : Heat) (x y : R) : Z :=
  let cell := AI_PROFILE.HEATMAP_CELL in
  let c := Z.min (cols hm - 1) (Z.max 0 (Zfloor (x / IZR cell))) in
  let r := Z.min (rows hm - 1) (Z.max 0 (Zfloor (y / IZR cell))) in
  (r * cols hm + c)%Z.

Definition set_grid (hm : Heat) (g : list R) : Heat :=
  mkHeat (Some g) (cols hm) (rows hm) (lastW hm) (lastH hm).

Definition heatmapTick (env : Env) (p : Player) (hm : Heat) : Heat :=
  let hm := heatmapEnsure env hm in
  match grid hm with
  | None => hm
  | Some g =>
      let decay := AI_PROFILE.HEATMAP_DECAY in
      let g := map (fun v => fround (v * decay)) g in
      let px := p_x p + p_w p / 2 in
      let py := p_y p + p_h p / 2 in
      let idx := heatmapIdx hm px py in
      set_grid hm (addAt g idx AI_PROFILE.HEATMAP_PLAYER_STAMP)
  end.

Definition heatmapSample (env : Env) (hm : Heat) (x y : R) : R * Heat :=
  let hm := heatmapEnsure env hm in
  match grid hm with
  | None => (0, hm)
  | Some g =>
      (match getAt g (heatmapIdx hm x y) with Some v => v | None => 0 end, hm)
  end.

Definition aiHeatmapBias (env : Env) (hm : Heat) (t : Target) (base : Base)
  : Base * Heat :=
  match grid hm with
  | None => (base, hm)
  | Some _ =>
      let cx := t_x t + t_w t / 2 in
      let cy := t_y t + t_h t / 2 in
      let '(s0, hm) := heatmapSample env hm cx cy in
      let '(a, hm) := heatmapSample env hm (cx + 24) cy in
      let '(b, hm) := heatmapSample env hm (cx - 24) cy in
      let sX := a - b in
      let '(sY, hm) := heatmapSample env hm (cy + 24) cx in
      (add_steer base ((- sX) * (2 / 100) * AI_PROFILE.HEATMAP_BIAS)
                      ((- sY) * (2 / 100) * AI_PROFILE.HEATMAP_BIAS), hm)
  end.

(** ** MODULE 7.11: DISPERSION *)

Definition nearEdge12 (env : Env) (t : Target) : bool :=
  (t_x t <? 12) || (t_y t <? 12)
  || (t_x t >? canvas_width env - t_w t - 12)
  || (t_y t >? canvas_height env - t_h t - 12).

(** One turn of the loop of [aiApplyDispersion] at [targets[j] = o]; the
    accumulator is [(tangentPush, spaceX, spaceY)] and the oracle. *)
Definition dispStep (env : Env) (i : nat) (cx cy edgeVX edgeVY : R)
  (nearEdge : bool) (acc : R * R * R * Rng) (jo : nat * Target)
  : R * R * R * Rng :=
  let '(tangentPush, spaceX, spaceY, g) := acc in
  let '(j, o) := jo in
  if Nat.eqb j i then acc
  else
    let ox := t_x o + t_w o / 2 in
    let oy := t_y o + t_h o / 2 in
    let dist := hypot (cx - ox) (cy - oy) in
    let '(spaceX, spaceY) :=
      if dist <? AI_PROFILE.DISPERSION_MIN_SPACING then
        let dx := cx - ox in
        let dy := cy - oy in
        let L := orElse (hypot dx dy) 1 in
        let k := (AI_PROFILE.DISPERSION_MIN_SPACING - dist)
                 / AI_PROFILE.DISPERSION_MIN_SPACING in
        (spaceX + (dx / L) * k, spaceY + (dy / L) * k)
      else (spaceX, spaceY) in
    let oNearEdge := nearEdge12 env o in
    if oNearEdge && nearEdge then
      let along := (ox - cx) * edgeVX + (oy - cy) * edgeVY in
      if along =? 0 then
        let '(r, g) := random g in
        (tangentPush + sign (r - 5 / 10), spaceX, spaceY, g)
      else (tangentPush + sign along, spaceX, spaceY, g)
    else (tangentPush, spaceX, spaceY, g).

Definition aiApplyDispersion (env : Env) (ts : list Target) (i : nat)
  (t : Target) (base : Base) (g : Rng) : Base * Rng :=
  let cx := t_x t + t_w t / 2 in
  let cy := t_y t + t_h t / 2 in
  let nearEdge := nearEdge12 env t in
  if negb nearEdge then (base, g)
  else
    let dLeft := t_x t in
    let dRight := canvas_width env - (t_x t + t_w t) in
    let dTop := t_y t in
    let dBottom := canvas_height env - (t_y t + t_h t) in
    let minD := Rmin (Rmin (Rmin dLeft dRight) dTop) dBottom in
    let '(edgeVX, edgeVY) :=
      if (minD =? dLeft) || (minD =? dRight) then (0, 1) else (1, 0) in
    let '(tangentPush, spaceX, spaceY, g) :=
      fold_left (dispStep env i cx cy edgeVX edgeVY nearEdge)
                (indexed ts) (0, 0, 0, g) in
    (add_steer base
       (spaceX * 1 + edgeVX * tangentPush * AI_PROFILE.DISPERSION_EDGE_FAN)
       (spaceY * 1 + edgeVY * tangentPush * AI_PROFILE.DISPERSION_EDGE_FAN),
     g).

(** ** MODULE 7.7: UPDATE of one agent *)

(** [ts[i] = t]; the list is unchanged when [i] is out of range. *)
Fixpoint setNth {A : Type} (i : nat) (t : A) (ts : list A) : list A :=
  match ts, i with
  | [], _ => []
  | _ :: rest, O => t :: rest
  | a :: rest, S i' => a :: setNth i' t rest
  end.

(** [updateTargetAI(targets[i], dt)].  The agent is a shared object: the
    layers mutate it in place while the separation and dispersion loops read
    the other elements of [targets], so the update takes the index and
    writes the agent back at that index.  The loop of [update] only passes
    valid indices; on any other the state is returned as it is, and so it
    is in the branches where [t._ai] would be missing after [aiInit]. *)
Definition updateTargetAI (env : Env) (dt : R) (i : nat) (s : State) : State :=
  match nth_error (targets s) i with
  | None => s
  | Some t0 =>
      let '(t1, g) := aiInit t0 (rng s) in
      let s := set_rng (set_targets s (setNth i t1 (targets s))) g in
      let s := aiAssignSectors s in
      let s := set_heat s (heatmapTick env (player s) (heat s)) in
      match nth_error (targets s) i with
      | None => s
      | Some t =>
          match t_ai t with
          | None => s
          | Some a =>
              let pred := aiPredictPlayer (player s) (keys s) in
              let base := aiSteerBase env (targets s) i t pred in
              let playerFar := b_d base >? AI_CFG.ORBIT_DIST * (9 / 10) in
              let '(base, hm) := aiHeatmapBias env (heat s) t base in
              let '(base, g) :=
                aiApplyDispersion env (targets s) i t base (rng s) in
              let base := aiSectorBias env (targets s) t a base playerFar in
              let '(a, base, g) :=
                aiApplyJuke (player s) a base pred dt g in
              let '(a, base, g) := aiApplyPatrol env t a base pred dt g in
              let '(t', g) := aiIntegrate env t a base dt g in
              set_rng (set_heat (set_targets s (setNth i t' (targets s))) hm) g
          end
      end
  end.

(** ** MODULE 8: Update *)

Definition restart (env : Env) (s : State) : State :=
  let s := mkState (player s) (keys s) 0%Z CFG.HEALTH_MAX true 0 []
                   (heat s) (sect_assigned s) (rng s) in
  let cap := targetCap s in
  spawnToCap env cap s.

(** [targets.splice(i, 1)] *)
Fixpoint removeNth {A : Type} (i : nat) (ts : list A) : list A :=
  match ts, i with
  | [], _ => []
  | _ :: rest, O => rest
  | a :: rest, S i' => a :: removeNth i' rest
  end.

Definition add_score (s : State) : State :=
  mkState (player s) (keys s) (score s + 1)%Z (hp s) (alive s) (elapsed s)
          (targets s) (heat s) (sect_assigned s) (rng s).

(** The body of the [for] loop of [update] at index [i]: update the agent,
    then collect it at once when it touches the player. *)
Definition collectStep (env : Env) (dt : R) (i : nat) (s : State) : State :=
  let s := updateTargetAI env dt i s in
  match nth_error (targets s) i with
  | None => s
  | Some t =>
      if rectsOverlap (rectP (player s)) (rectT t)
      then set_targets (add_score s) (removeNth i (targets s))
      else s
  end.

(** [for (let i = n - 1; i >= 0; i--)] *)
Fixpoint collectLoop (env : Env) (dt : R) (n : nat) (s : State) : State :=
  match n with
  | O => s
  | S i => collectLoop env dt i (collectStep env dt i s)
  end.

Definition movePlayer (env : Env) (dt : R) (p : Player) (ks : list Key)
  : Player :=
  let '(dx, dy) := readInput ks in
  let x := p_x p + dx * p_speed p * dt in
  let y := p_y p + dy * p_speed p * dt in
  mkPlayer (clamp x 0 (canvas_width env - p_w p))
           (clamp y 0 (canvas_height env - p_h p))
           (p_w p) (p_h p) (p_speed p).

(** The last block of [update]: [if (targets.length === 0) { ... }]. *)
Definition refillOnClear (env : Env) (s : State) : State :=
  match targets s with
  | [] =>
      (* regen health *)
      let hp' := clamp (hp s + CFG.HEALTH_REFILL_ON_CLEAR) 0 CFG.HEALTH_MAX in
      let s := mkState (player s) (keys s) (score s) hp' (alive s)
                       (elapsed s) (targets s) (heat s) (sect_assigned s)
                       (rng s) in
      (* spawn up to current time-based cap *)
      let cap := targetCap s in
      spawnToCap env cap s
  | _ :: _ => s
  end.

(** The middle of [update], run when the health drain leaves [hp'] above
    zero: player movement, then the pass that updates and collects. *)
Definition capturePass (env : Env) (dt : R) (s : State) (hp' : R) : State :=
  (* player movement *)
  let p := movePlayer env dt (player s) (keys s) in
  let s := mkState p (keys s) (score s) hp' (alive s) (elapsed s + dt)
                   (targets s) (heat s) (sect_assigned s) (rng s) in
  (* update targets + collect *)
  collectLoop env dt (length (targets s)) s.

Definition update (env : Env) (dt : R) (s : State) : State :=
  if negb (alive s) then
    if has (keys s) space_key then restart env s else s
  else
    (* health drain *)
    let hp' := hp s - CFG.HEALTH_DECAY_PER_SEC * dt in
    let hp' := clamp hp' 0 CFG.HEALTH_MAX in
    if hp' <=? 0 then
      mkState (player s) (keys s) (score s) hp' false (elapsed s + dt)
              (targets s) (heat s) (sect_assigned s) (rng s)
    else
      (* only when all current cubes are cleared *)
      refillOnClear env (capturePass env dt s hp').

(** ** MODULE 10: Loop *)

(** The frame time that [frame(t)] takes from the clock, in seconds. *)
Definition frame_dt (t last : R) : R := Rmin (33 / 1000) ((t - last) / 1000).

(** [frame(t)] on the session and the variable [last]; the drawing of
    [render] and the request for the next frame change neither. *)
Definition frame (env : Env) (t : R) (sl : State * R) : State * R :=
  let '(s, last) := sl in
  let dt := frame_dt t last in
  (update env dt s, t).

(** * The first revision of [game.js]

    The revision with one agent kind and a panic dash, on a canvas fixed by
    [CFG.CANVAS_W] and [CFG.CANVAS_H].  Its helpers [clamp], [rectsOverlap],
    [len] and [norm] are those of MODULE 5 above, word for word.  The score
    and the clock of [performance.now()] are inputs of the agent update. *)

Module Rev1.

Module CFG.
Definition CANVAS_W : R := 640.
Definition CANVAS_H : R := 480.
Definition PLAYER_SIZE : R := 24.
Definition PLAYER_SPEED : R := 150.
Definition TARGET_SIZE : R := 24.
Definition TARGET_BASE_SPEED : R := 110.
Definition TARGET_MAX_SPEED : R := 220.
Definition TARGET_MAX_ACCEL : R := 600.
Definition DESIRED_DIST : R := 140.
Definition THREAT_DIST : R := 120.
Definition WALL_PAD : R := 32.
Definition JUKE_STRENGTH : R := 8 / 10.
Definition JITTER : R := 4 / 10.
Definition DASH_TIME : R := 5.
Definition DASH_COOLDOWN : R := 9.
Definition SCORE_SPEED_BOOST : R := 6 / 100.
Definition TARGET_COUNT : nat := 1.
End CFG.

Record Target : Type := mkTarget {
  x : R; y : R; w : R; h : R; vx : R; vy : R;
  baseSpeed : R; maxSpeed : R; maxAccel : R;
  desiredDist : R; threatDist : R; wallPad : R;
  jukeStrength : R; jitter : R;
  dashCooldown : R; dashTime : R }.

Definition perpendicular (a b : R) : R * R := (- b, a).

(** The speed the agent wants, growing with the score. *)
Definition wantSpeed (score : Z) (t : Target) : R :=
  let difficultyBoost := Rmin 1 (IZR score * CFG.SCORE_SPEED_BOOST) in
  baseSpeed t * (1 + 6 / 10 * difficultyBoost).

(** Cap speed near [wantSpeed], scaled by the dash. *)
Definition capSpeed (cap vx vy : R) : R * R :=
  let vlen := len vx vy in
  if vlen >? cap then ((vx / vlen) * cap, (vy / vlen) * cap) else (vx, vy).

(** Stay inside; soften bounce. *)
Definition stayInside (t : Target) : Target :=
  let '(x1, vx1) := if x t <? 0 then (0, Rabs (vx t) * (7 / 10))
                    else (x t, vx t) in
  let '(y1, vy1) := if y t <? 0 then (0, Rabs (vy t) * (7 / 10))
                    else (y t, vy t) in
  let '(x2, vx2) := if x1 >? CFG.CANVAS_W - w t
                    then (CFG.CANVAS_W - w t, - Rabs vx1 * (7 / 10))
                    else (x1, vx1) in
  let '(y2, vy2) := if y1 >? CFG.CANVAS_H - h t
                    then (CFG.CANVAS_H - h t, - Rabs vy1 * (7 / 10))
                    else (y1, vy1) in
  mkTarget x2 y2 (w t) (h t) vx2 vy2
           (baseSpeed t) (maxSpeed t) (maxAccel t) (desiredDist t)
           (threatDist t) (wallPad t) (jukeStrength t) (jitter t)
           (dashCooldown t) (dashTime t).

Definition updateTargetAI (player : Player) (score : Z) (now : R)
  (t : Target) (dt : R) (g : Rng) : Target * Rng :=
  let wantSpeed := wantSpeed score t in
  let cx := x t + w t / 2 in
  let cy := y t + h t / 2 in
  let px := p_x player + p_w player / 2 in
  let py := p_y player + p_h player / 2 in
  let toX := px - cx in
  let toY := py - cy in
  let '(awayX, awayY) := norm (- toX) (- toY) in
  let dist := len toX toY in
  (* Flee weight scales down when far *)
  let fleeWeight := if dist >? desiredDist t
                    then 4 / 10 * (desiredDist t / dist) else 1 in
  (* Strafe *)
  let '(sideX, sideY) := perpendicular awayX awayY in
  let osc := sin (now * (5 / 1000) + IZR score) in
  let strafeX := sideX * osc in
  let strafeY := sideY * osc in
  (* Wall avoidance *)
  let wallX := 0 in
  let wallY := 0 in
  let wallX := if cx <? wallPad t then wallX + 1 else wallX in
  let wallY := if cy <? wallPad t then wallY + 1 else wallY in
  let wallX := if cx >? CFG.CANVAS_W - wallPad t then wallX - 1 else wallX in
  let wallY := if cy >? CFG.CANVAS_H - wallPad t then wallY - 1 else wallY in
  let '(wallX, wallY) :=
    if truthy2 wallX wallY then norm wallX wallY else (wallX, wallY) in
  (* Panic dash *)
  let dashCooldown := Rmax 0 (dashCooldown t - dt) in
  let dashTime := Rmax 0 (dashTime t - dt) in
  let '(dashTime, dashCooldown) :=
    if (dist <? threatDist t) && (dashCooldown =? 0)
    then (CFG.DASH_TIME, CFG.DASH_COOLDOWN)
    else (dashTime, dashCooldown) in
  let dashMult := if dashTime >? 0 then 18 / 10 else 1 in
  (* Random jitter *)
  let '(r1, g) := random g in
  let '(r2, g) := random g in
  let jitterX := (r1 - 5 / 10) * jitter t in
  let jitterY := (r2 - 5 / 10) * jitter t in
  (* Combine steering *)
  let steerX := awayX * fleeWeight + strafeX * jukeStrength t
                + wallX * (12 / 10) + jitterX * (6 / 10) in
  let steerY := awayY * fleeWeight + strafeY * jukeStrength t
                + wallY * (12 / 10) + jitterY * (6 / 10) in
  (* Acceleration *)
  let '(sX, sY) := norm steerX steerY in
  let ax := sX * maxAccel t * dt in
  let ay := sY * maxAccel t * dt in
  (* Integrate velocity *)
  let vx1 := vx t + ax in
  let vy1 := vy t + ay in
  (* Cap speed near wantSpeed (scaled by dash) *)
  let cap := Rmin (maxSpeed t) (wantSpeed * dashMult) in
  let '(vx2, vy2) := capSpeed cap vx1 vy1 in
  (* Move; stay inside *)
  (stayInside
     (mkTarget (x t + vx2 * dt) (y t + vy2 * dt) (w t) (h t) vx2 vy2
               (baseSpeed t) (maxSpeed t) (maxAccel t) (desiredDist t)
               (threatDist t) (wallPad t) (jukeStrength t) (jitter t)
               dashCooldown dashTime), g).

(** MODULE 3: the state of the first revision. *)
Record State : Type := mkState {
  player : Player;
  targets : list Target;
  score : Z;
  keys : list Key;
  rng : Rng }.

(** MODULE 6: Spawn *)

(** The object literal of [spawnOneTarget] at [(x, y)]. *)
Definition newTarget (x y : R) : Target :=
  mkTarget x y CFG.TARGET_SIZE CFG.TARGET_SIZE 0 0
           CFG.TARGET_BASE_SPEED CFG.TARGET_MAX_SPEED CFG.TARGET_MAX_ACCEL
           CFG.DESIRED_DIST CFG.THREAT_DIST CFG.WALL_PAD
           CFG.JUKE_STRENGTH CFG.JITTER 0 0.

Definition rectOf (t : Target) : Rect := mkRect (x t) (y t) (w t) (h t).

(** The [for] loop of [spawnOneTarget] with [n] attempts left. *)
Fixpoint spawnTries (n : nat) (avoidRect : Rect) (g : Rng) : Target * Rng :=
  match n with
  | O => (newTarget (CFG.CANVAS_W - CFG.TARGET_SIZE - 10)
                    (CFG.CANVAS_H - CFG.TARGET_SIZE - 10), g)
  | S n' =>
      let '(r1, g) := random g in
      let '(r2, g) := random g in
      let t := newTarget (r1 * (CFG.CANVAS_W - CFG.TARGET_SIZE))
                         (r2 * (CFG.CANVAS_H - CFG.TARGET_SIZE)) in
      if negb (rectsOverlap avoidRect (rectOf t)) then (t, g)
      else spawnTries n' avoidRect g
  end.

Definition spawnOneTarget (avoidRect : Rect) (g : Rng) : Target * Rng :=
  spawnTries 20 avoidRect g.

Definition push_target (s : State) : State :=
  let '(t, g) := spawnOneTarget (rectP (player s)) (rng s) in
  mkState (player s) (targets s ++ [t]) (score s) (keys s) g.

(** [while (targets.length < CFG.TARGET_COUNT) targets.push(...)] *)
Equations? ensureTargetCount (s : State) : State
  by wf (CFG.TARGET_COUNT - length (targets s))%nat lt :=
  ensureTargetCount s with lt_dec (length (targets s)) CFG.TARGET_COUNT => {
    | left _ := ensureTargetCount (push_target s);
    | right _ := s }.
Proof.
  unfold push_target.
  destruct (spawnOneTarget (rectP (player s)) (rng s)) as [t g].
  cbn [targets]. rewrite length_app. cbn [length].
  unfold CFG.TARGET_COUNT in *. destruct (length (targets s)); simpl; lia.
Qed.

(** MODULE 8: Update.  The clock that an agent update reads is an input:
    [clock i] is the value of [performance.now()] in the update of the
    agent at index [i]. *)

Definition movePlayer (dt : R) (p : Player) (ks : list Key) : Player :=
  let '(dx, dy) := readInput ks in
  let x := p_x p + dx * p_speed p * dt in
  let y := p_y p + dy * p_speed p * dt in
  mkPlayer (clamp x 0 (CFG.CANVAS_W - p_w p))
           (clamp y 0 (CFG.CANVAS_H - p_h p))
           (p_w p) (p_h p) (p_speed p).

(** The body of the [for] loop of [update] at index [i]. *)
Definition collectStep (clock : nat -> R) (dt : R) (i : nat) (s : State)
  : State :=
  match nth_error (targets s) i with
  | None => s
  | Some t =>
      let '(t', g) :=
        updateTargetAI (player s) (score s) (clock i) t dt (rng s) in
      if rectsOverlap (rectP (player s)) (rectOf t')
      then mkState (player s) (removeNth i (targets s)) (score s + 1)%Z
                   (keys s) g
      else mkState (player s) (setNth i t' (targets s)) (score s) (keys s) g
  end.

Fixpoint collectLoop (clock : nat -> R) (dt : R) (n : nat) (s : State)
  : State :=
  match n with
  | O => s
  | S i => collectLoop clock dt i (collectStep clock dt i s)
  end.

Definition update (clock : nat -> R) (dt : R) (s : State) : State :=
  (* player *)
  let p := movePlayer dt (player s) (keys s) in
  let s := mkState p (targets s) (score s) (keys s) (rng s) in
  (* targets *)
  let s := collectLoop clock dt (length (targets s)) s in
  (* keep count *)
  ensureTargetCount s.

(** [boot()] *)
Definition boot (s : State) : State :=
  ensureTargetCount (mkState (player s) [] (score s) (keys s) (rng s)).

End Rev1.

(** * The revision of [game.js] with zigs

    The revision between the first and the last: its configuration, its
    spawning and its [update] are those of the last revision; its agent
    update, embedded here, has quick sideways bursts ("zigs").  The agent
    fields that the update creates on its first call are the record [Mem];
    [zigDirX] and [zigDirY] stay undefined until the first zig.  Using an
    undefined field in arithmetic makes every number that follows NaN: the
    update then returns [None]. *)

Module Zig.

(** The local knobs of [updateTargetAI]. *)
Definition SEP_RADIUS : R := 80.
Definition SEP_FORCE : R := 8 / 10.
Definition WANDER_FREQ : R := 12 / 10.
Definition WANDER_STRENGTH : R := 6 / 10.
Definition ZIG_DIST : R := 220.
Definition ZIG_TIME : R := 18 / 100.
Definition ZIG_COOLDOWN : R := 9 / 10.
Definition ZIG_FORCE : R := 135 / 100.
Definition SLIDE_FORCE : R := 1.
Definition SMOOTH : R := 65 / 100.

Record Mem : Type := mkMem {
  zigTime : R; zigCooldown : R;
  wanderPhase : R; wanderTimer : R;
  lastSteerX : R; lastSteerY : R;
  zigDir : option (R * R) }.

Record Target : Type := mkTarget {
  x : R; y : R; w : R; h : R; vx : R; vy : R;
  mem : option Mem }.

(** init one-time fields *)
Definition init (t : Target) (g : Rng) : Mem * Rng :=
  match mem t with
  | Some m => (m, g)
  | None =>
      let '(r, g) := random g in
      (mkMem 0 0 (r * PI * 2) 0 0 0 None, g)
  end.

(** One turn of the separation loop at [targets[j] = o]. *)
Definition sepStep (i : nat) (cx cy : R) (acc : R * R) (jo : nat * Target)
  : R * R :=
  let '(sepX, sepY) := acc in
  let '(j, o) := jo in
  if Nat.eqb j i then acc
  else
    let dx := cx - (x o + w o / 2) in
    let dy := cy - (y o + h o / 2) in
    let dist := hypot dx dy in
    if (dist >? 0) && (dist <? SEP_RADIUS) then
      let s := (SEP_RADIUS - dist) / SEP_RADIUS in
      (sepX + (dx / dist) * s, sepY + (dy / dist) * s)
    else acc.

(** A boolean used as a number. *)
Definition b2n (b : bool) : nat := if b then 1%nat else 0%nat.

(** contain + soft bounce *)
Definition softBounce (env : Env) (t : Target) : Target :=
  let '(x1, vx1) := if x t <? 0 then (0, Rabs (vx t) * (7 / 10))
                    else (x t, vx t) in
  let '(y1, vy1) := if y t <? 0 then (0, Rabs (vy t) * (7 / 10))
                    else (y t, vy t) in
  let '(x2, vx2) := if x1 >? canvas_width env - w t
                    then (canvas_width env - w t, - Rabs vx1 * (7 / 10))
                    else (x1, vx1) in
  let '(y2, vy2) := if y1 >? canvas_height env - h t
                    then (canvas_height env - h t, - Rabs vy1 * (7 / 10))
                    else (y1, vy1) in
  mkTarget x2 y2 (w t) (h t) vx2 vy2 (mem t).

(** [updateTargetAI(targets[i], dt)] *)
Definition updateTargetAI (env : Env) (player : Player) (ts : list Target)
  (i : nat) (t : Target) (dt : R) (g : Rng) : option (Target * Rng) :=
  let '(m, g) := init t g in
  (* centers *)
  let cx := x t + w t / 2 in
  let cy := y t + h t / 2 in
  let px := p_x player + p_w player / 2 in
  let py := p_y player + p_h player / 2 in
  (* base flee + mild strafe *)
  let toX := px - cx in
  let toY := py - cy in
  let d := orElse (hypot toX toY) 1 in
  let awayX := - toX / d in
  let awayY := - toY / d in
  let sideX := - awayY in
  let sideY := awayX in
  let steerX := awayX * (8 / 10) + sideX * (CFG.JUKE_STRENGTH * (6 / 10)) in
  let steerY := awayY * (8 / 10) + sideY * (CFG.JUKE_STRENGTH * (6 / 10)) in
  (* separation *)
  let '(sepX, sepY) := fold_left (sepStep i cx cy) (indexed ts) (0, 0) in
  let '(steerX, steerY) :=
    if truthy2 sepX sepY then
      let l := orElse (hypot sepX sepY) 1 in
      (steerX + (sepX / l) * SEP_FORCE, steerY + (sepY / l) * SEP_FORCE)
    else (steerX, steerY) in
  (* wall-slide *)
  let nearLeft := x t <? 12 in
  let nearRight := x t >? canvas_width env - w t - 12 in
  let nearTop := y t <? 12 in
  let nearBottom := y t >? canvas_height env - h t - 12 in
  let steerY := if nearLeft || nearRight
                then steerY + (if cy >? py then 1 else -1) * SLIDE_FORCE
                else steerY in
  let steerX := if nearTop || nearBottom
                then steerX + (if cx >? px then 1 else -1) * SLIDE_FORCE
                else steerX in
  (* WANDER *)
  let wanderTimer := wanderTimer m - dt in
  let '(wanderTimer, wanderPhase, g) :=
    if wanderTimer <=? 0 then
      let '(r1, g) := random g in
      let '(r2, g) := random g in
      (WANDER_FREQ + r1 * (6 / 10),
       wanderPhase m + (r2 - 5 / 10) * (12 / 10), g)
    else (wanderTimer, wanderPhase m, g) in
  let wanderX := cos wanderPhase * WANDER_STRENGTH
                 * (if d >? ZIG_DIST then 1 else 4 / 10) in
  let wanderY := sin wanderPhase * WANDER_STRENGTH
                 * (if d >? ZIG_DIST then 1 else 4 / 10) in
  let steerX := steerX + wanderX in
  let steerY := steerY + wanderY in
  (* ZIG *)
  let zigCooldown := Rmax 0 (zigCooldown m - dt) in
  let zigTime := Rmax 0 (zigTime m - dt) in
  let '(zigTime, zigCooldown, zigDir, g) :=
    if (d <? ZIG_DIST) && (zigCooldown =? 0) && (zigTime =? 0) then
      let leftSpace := cx >? canvas_width env * (33 / 100) in
      let rightSpace := cx <? canvas_width env * (66 / 100) in
      let upSpace := cy >? canvas_height env * (33 / 100) in
      let downSpace := cy <? canvas_height env * (66 / 100) in
      let favor1 :=
        Nat.add (b2n (if sideX <? 0 then leftSpace else rightSpace))
                (b2n (if sideY <? 0 then upSpace else downSpace)) in
      let favor2 :=
        Nat.add (b2n (if - sideX <? 0 then leftSpace else rightSpace))
                (b2n (if - sideY <? 0 then upSpace else downSpace)) in
      let dir := if Nat.leb favor2 favor1 then (sideX, sideY)
                 else (- sideX, - sideY) in
      let '(r, g) := random g in
      (ZIG_TIME, ZIG_COOLDOWN + r * (4 / 10), Some dir, g)
    else (zigTime, zigCooldown, zigDir m, g) in
  let steer :=
    if zigTime >? 0 then
      match zigDir with
      | Some (zigDirX, zigDirY) =>
          Some (steerX + zigDirX * ZIG_FORCE, steerY + zigDirY * ZIG_FORCE)
      | None => None
      end
    else Some (steerX, steerY) in
  match steer with
  | None => None
  | Some (steerX, steerY) =>
      (* tiny randomness *)
      let '(r3, g) := random g in
      let steerX := steerX + (r3 - 5 / 10) * CFG.JITTER in
      let '(r4, g) := random g in
      let steerY := steerY + (r4 - 5 / 10) * CFG.JITTER in
      (* accelerate toward steer, with a touch of smoothing *)
      let sL := orElse (hypot steerX steerY) 1 in
      let ax := steerX / sL in
      let ay := steerY / sL in
      let ax := ax * (1 - SMOOTH) + orElse (lastSteerX m) 0 * SMOOTH in
      let ay := ay * (1 - SMOOTH) + orElse (lastSteerY m) 0 * SMOOTH in
      let vx1 := vx t + ax * CFG.TARGET_MAX_ACCEL * dt in
      let vy1 := vy t + ay * CFG.TARGET_MAX_ACCEL * dt in
      (* cap speed *)
      let '(vx2, vy2) := clampSpeed CFG.TARGET_MAX_SPEED vx1 vy1 in
      (* move; contain + soft bounce *)
      Some (softBounce env
              (mkTarget (x t + vx2 * dt) (y t + vy2 * dt) (w t) (h t)
                        vx2 vy2
                        (Some (mkMem zigTime zigCooldown wanderPhase
                                     wanderTimer ax ay zigDir))), g)
  end.

End Zig.

(** * The minimal revision of [game.js]

    One player cube and one target cube that vanishes on touch.  The
    canvas size is an input, as above. *)

Module Minimal.

(** [target] is [null] once collected. *)
Record State : Type := mkState {
  player : Player;
  target : option Rect;
  keys : list Key }.

(** The state the script starts from. *)
Definition start : State :=
  mkState (mkPlayer 100 100 24 24 220) (Some (mkRect 420 300 24 24)) [].

Definition update (env : Env) (dt : R) (s : State) : State :=
  let p := player s in
  let dx := 0 in
  let dy := 0 in
  let dy := if has (keys s) up_key then dy - 1 else dy in
  let dy := if has (keys s) down_key then dy + 1 else dy in
  let dx := if has (keys s) left_key then dx - 1 else dx in
  let dx := if has (keys s) right_key then dx + 1 else dx in
  let '(x, y) :=
    if negb (dx =? 0) || negb (dy =? 0) then
      (* normalize diagonal *)
      let len := orElse (hypot dx dy) 1 in
      (p_x p + dx / len * p_speed p * dt, p_y p + dy / len * p_speed p * dt)
    else (p_x p, p_y p) in
  (* keep inside canvas *)
  let x := Rmax 0 (Rmin (canvas_width env - p_w p) x) in
  let y := Rmax 0 (Rmin (canvas_height env - p_h p) y) in
  let p := mkPlayer x y (p_w p) (p_h p) (p_speed p) in
  (* collision with target *)
  let target :=
    match target s with
    | Some r => if rectsOverlap (rectP p) r then None else Some r
    | None => None
    end in
  mkState p target (keys s).

End Minimal.

(** * Vocabulary of the properties *)

(** ** Observations on states and agents *)

(** The part of the state that only [update] and [restart] write. *)
Definition session (s : State) : Player * list Key * R * bool * R :=
  (player s, keys s, hp s, alive s, elapsed s).

(** [g'] reads the same sequence as [g], possibly further on. *)
Definition same_src (g g' : Rng) : Prop := src g' = src g.

(** The oracle honours the contract of [Math.random()]: values in [0, 1). *)
Definition fair (g : Rng) : Prop := forall n, 0 <= src g n < 1.

(** Position, size and velocity of an agent. *)
Definition kin (t : Target) : R * R * R * R * R * R :=
  (t_x t, t_y t, t_w t, t_h t, t_vx t, t_vy t).

Definition speed (t : Target) : R := hypot (t_vx t) (t_vy t).

(** The smoothed direction an agent remembers from its previous frame;
    zero when its AI memory is yet to be created. *)
Definition prevSteer (t : Target) : R * R :=
  match t_ai t with
  | Some a => (lastSteerX a, lastSteerY a)
  | None => (0, 0)
  end.

(** The length of the direction an agent remembers. *)
Definition steerLength (t : Target) : R :=
  hypot (fst (prevSteer t)) (snd (prevSteer t)).

(** [evolves t t']: [t'] is [t] with its AI memory created or annotated. *)
Definition evolves (t t' : Target) : Prop :=
  kin t' = kin t /\ prevSteer t' = prevSteer t
  /\ (t_ai t <> None -> t_ai t' <> None).

(** Distance from the centre of the agent to the predicted pursuer point,
    as [aiSteerBase] computes it. *)
Definition pursuerDist (p : Player) (ks : list Key) (t : Target) : R :=
  let pred := aiPredictPlayer p ks in
  orElse (hypot (pr_px pred - (t_x t + t_w t / 2))
                (pr_py pred - (t_y t + t_h t / 2))) 1.

(** The speed cap of an agent for the tick: the base maximum speed, times
    the panic multiplier when the predicted pursuer point is closer than
    150. *)
Definition speedCap (p : Player) (ks : list Key) (t : Target) : R :=
  CFG.TARGET_MAX_SPEED * panicMult (pursuerDist p ks t).

(** The reach of an agent in one frame: the boosted speed cap times the
    frame time. *)
Definition reach (dt : R) : R :=
  CFG.TARGET_MAX_SPEED * AI_CFG.PANIC_SPEED_UP * Rabs dt.

(** The agent rectangle lies inside the arena. *)
Definition inArena (env : Env) (t : Target) : Prop :=
  0 <= t_x t <= canvas_width env - t_w t
  /\ 0 <= t_y t <= canvas_height env - t_h t.

(** The agent is no larger than the arena. *)
Definition fits (env : Env) (p : Target) : Prop :=
  t_w p <= canvas_width env /\ t_h p <= canvas_height env.

(** The agent touches the player of the state. *)
Definition caught (s : State) (t : Target) : bool :=
  rectsOverlap (rectP (player s)) (rectT t).

(** The agent after the "Move" step of [aiIntegrate], before the bounds
    are applied. *)
Definition afterMove (t : Target) (s : AI) (base : Base) (dt : R) (g : Rng)
  : Target :=
  let '(s, base, _) := aiWander s base dt g in aiMove t s base dt.

(** The steering vector normalized as the code does it: by its length, or
    by 1 when the length is zero. *)
Definition unitOrZero (a b : R) : R * R :=
  (a / orElse (hypot a b) 1, b / orElse (hypot a b) 1).

(** The summed steering vector of the agent at index [i] in the tick:
    [(base.sx, base.sy)] as the "Smooth steering" block of [aiIntegrate]
    finds them, after the base steering of [updateTargetAI], the layers it
    adds to it in turn, and the wander and jitter terms.  Zero where
    [updateTargetAI] comes back early. *)
Definition steerSum (env : Env) (dt : R) (i : nat) (s : State) : R * R :=
  match nth_error (targets s) i with
  | None => (0, 0)
  | Some t0 =>
      let '(t1, g) := aiInit t0 (rng s) in
      let s := set_rng (set_targets s (setNth i t1 (targets s))) g in
      let s := aiAssignSectors s in
      let s := set_heat s (heatmapTick env (player s) (heat s)) in
      match nth_error (targets s) i with
      | None => (0, 0)
      | Some t =>
          match t_ai t with
          | None => (0, 0)
          | Some a =>
              let pred := aiPredictPlayer (player s) (keys s) in
              let base := aiSteerBase env (targets s) i t pred in
              let playerFar := b_d base >? AI_CFG.ORBIT_DIST * (9 / 10) in
              let '(base, hm) := aiHeatmapBias env (heat s) t base in
              let '(base, g) :=
                aiApplyDispersion env (targets s) i t base (rng s) in
              let base := aiSectorBias env (targets s) t a base playerFar in
              let '(a, base, g) :=
                aiApplyJuke (player s) a base pred dt g in
              let '(a, base, g) := aiApplyPatrol env t a base pred dt g in
              let '(_, base, _) := aiWander a base dt g in
              (sx base, sy base)
          end
      end
  end.

(** What [aiHeatmapBias] adds to the steering vector. *)
Definition heatContribution (env : Env) (hm : Heat) (t : Target) : R * R :=
  let base := mkBase 0 0 1 0 0 in
  let b' := fst (aiHeatmapBias env hm t base) in
  (sx b', sy b').

(** The candidate that [makeTarget] builds on attempt [k] (from 0) of a
    spawn started with the oracle at [g]: every attempt reads two values. *)
Definition attempt (env : Env) (g : Rng) (k : nat) : Target :=
  fst (makeTarget env (mkRng (src g) (pos g + 2 * k))).

(** ** The states of a session *)

(** [keys.add] and [keys.delete] of the key listeners, between frames. *)
Definition set_keys (s : State) (ks : list Key) : State :=
  mkState (player s) ks (score s) (hp s) (alive s) (elapsed s) (targets s)
          (heat s) (sect_assigned s) (rng s).

(** The states of a session on a canvas of [W] by [H]: [boot] restarts,
    then frames tick and keys go down and up. *)
Inductive reachable (W H : R) : State -> Prop :=
| reach_boot (s0 : State) (now : R) :
    fair (rng s0) -> reachable W H (restart (mkEnv W H now) s0)
| reach_tick (s : State) (dt now : R) :
    reachable W H s -> reachable W H (update (mkEnv W H now) dt s)
| reach_keys (s : State) (ks : list Key) :
    reachable W H s -> reachable W H (set_keys s ks).

(** ** The readings of the specification that the code is compared with *)

(** Heat avoidance as the specification words it: minus a central
    difference of two offset samples on each axis, scaled by the heat-bias
    constant. *)
Definition heatGradientBias (env : Env) (hm : Heat) (t : Target) : R * R :=
  let cx := t_x t + t_w t / 2 in
  let cy := t_y t + t_h t / 2 in
  let S x y := fst (heatmapSample env hm x y) in
  let gX := S (cx + 24) cy - S (cx - 24) cy in
  let gY := S cx (cy + 24) - S cx (cy - 24) in
  (- gX * AI_PROFILE.HEATMAP_BIAS, - gY * AI_PROFILE.HEATMAP_BIAS).

(** The pass as the specification words it, mark-then-compact: every agent
    is updated against the full array, in the order of the code, and only
    then the agents that touch the player are counted and removed. *)
Fixpoint updateAll (env : Env) (dt : R) (n : nat) (s : State) : State :=
  match n with
  | O => s
  | S i => updateAll env dt i (updateTargetAI env dt i s)
  end.

Definition compact (s : State) : State :=
  mkState (player s) (keys s)
          (score s + Z.of_nat (length (filter (caught s) (targets s))))%Z
          (hp s) (alive s) (elapsed s)
          (filter (fun t => negb (caught s t)) (targets s))
          (heat s) (sect_assigned s) (rng s).

Definition markThenCompact (env : Env) (dt : R) (s : State) : State :=
  compact (updateAll env dt (length (targets s)) s).

(** [update] with the pass replaced by mark-then-compact. *)
Definition capturePassDeferred (env : Env) (dt : R) (s : State) (hp' : R)
  : State :=
  let p := movePlayer env dt (player s) (keys s) in
  let s := mkState p (keys s) (score s) hp' (alive s) (elapsed s + dt)
                   (targets s) (heat s) (sect_assigned s) (rng s) in
  markThenCompact env dt s.

Definition updateDeferred (env : Env) (dt : R) (s : State) : State :=
  if negb (alive s) then
    if has (keys s) space_key then restart env s else s
  else
    let hp' := hp s - CFG.HEALTH_DECAY_PER_SEC * dt in
    let hp' := clamp hp' 0 CFG.HEALTH_MAX in
    if hp' <=? 0 then
      mkState (player s) (keys s) (score s) hp' false (elapsed s + dt)
              (targets s) (heat s) (sect_assigned s) (rng s)
    else
      refillOnClear env (capturePassDeferred env dt s hp').

(** ** Concrete sessions, for examples *)

(** The page of the game: a 640 by 480 canvas. *)
Definition env0 : Env := mkEnv 640 480 0.

(** The oracle that always answers one half, at position [n]. *)
Definition rng_at (n : nat) : Rng := mkRng (fun _ => 1 / 2) n.

Definition rng_half : Rng := rng_at 0.

(** MODULE 3 as the script leaves it before [boot]. *)
Definition player0 : Player :=
  mkPlayer 120 120 CFG.PLAYER_SIZE CFG.PLAYER_SIZE CFG.PLAYER_SPEED.

Definition heat0 : Heat := mkHeat None 0 0 0 0.

Definition state0 : State :=
  mkState player0 [] 0 CFG.HEALTH_MAX true 0 [] heat0 false rng_half.

(** An agent at rest in the middle of the canvas. *)
Definition target0 : Target := mkTarget 308 228 24 24 0 0 None.

(** The first wave: one agent, as [boot] leaves the session when the
    oracle answers one half. *)
Definition state1 : State :=
  mkState player0 [] 0 CFG.HEALTH_MAX true 0 [target0] heat0 false
          (rng_at 2).

(** A session that is over: health at zero, one agent left. *)
Definition state_over : State :=
  mkState player0 [] 3 0 false 42 [target0] heat0 true rng_half.

(** A wave of one agent that the player stands on, a hundredth of a second
    before it is collected. *)
Definition target_caught : Target := mkTarget 120 120 24 24 0 0 None.

Definition state_caught : State :=
  mkState player0 [] 0 50 true 45 [target_caught] heat0 false rng_half.

(** AI memory of an agent that has been around: wander timer at 1, heading
    to the right, nothing else going on. *)
Definition ai_rest : AI := mkAI 1 0 0 0 0 0 0 0 0 0 0 0 None.

(** An agent one pixel from the left wall, moving left at 100, whose
    steering sums to zero so that the frame leaves its velocity alone. *)
Definition target_left : Target :=
  mkTarget 1 228 24 24 (-100) 0 (Some ai_rest).

Definition base_left : Base := mkBase (- (35 / 100)) 0 200 13 240.

(** An agent at rest on its first frame, steered straight to the right. *)
Definition ai_fresh : AI := mkAI (1 / 2) 0 0 0 0 0 0 0 0 0 0 0 None.

Definition base_right : Base := mkBase 1 0 300 320 240.

(** The field after the first tick of a session: 8 by 6 cells, cold but
    for the cell of the player at its starting place (column 1 of row 1),
    which holds one stamp as the grid stores it. *)
Definition heat_first : Heat :=
  mkHeat (Some (repeat 0 9 ++ (5452595 / 2097152) :: repeat 0 38))
         8 6 640 480.

(** An agent in the cell of the player and to its left, clear of it: its
    centre is at (92, 120), the centre of the player at (132, 132). *)
Definition t_early : Target := mkTarget 80 108 24 24 0 0 None.

(** A field that is equally warm everywhere: its gradient is zero. *)
Definition heat_warm : Heat := mkHeat (Some (repeat 1 48)) 8 6 640 480.

(** ** A scene with two agents, one of them on the player *)

(** The frame lasts a hundredth of a second. *)
Definition dt_c : R := 1 / 100.

(** The player, centred at (280, 200). *)
Definition player_c : Player := mkPlayer 268 188 24 24 240.

(** The agent on the player, heading up. *)
Definition ai_up : AI := mkAI 1 (PI / 2) 0 0 0 0 0 0 0 0 0 0 None.

Definition t_on : Target := mkTarget 268 188 24 24 0 0 (Some ai_up).

(** The agent 60 below the player. *)
Definition t_near : Target := mkTarget 268 248 24 24 0 0 (Some ai_rest).

(** The field of 8 by 6 cells, cold but for the cell of the player (column
    3 of row 2), which holds [h]. *)
Definition heat_at (h : R) : Heat :=
  mkHeat (Some (repeat 0 19 ++ h :: repeat 0 28)) 8 6 640 480.

(** The heat of the cell under the player after a tick that found it at
    [h]: decayed and stored, then stamped and stored. *)
Definition heatNext (h : R) : R :=
  fround (fround (h * AI_PROFILE.HEATMAP_DECAY)
          + AI_PROFILE.HEATMAP_PLAYER_STAMP).

(** No key is held: the predicted point is the centre of the player. *)
Definition pred_c : Pred := mkPred 280 200 0 0 0.

(** The scene: the player with no key held and the agents [ts], with the
    heat of the player's cell at [h] and the oracle at [n]. *)
Definition state_c (hpv el h : R) (sc : Z) (ts : list Target) (n : nat)
  : State :=
  mkState player_c [] sc hpv true el ts (heat_at h) true (rng_at n).

(** The scene at the start of the frame. *)
Definition state_pair : State := state_c 100 31 0 0 [t_near; t_on] 0.

(** The agent on the player after its frame: it has moved up by 0.024 and
    still touches the player. *)
Definition ai_up' : AI :=
  mkAI (1 - 1 / 100) (PI / 2) 0 (- (4 / 10)) 0 0 0 0 0 0 0 0 None.

Definition t_on' : Target :=
  mkTarget 268 (188 - 24 / 1000) 24 24 0 (- (24 / 10)) (Some ai_up').

(** What the frame makes of the agent below the player, as a function of
    the vertical steering [syb] it is given; its horizontal steering is
    [-85/130] plus the [0.35] of the wander. *)
Definition wanderedX : R := - (85 / 130) + 35 / 100.

Definition t_near_after (syb : R) : Target :=
  let sl := hypot wanderedX syb in
  let ax := wanderedX / sl * (4 / 10) in
  let ay := syb / sl * (4 / 10) in
  mkTarget (268 + ax * 6 * (1 / 100)) (248 + ay * 6 * (1 / 100)) 24 24
           (ax * 6) (ay * 6)
           (Some (mkAI (1 - 1 / 100) 0 ax ay 0 0 0 0 0 0 0 0 None)).

(** ** Further observations, and the data of further examples *)

(** The health that the drain of a tick leaves. *)
Definition drained (s : State) (dt : R) : R :=
  clamp (hp s - CFG.HEALTH_DECAY_PER_SEC * dt) 0 CFG.HEALTH_MAX.

(** One agent in the middle of the canvas, a hundredth of a second before
    the cap goes from 1 to 2. *)
Definition state_late : State :=
  mkState player0 [] 0 CFG.HEALTH_MAX true (2999 / 100 + 5 / 1000) [target0]
          heat0 false (rng_at 2).

(** A session that is over, with the space bar held. *)
Definition state_again : State :=
  mkState player0 [space_key] 3 0 false 42 [target0] heat0 true rng_half.

(** The sector index an agent carries, if any. *)
Definition sectorOf (t : Target) : option nat :=
  match t_ai t with
  | Some a => sectorIndex a
  | None => None
  end.

(** The agent carries sector index 0, or none. *)
Definition oneSector (t : Target) : Prop :=
  sectorOf t = None \/ sectorOf t = Some 0%nat.

(** What a session keeps true of its sectors: until they are assigned the
    array holds the single agent of the first wave, and no agent carries
    an index other than 0. *)
Definition sectorInv (s : State) : Prop :=
  (sect_assigned s = false -> length (targets s) = 1%nat)
  /\ Forall oneSector (targets s).

(** The heat field is laid out for the canvas of [env]: a grid of
    [cols * rows] cells, at least one each way. *)
Definition heatReady (env : Env) (hm : Heat) : Prop :=
  exists g, grid hm = Some g
            /\ (1 <= cols hm)%Z /\ (1 <= rows hm)%Z
            /\ Z.of_nat (length g) = (cols hm * rows hm)%Z
            /\ lastW hm = canvas_width env /\ lastH hm = canvas_height env.

(** The cells of the heat field; none before it is laid out. *)
Definition heatCells (hm : Heat) : list R :=
  match grid hm with
  | Some g => g
  | None => []
  end.

(** A ceiling of the heat of a cell: the binary32 value 43.5, the next
    half above [stamp / (1 - decay) = 43.33...], the heat at which one decay
    takes away what one stamp adds. *)
Definition heatLimit : R := 87 / 2.

(** The distance between the centres of two agents. *)
Definition centreDist (t o : Target) : R :=
  hypot (t_x t + t_w t / 2 - (t_x o + t_w o / 2))
        (t_y t + t_h t / 2 - (t_y o + t_h o / 2)).

(** Every other agent of the array has its centre at least [r] away from
    the centre of [t], the agent at index [i]. *)
Definition alone (ts : list Target) (i : nat) (t : Target) (r : R) : Prop :=
  forall j o, nth_error ts j = Some o -> j <> i -> r <= centreDist t o.

(** The agent keeps at least [m] between itself and every wall. *)
Definition awayFromWalls (env : Env) (t : Target) (m : R) : Prop :=
  m <= t_x t <= canvas_width env - t_w t - m
  /\ m <= t_y t <= canvas_height env - t_h t - m.

(** The cosine that [aiApplyJuke] compares with its trigger: between the
    direction from the pursuer to the agent and the heading of the
    pursuer. *)
Definition jukeBearing (p : Player) (base : Base) (pred : Pred) : R :=
  let toTX := b_cx base - (p_x p + p_w p / 2) in
  let toTY := b_cy base - (p_y p + p_h p / 2) in
  let toTL := orElse (hypot toTX toTY) 1 in
  let nhx := pr_hx pred / orElse (hypot (pr_hx pred) (pr_hy pred)) 1 in
  let nhy := pr_hy pred / orElse (hypot (pr_hx pred) (pr_hy pred)) 1 in
  (toTX / toTL) * nhx + (toTY / toTL) * nhy.

(** The pursuer of [player0] heading right, and the steering of an agent
    100 to its right. *)
Definition pred_right : Pred := mkPred (132 + 528 / 10) 132 1 0 1.

Definition base_close : Base := mkBase 0 0 (100 - 528 / 10) 232 132.

(** The steering of an agent on the left wall whose pursuer is far. *)
Definition base_far : Base := mkBase 0 0 300 13 240.

(** An agent 200 below [target_left], on the left wall as well. *)
Definition target_below : Target := mkTarget 1 428 24 24 0 0 None.

(** The player rectangle lies on the canvas. *)
Definition onCanvas (env : Env) (p : Player) : Prop :=
  0 <= p_x p <= canvas_width env - p_w p
  /\ 0 <= p_y p <= canvas_height env - p_h p.

(** The agent rectangle lies inside the canvas of the first revision. *)
Definition Rev1_inArena (t : Rev1.Target) : Prop :=
  0 <= Rev1.x t <= Rev1.CFG.CANVAS_W - Rev1.w t
  /\ 0 <= Rev1.y t <= Rev1.CFG.CANVAS_H - Rev1.h t.

(** A session of the first revision before [boot]. *)
Definition Rev1_state0 : Rev1.State :=
  Rev1.mkState (mkPlayer 120 120 24 24 150) [] 0 [] rng_half.

(** The distance from the agent to the player that the first revision
    measures, centre to centre; 1 when the centres coincide. *)
Definition Rev1_dist (p : Player) (t : Rev1.Target) : R :=
  len (p_x p + p_w p / 2 - (Rev1.x t + Rev1.w t / 2))
      (p_y p + p_h p / 2 - (Rev1.y t + Rev1.h t / 2)).

(** An agent of the first revision as it is spawned, next to the player
    of [Rev1_state0]. *)
Definition Rev1_target_near : Rev1.Target := Rev1.newTarget 160 120.

(** The zig direction is there whenever a zig is running. *)
Definition Zig_ready (t : Zig.Target) : Prop :=
  forall m, Zig.mem t = Some m -> 0 < Zig.zigTime m -> Zig.zigDir m <> None.

(** The agent rectangle lies inside the arena. *)
Definition Zig_inArena (env : Env) (t : Zig.Target) : Prop :=
  0 <= Zig.x t <= canvas_width env - Zig.w t
  /\ 0 <= Zig.y t <= canvas_height env - Zig.h t.

(** An agent of the zig revision as it is spawned. *)
Definition Zig_target0 : Zig.Target := Zig.mkTarget 308 228 24 24 0 0 None.

(** * Properties *)

(** ** Comparisons and lengths *)

Section Primitives.

Lemma Rltb_true (a b : R) : a < b -> (a <? b) = true.
Proof. intros H; unfold Rltb; destruct (Rlt_dec a b); [reflexivity | lra]. Qed.

Lemma Rltb_false (a b : R) : b <= a -> (a <? b) = false.
Proof. intros H; unfold Rltb; destruct (Rlt_dec a b); [lra | reflexivity]. Qed.

Lemma Rltb_lt (a b : R) : (a <? b) = true <-> a < b.
Proof. unfold Rltb; destruct (Rlt_dec a b); split; intros; try easy. Qed.

Lemma Rltb_ge (a b : R) : (a <? b) = false <-> b <= a.
Proof.
  unfold Rltb; destruct (Rlt_dec a b); split; intros; try easy; lra.
Qed.

Lemma Rleb_true (a b : R) : a <= b -> (a <=? b) = true.
Proof. intros H; unfold Rleb; destruct (Rle_dec a b); [reflexivity | lra]. Qed.

Lemma Rleb_false (a b : R) : b < a -> (a <=? b) = false.
Proof. intros H; unfold Rleb; destruct (Rle_dec a b); [lra | reflexivity]. Qed.

Lemma Reqb_true (a b : R) : a = b -> (a =? b) = true.
Proof.
  intros H; unfold Reqb; destruct (Req_dec_T a b); [reflexivity | easy].
Qed.

Lemma Reqb_false (a b : R) : a <> b -> (a =? b) = false.
Proof.
  intros H; unfold Reqb; destruct (Req_dec_T a b); [easy | reflexivity].
Qed.

Lemma orElse_zero (d : R) : orElse 0 d = d.
Proof. unfold orElse; now rewrite Reqb_true. Qed.

Lemma orElse_nonzero (a d : R) : a <> 0 -> orElse a d = a.
Proof. intros H; unfold orElse; now rewrite Reqb_false. Qed.

Lemma hypot_nonneg (a b : R) : 0 <= hypot a b.
Proof. apply sqrt_pos. Qed.

Lemma hypot_sqr (a b : R) : hypot a b * hypot a b = a * a + b * b.
Proof. unfold hypot; apply sqrt_sqrt; nra. Qed.

Lemma hypot_zero : hypot 0 0 = 0.
Proof. unfold hypot; replace (0 * 0 + 0 * 0) with 0 by ring; apply sqrt_0. Qed.

Lemma hypot_eq_zero (a b : R) : hypot a b = 0 -> a = 0 /\ b = 0.
Proof.
  intros H; pose proof (hypot_sqr a b) as E; rewrite H in E.
  split; nra.
Qed.

(** A bound on the square bounds the length. *)
Lemma hypot_le (a b m : R) : 0 <= m -> a * a + b * b <= m * m -> hypot a b <= m.
Proof.
  intros Hm H; unfold hypot.
  rewrite <- (sqrt_square m Hm); apply sqrt_le_1_alt; exact H.
Qed.

Lemma hypot_mono (a b c d : R) :
  Rabs a <= Rabs c -> Rabs b <= Rabs d -> hypot a b <= hypot c d.
Proof.
  intros Ha Hb; unfold hypot; apply sqrt_le_1_alt.
  apply Rsqr_le_abs_1 in Ha, Hb; unfold Rsqr in *; lra.
Qed.

Lemma hypot_scale (k a b : R) : 0 <= k -> hypot (a * k) (b * k) = hypot a b * k.
Proof.
  intros Hk; unfold hypot.
  replace (a * k * (a * k) + b * k * (b * k)) with ((a * a + b * b) * (k * k)) by ring.
  rewrite sqrt_mult_alt by nra. now rewrite (sqrt_square k Hk).
Qed.

(** The divisor [Math.hypot(a, b) || 1] is never zero. *)
Lemma len_pos (a b : R) : 0 < len a b.
Proof.
  unfold len, orElse, Reqb.
  destruct (Req_dec_T (hypot a b) 0) as [E | N]; [lra |].
  pose proof (hypot_nonneg a b); lra.
Qed.

Lemma len_hypot (a b : R) : hypot a b <> 0 -> len a b = hypot a b.
Proof. intros H; unfold len; now apply orElse_nonzero. Qed.

(** Dividing a vector by [len] leaves it with length one, unless it is
    the zero vector. *)
Lemma hypot_div_len (a b : R) :
  hypot a b <> 0 -> hypot (a / len a b) (b / len a b) = 1.
Proof.
  intros H; rewrite (len_hypot _ _ H).
  pose proof (hypot_nonneg a b) as Hp.
  unfold Rdiv; rewrite hypot_scale.
  - now apply Rinv_r.
  - left; apply Rinv_0_lt_compat; lra.
Qed.

End Primitives.

(** ** The store into a [Float32Array] *)

Lemma pow2_pos (e : Z) : 0 < powerRZ 2 e.
Proof. apply powerRZ_lt; lra. Qed.

Lemma pow2_add (a b : Z) : powerRZ 2 (a + b) = powerRZ 2 a * powerRZ 2 b.
Proof. apply powerRZ_add; lra. Qed.

Lemma pow2_le (a b : Z) : (a <= b)%Z -> powerRZ 2 a <= powerRZ 2 b.
Proof.
  intros H. replace b with (a + Z.of_nat (Z.to_nat (b - a)))%Z by lia.
  rewrite pow2_add, <- pow_powerRZ.
  pose proof (pow2_pos a). pose proof (pow_R1_Rle 2 (Z.to_nat (b - a))).
  nra.
Qed.

Lemma pow2_inv (a b : Z) : powerRZ 2 (a - b) * powerRZ 2 (b - a) = 1.
Proof.
  rewrite <- pow2_add. replace (a - b + (b - a))%Z with 0%Z by lia.
  reflexivity.
Qed.

Lemma rne_cases (x : R) :
  (rne x = Zfloor x /\ x - IZR (Zfloor x) <= 1 / 2)
  \/ (rne x = (Zfloor x + 1)%Z /\ 1 / 2 <= x - IZR (Zfloor x)).
Proof.
  unfold rne. cbv zeta. unfold Rltb.
  destruct (Rlt_dec _ _); [left; split; [reflexivity | lra] |].
  destruct (Rlt_dec _ _); [right; split; [reflexivity | lra] |].
  destruct (Z.even _); [left | right]; split; try reflexivity; lra.
Qed.

Lemma rne_IZR (n : Z) : rne (IZR n) = n.
Proof.
  unfold rne. cbv zeta. rewrite (Zfloor_eq n) by lra.
  rewrite Rltb_true by lra. reflexivity.
Qed.

Lemma rne_near (x : R) (n : Z) :
  IZR n <= x < IZR n + 1 / 2 -> rne x = n.
Proof.
  intros H. unfold rne. cbv zeta. rewrite (Zfloor_eq n) by lra.
  rewrite Rltb_true by lra. reflexivity.
Qed.

Lemma rne_mono (x y : R) : x <= y -> (rne x <= rne y)%Z.
Proof.
  intros H.
  pose proof (Zfloor_bound x) as [Bx1 Bx2].
  pose proof (Zfloor_bound y) as [By1 By2].
  assert (F : (Zfloor x <= Zfloor y)%Z).
  { apply Z.lt_succ_r. apply lt_IZR. rewrite succ_IZR. lra. }
  destruct (Z.eq_dec (Zfloor x) (Zfloor y)) as [E | N].
  - unfold rne. cbv zeta. rewrite E. unfold Rltb.
    repeat destruct (Rlt_dec _ _); try lia; try lra;
      destruct (Z.even (Zfloor y)); lia.
  - destruct (rne_cases x) as [[-> _] | [-> _]],
      (rne_cases y) as [[-> _] | [-> _]]; lia.
Qed.

Lemma f32Scan_spec (m : R) (n : nat) (e : Z) :
  let r := f32Scan m e n in
  (e - Z.of_nat n <= r <= e)%Z
  /\ ((e - Z.of_nat n < r)%Z -> powerRZ 2 r <= m)
  /\ ((r < e)%Z -> m < powerRZ 2 (r + 1)).
Proof.
  revert e. induction n as [| n IH]; intros e; cbn [f32Scan]; cbv zeta.
  - split; [lia |]. split; intros; lia.
  - unfold Rleb. destruct (Rle_dec (powerRZ 2 e) m) as [L | L].
    + split; [lia |]. split; [auto | lia].
    + specialize (IH (e - 1)%Z). cbv zeta in IH.
      destruct IH as (B & Lo & Hi).
      split; [lia |]. split.
      * intros H. apply Lo. lia.
      * intros _. destruct (Z.eq_dec (f32Scan m (e - 1) n) (e - 1)) as [E | N].
        -- rewrite E. replace (e - 1 + 1)%Z with e by lia. lra.
        -- apply Hi. lia.
Qed.

Lemma f32Exp_spec (x : R) :
  (-126 <= f32Exp x <= 127)%Z
  /\ ((-126 < f32Exp x)%Z -> powerRZ 2 (f32Exp x) <= Rabs x)
  /\ ((f32Exp x < 127)%Z -> Rabs x < powerRZ 2 (f32Exp x + 1)).
Proof.
  unfold f32Exp. pose proof (f32Scan_spec (Rabs x) 253 127) as H.
  cbv zeta in H. exact H.
Qed.

Lemma f32Exp_eq (x : R) (e : Z) :
  (-126 <= e <= 127)%Z ->
  ((-126 < e)%Z -> powerRZ 2 e <= Rabs x) ->
  ((e < 127)%Z -> Rabs x < powerRZ 2 (e + 1)) ->
  f32Exp x = e.
Proof.
  intros B Lo Hi. destruct (f32Exp_spec x) as (B' & Lo' & Hi').
  destruct (Z.lt_trichotomy (f32Exp x) e) as [L | [E | G]]; [| exact E |].
  - pose proof (pow2_le (f32Exp x + 1) e ltac:(lia)).
    specialize (Lo ltac:(lia)). specialize (Hi' ltac:(lia)). lra.
  - pose proof (pow2_le (e + 1) (f32Exp x) ltac:(lia)).
    specialize (Lo' ltac:(lia)). specialize (Hi ltac:(lia)). lra.
Qed.

Lemma f32Exp_mono (x y : R) : 0 <= x <= y -> (f32Exp x <= f32Exp y)%Z.
Proof.
  intros H. destruct (f32Exp_spec x) as (Bx & Lx & Hx).
  destruct (f32Exp_spec y) as (By & Ly & Hy).
  rewrite Rabs_pos_eq in * by lra.
  destruct (Z_le_gt_dec (f32Exp x) (f32Exp y)) as [L | G]; [exact L |].
  pose proof (pow2_le (f32Exp y + 1) (f32Exp x) ltac:(lia)).
  specialize (Lx ltac:(lia)). specialize (Hy ltac:(lia)). lra.
Qed.

Lemma fround_exact (x : R) (e n : Z) :
  f32Exp x = e -> x * powerRZ 2 (23 - e) = IZR n -> fround x = x.
Proof.
  intros E N. unfold fround. cbv zeta. rewrite E, N, rne_IZR, <- N.
  rewrite Rmult_assoc, pow2_inv. ring.
Qed.

Lemma fround_zero : fround 0 = 0.
Proof.
  apply (fround_exact 0 (-126) 0).
  - apply f32Exp_eq; [lia | lia |].
    intros _. rewrite Rabs_R0. apply pow2_pos.
  - ring.
Qed.

(** Within the range of a binade the rounded value stays in it. *)
Lemma fround_binade (x : R) :
  0 <= x ->
  ((-126 < f32Exp x)%Z -> powerRZ 2 (f32Exp x) <= fround x)
  /\ ((f32Exp x < 127)%Z -> fround x <= powerRZ 2 (f32Exp x + 1))
  /\ 0 <= fround x.
Proof.
  intros P. destruct (f32Exp_spec x) as (B & Lo & Hi).
  rewrite Rabs_pos_eq in * by lra.
  unfold fround. cbv zeta. set (e := f32Exp x) in *.
  pose proof (pow2_pos (23 - e)) as S1. pose proof (pow2_pos (e - 23)) as S2.
  split; [| split].
  - intros G. specialize (Lo G).
    assert (M : IZR (2 ^ 23) <= x * powerRZ 2 (23 - e)).
    { replace (IZR (2 ^ 23)) with (powerRZ 2 e * powerRZ 2 (23 - e)).
      - apply Rmult_le_compat_r; lra.
      - rewrite <- pow2_add. replace (e + (23 - e))%Z with 23%Z by lia.
        simpl. lra. }
    apply rne_mono in M. rewrite rne_IZR in M. apply IZR_le in M.
    replace (powerRZ 2 e) with (IZR (2 ^ 23) * powerRZ 2 (e - 23)).
    + apply Rmult_le_compat_r; lra.
    + replace (IZR (2 ^ 23)) with (powerRZ 2 23) by (simpl; lra).
      rewrite <- pow2_add. f_equal. lia.
  - intros G. specialize (Hi G).
    assert (M : x * powerRZ 2 (23 - e) <= IZR (2 ^ 24)).
    { replace (IZR (2 ^ 24)) with (powerRZ 2 (e + 1) * powerRZ 2 (23 - e)).
      - apply Rmult_le_compat_r; lra.
      - rewrite <- pow2_add. replace (e + 1 + (23 - e))%Z with 24%Z by lia.
        simpl. lra. }
    apply rne_mono in M. rewrite rne_IZR in M. apply IZR_le in M.
    replace (powerRZ 2 (e + 1)) with (IZR (2 ^ 24) * powerRZ 2 (e - 23)).
    + apply Rmult_le_compat_r; lra.
    + replace (IZR (2 ^ 24)) with (powerRZ 2 24) by (simpl; lra).
      rewrite <- pow2_add. f_equal. lia.
  - assert (M : IZR 0 <= x * powerRZ 2 (23 - e))
      by (apply Rmult_le_pos; lra).
    apply rne_mono in M. rewrite rne_IZR in M. apply IZR_le in M.
    apply Rmult_le_pos; lra.
Qed.

(** Rounding keeps the order of the numbers that are not negative. *)
Lemma fround_mono (x y : R) : 0 <= x <= y -> fround x <= fround y.
Proof.
  intros H. pose proof (f32Exp_mono x y H) as E.
  destruct (Z.eq_dec (f32Exp x) (f32Exp y)) as [Q | N].
  - unfold fround. cbv zeta. rewrite Q.
    pose proof (pow2_pos (23 - f32Exp y)).
    pose proof (pow2_pos (f32Exp y - 23)).
    apply Rmult_le_compat_r; [lra |]. apply IZR_le, rne_mono.
    apply Rmult_le_compat_r; lra.
  - destruct (f32Exp_spec x) as (Bx & _), (f32Exp_spec y) as (By & _).
    destruct (fround_binade x ltac:(lra)) as (_ & Hx & _).
    destruct (fround_binade y ltac:(lra)) as (Hy & _ & _).
    specialize (Hx ltac:(lia)). specialize (Hy ltac:(lia)).
    pose proof (pow2_le (f32Exp x + 1) (f32Exp y) ltac:(lia)). lra.
Qed.

Lemma f32Exp_at (x : R) (e : Z) :
  (-126 < e < 127)%Z -> powerRZ 2 e <= x < powerRZ 2 (e + 1) ->
  f32Exp x = e.
Proof.
  intros B H. pose proof (pow2_pos e).
  apply f32Exp_eq; [lia | |]; intros _; rewrite Rabs_pos_eq; lra.
Qed.

Lemma fround_ceiling : fround (87 / 2) = 87 / 2.
Proof.
  apply (fround_exact _ 5 11403264).
  - apply f32Exp_at; [lia | simpl; lra].
  - simpl. lra.
Qed.

Lemma fround_decayed : fround (2617 / 64) = 2617 / 64.
Proof.
  apply (fround_exact _ 5 10719232).
  - apply f32Exp_at; [lia | simpl; lra].
  - simpl. lra.
Qed.

Lemma fround_stamp : fround (26 / 10) = 5452595 / 2097152.
Proof.
  unfold fround. cbv zeta.
  rewrite (f32Exp_at (26 / 10) 1) by (try lia; simpl; lra).
  rewrite (rne_near _ 10905190) by (simpl; lra).
  simpl. lra.
Qed.

(** ** Vector normalization *)

(** C6.  Normalization never divides by zero: its divisor [len x y] is
    positive for every vector, being the Euclidean length when that is not
    zero and 1 when it is; so the zero vector is normalized to the zero
    vector, and every other vector to one of length 1. *)
Theorem norm_never_divides_by_zero (a b : R) :
  0 < len a b
  /\ norm a b = (a / len a b, b / len a b)
  /\ len 0 0 = 1
  /\ norm 0 0 = (0, 0)
  /\ (hypot a b = 0 -> norm a b = (0, 0))
  /\ (hypot a b <> 0 ->
      len a b = hypot a b /\ hypot (fst (norm a b)) (snd (norm a b)) = 1).
Proof.
  assert (L0 : len 0 0 = 1) by (unfold len; rewrite hypot_zero; apply orElse_zero).
  assert (N0 : norm 0 0 = (0, 0)).
  { unfold norm; rewrite L0; f_equal; field. }
  repeat split.
  - apply len_pos.
  - exact L0.
  - exact N0.
  - intros H; destruct (hypot_eq_zero _ _ H) as [-> ->]; exact N0.
  - now apply len_hypot.
  - now apply hypot_div_len.
Qed.

(** ** What the loops leave alone *)

Ltac split_lets :=
  repeat match goal with
         | |- context [let '(_, _) := ?e in _] => destruct e eqn:?
         end.

Section Frames.

Variable env : Env.

Lemma push_spawn_session (s : State) :
  session (push_spawn env s) = session s.
Proof. unfold push_spawn; split_lets; reflexivity. Qed.

Lemma push_spawn_score (s : State) : score (push_spawn env s) = score s.
Proof. unfold push_spawn; split_lets; reflexivity. Qed.

Lemma push_spawn_targets (s : State) :
  targets (push_spawn env s)
  = targets s ++ [fst (spawnAvoidingPlayer env (player s) (rng s))].
Proof. unfold push_spawn; split_lets; reflexivity. Qed.

(** Whatever holds before the [while] loop and is kept by one push holds
    after it. *)
Lemma spawnToCap_invariant (Q : State -> Prop) (cap : Z) :
  (forall s, Q s -> Q (push_spawn env s)) ->
  forall s, Q s -> Q (spawnToCap env cap s).
Proof.
  intros Hstep s.
  funelim (spawnToCap env cap s); intros HQ.
  - apply H; [exact Hstep | now apply Hstep].
  - exact HQ.
Qed.

Lemma spawnToCap_session (cap : Z) (s : State) :
  session (spawnToCap env cap s) = session s.
Proof.
  apply (spawnToCap_invariant (fun s' => session s' = session s)); [| reflexivity].
  intros s' H; now rewrite push_spawn_session.
Qed.

Lemma spawnToCap_score (cap : Z) (s : State) :
  score (spawnToCap env cap s) = score s.
Proof.
  apply (spawnToCap_invariant (fun s' => score s' = score s)); [| reflexivity].
  intros s' H; now rewrite push_spawn_score.
Qed.

(** The loop ends, and it ends with its condition false: the array is at
    the cap when it started at or below it. *)
Lemma spawnToCap_length (cap : Z) (s : State) :
  (Z.of_nat (length (targets s)) <= cap)%Z ->
  Z.of_nat (length (targets (spawnToCap env cap s))) = cap.
Proof.
  funelim (spawnToCap env cap s); intros Hle.
  - apply H. rewrite push_spawn_targets, length_app. simpl. lia.
  - lia.
Qed.

Lemma spawnToCap_full (cap : Z) (s : State) :
  (cap <= Z.of_nat (length (targets s)))%Z -> spawnToCap env cap s = s.
Proof.
  intros Hle; funelim (spawnToCap env cap s).
  - lia.
  - reflexivity.
Qed.

End Frames.

(** ** The oracle is only ever advanced *)

Section Oracle.

Lemma random_src (g : Rng) : same_src g (snd (random g)).
Proof. reflexivity. Qed.

Lemma makeTarget_src (env : Env) (g : Rng) :
  same_src g (snd (makeTarget env g)).
Proof. reflexivity. Qed.

Lemma spawnAttempts_src (n : nat) (env : Env) (p : Player) (g : Rng) :
  same_src g (snd (spawnAttempts n env p g)).
Proof.
  revert g; induction n as [| n IH]; intros g; simpl; [reflexivity |].
  destruct (negb _); [reflexivity |].
  unfold same_src in *. now rewrite IH.
Qed.

Lemma aiInit_src (t : Target) (g : Rng) : same_src g (snd (aiInit t g)).
Proof. unfold aiInit; destruct (t_ai t); reflexivity. Qed.

Lemma assignFrom_src (i : nat) (ts : list Target) (g : Rng) :
  same_src g (snd (assignFrom i ts g)).
Proof.
  revert i g; induction ts as [| t ts IH]; intros i g; simpl; [reflexivity |].
  destruct (aiInit t g) as [t1 g1] eqn:E1.
  destruct (assignFrom (S i) ts g1) as [rest g2] eqn:E2. simpl.
  pose proof (aiInit_src t g) as H1; rewrite E1 in H1.
  pose proof (IH (S i) g1) as H2; rewrite E2 in H2.
  unfold same_src in *; simpl in *; congruence.
Qed.

Lemma dispStep_src (env : Env) (i : nat) (cx cy ex ey : R) (ne : bool)
  (acc : R * R * R * Rng) (jo : nat * Target) :
  same_src (snd acc) (snd (dispStep env i cx cy ex ey ne acc jo)).
Proof.
  destruct acc as [[[tp spx] spy] g], jo as [j o]; unfold dispStep.
  destruct (Nat.eqb j i); [reflexivity |].
  destruct (_ <? _); destruct (_ && _); try reflexivity;
    destruct (_ =? _); reflexivity.
Qed.

Lemma dispLoop_src (env : Env) (i : nat) (cx cy ex ey : R) (ne : bool)
  (l : list (nat * Target)) (acc : R * R * R * Rng) :
  same_src (snd acc) (snd (fold_left (dispStep env i cx cy ex ey ne) l acc)).
Proof.
  revert acc; induction l as [| jo l IH]; intros acc; simpl; [reflexivity |].
  pose proof (dispStep_src env i cx cy ex ey ne acc jo) as H1.
  pose proof (IH (dispStep env i cx cy ex ey ne acc jo)) as H2.
  unfold same_src in *; congruence.
Qed.

Lemma aiApplyDispersion_src (env : Env) (ts : list Target) (i : nat)
  (t : Target) (base : Base) (g : Rng) :
  same_src g (snd (aiApplyDispersion env ts i t base g)).
Proof.
  unfold aiApplyDispersion.
  destruct (negb _); [reflexivity |].
  destruct (_ || _);
    match goal with
    | |- context [fold_left (dispStep ?e ?j ?cx ?cy ?ex ?ey ?ne) ?l ?acc] =>
        pose proof (dispLoop_src e j cx cy ex ey ne l acc) as H;
        destruct (fold_left (dispStep e j cx cy ex ey ne) l acc)
          as [[[tp spx] spy] g']
    end; exact H.
Qed.

Lemma aiApplyJuke_src (p : Player) (a : AI) (base : Base) (pred : Pred)
  (dt : R) (g : Rng) :
  same_src g (snd (aiApplyJuke p a base pred dt g)).
Proof.
  unfold aiApplyJuke.
  repeat match goal with
         | |- context [if ?c then _ else _] => destruct c
         end; reflexivity.
Qed.

Lemma aiApplyPatrol_src (env : Env) (t : Target) (a : AI) (base : Base)
  (pred : Pred) (dt : R) (g : Rng) :
  same_src g (snd (aiApplyPatrol env t a base pred dt g)).
Proof.
  unfold aiApplyPatrol.
  repeat match goal with
         | |- context [if ?c then _ else _] => destruct c
         end; reflexivity.
Qed.

Lemma aiWander_src (a : AI) (base : Base) (dt : R) (g : Rng) :
  same_src g (snd (aiWander a base dt g)).
Proof.
  unfold aiWander.
  repeat match goal with
         | |- context [if ?c then _ else _] => destruct c
         end; reflexivity.
Qed.

Lemma aiIntegrate_src (env : Env) (t : Target) (a : AI) (base : Base)
  (dt : R) (g : Rng) :
  same_src g (snd (aiIntegrate env t a base dt g)).
Proof.
  unfold aiIntegrate.
  pose proof (aiWander_src a base dt g) as H.
  destruct (aiWander a base dt g) as [[a' b'] g']; exact H.
Qed.

End Oracle.

(** ** What one agent update does to the array *)

Ltac split_ifs :=
  repeat match goal with
         | |- context [if ?c then _ else _] => destruct c
         end.

Section AgentUpdate.

Variable env : Env.

Lemma evolves_refl (t : Target) : evolves t t.
Proof. repeat split; auto. Qed.

Lemma evolves_trans (t1 t2 t3 : Target) :
  evolves t1 t2 -> evolves t2 t3 -> evolves t1 t3.
Proof.
  intros (K1 & P1 & A1) (K2 & P2 & A2); repeat split; try congruence; auto.
Qed.

Lemma aiInit_evolves (t : Target) (g : Rng) :
  evolves t (fst (aiInit t g)) /\ t_ai (fst (aiInit t g)) <> None.
Proof.
  unfold aiInit, evolves, prevSteer, kin.
  destruct (t_ai t) as [a |] eqn:E; simpl.
  - rewrite E; repeat split; congruence.
  - repeat split; congruence.
Qed.

Lemma assignFrom_evolves (i : nat) (ts : list Target) (g : Rng) :
  Forall2 evolves ts (fst (assignFrom i ts g)).
Proof.
  revert i g; induction ts as [| t ts IH]; intros i g; simpl; [constructor |].
  destruct (aiInit_evolves t g) as [He Hs].
  destruct (aiInit t g) as [t1 g1]; simpl in *.
  specialize (IH (S i) g1).
  destruct (assignFrom (S i) ts g1) as [rest g2]; simpl in *.
  constructor; [| exact IH].
  destruct (t_ai t1) as [a |] eqn:E; [| exact He].
  eapply evolves_trans; [exact He |].
  unfold evolves, prevSteer, kin; simpl; rewrite E; repeat split; congruence.
Qed.

Lemma aiAssignSectors_evolves (s : State) :
  Forall2 evolves (targets s) (targets (aiAssignSectors s)).
Proof.
  unfold aiAssignSectors. destruct (sect_assigned s).
  - clear; induction (targets s); constructor; auto using evolves_refl.
  - pose proof (assignFrom_evolves 0 (targets s) (rng s)) as H.
    destruct (assignFrom 0 (targets s) (rng s)); exact H.
Qed.

Lemma aiAssignSectors_frame (s : State) :
  session (aiAssignSectors s) = session s
  /\ score (aiAssignSectors s) = score s
  /\ heat (aiAssignSectors s) = heat s
  /\ same_src (rng s) (rng (aiAssignSectors s)).
Proof.
  unfold aiAssignSectors. destruct (sect_assigned s);
    [repeat split; reflexivity |].
  pose proof (assignFrom_src 0 (targets s) (rng s)) as H.
  destruct (assignFrom 0 (targets s) (rng s)); repeat split; exact H.
Qed.

Lemma setNth_length {A : Type} (i : nat) (t : A) (ts : list A) :
  length (setNth i t ts) = length ts.
Proof.
  revert i; induction ts as [| a ts IH]; intros [| i]; simpl; auto.
Qed.

Lemma nth_error_setNth {A : Type} (i : nat) (t t0 : A) (ts : list A) :
  nth_error ts i = Some t0 -> nth_error (setNth i t ts) i = Some t.
Proof.
  revert i; induction ts as [| a ts IH]; intros [| i]; simpl; try easy.
  apply IH.
Qed.

Lemma nth_error_setNth_other {A : Type} (i j : nat) (t : A) (ts : list A) :
  i <> j -> nth_error (setNth i t ts) j = nth_error ts j.
Proof.
  revert i j; induction ts as [| a ts IH]; intros [| i] [| j] H; simpl;
    try easy.
  apply IH; lia.
Qed.

Lemma setNth_Forall2 {A : Type} (R_ : A -> A -> Prop) (i : nat) (t t0 : A)
  (ts ts' : list A) :
  Forall2 R_ ts ts' -> nth_error ts i = Some t0 -> R_ t0 t ->
  Forall2 R_ ts (setNth i t ts').
Proof.
  intros H; revert i; induction H as [| a b l l' Hab Hl IH]; intros [| i];
    simpl; try easy.
  - intros [= ->] Ht; constructor; assumption.
  - intros Hn Ht; constructor; [assumption | now apply IH].
Qed.

Lemma Forall2_nth_error {A : Type} (R_ : A -> A -> Prop) (i : nat) (t : A)
  (ts ts' : list A) :
  Forall2 R_ ts ts' -> nth_error ts i = Some t ->
  exists t', nth_error ts' i = Some t' /\ R_ t t'.
Proof.
  intros H; revert i; induction H as [| a b l l' Hab Hl IH]; intros [| i];
    simpl; try easy.
  - intros [= ->]; eauto.
  - apply IH.
Qed.

Lemma Forall2_refl_evolves (ts : list Target) : Forall2 evolves ts ts.
Proof. induction ts; constructor; auto using evolves_refl. Qed.

Lemma Forall2_trans_evolves (l1 l2 l3 : list Target) :
  Forall2 evolves l1 l2 -> Forall2 evolves l2 l3 -> Forall2 evolves l1 l3.
Proof.
  intros H; revert l3; induction H; intros l3 H3; inversion H3; subst;
    constructor; eauto using evolves_trans.
Qed.

(** The layers between [aiSteerBase] and the integrator add to the
    steering vector only: the distance [d] they pass on is the one
    [aiSteerBase] measured. *)
Lemma aiSteerBase_d (ts : list Target) (i : nat) (t : Target) (pred : Pred) :
  b_d (aiSteerBase env ts i t pred)
  = orElse (hypot (pr_px pred - (t_x t + t_w t / 2))
                  (pr_py pred - (t_y t + t_h t / 2))) 1.
Proof.
  unfold aiSteerBase.
  destruct (fold_left _ _ _) as [sepX sepY].
  destruct (truthy2 sepX sepY); reflexivity.
Qed.

Lemma aiHeatmapBias_d (hm : Heat) (t : Target) (base : Base) :
  b_d (fst (aiHeatmapBias env hm t base)) = b_d base.
Proof.
  unfold aiHeatmapBias. destruct (grid hm); [| reflexivity].
  split_lets; reflexivity.
Qed.

Lemma aiApplyDispersion_d (ts : list Target) (i : nat) (t : Target)
  (base : Base) (g : Rng) :
  b_d (fst (aiApplyDispersion env ts i t base g)) = b_d base.
Proof.
  unfold aiApplyDispersion. destruct (negb _); [reflexivity |].
  destruct (_ || _); destruct (fold_left _ _ _) as [[[tp spx] spy] g'];
    reflexivity.
Qed.

Lemma aiSectorBias_d (ts : list Target) (t : Target) (a : AI) (base : Base)
  (far : bool) :
  b_d (aiSectorBias env ts t a base far) = b_d base.
Proof.
  unfold aiSectorBias. destruct (negb far); [reflexivity |].
  destruct (aiSectorPointFor _ _ _ _); reflexivity.
Qed.

Lemma aiApplyJuke_keeps (p : Player) (a : AI) (base : Base) (pred : Pred)
  (dt : R) (g : Rng) :
  let '(a', base', _) := aiApplyJuke p a base pred dt g in
  b_d base' = b_d base /\ lastSteerX a' = lastSteerX a
  /\ lastSteerY a' = lastSteerY a.
Proof. unfold aiApplyJuke; split_ifs; simpl; auto. Qed.

Lemma aiApplyPatrol_keeps (t : Target) (a : AI) (base : Base) (pred : Pred)
  (dt : R) (g : Rng) :
  let '(a', base', _) := aiApplyPatrol env t a base pred dt g in
  b_d base' = b_d base /\ lastSteerX a' = lastSteerX a
  /\ lastSteerY a' = lastSteerY a.
Proof. unfold aiApplyPatrol; split_ifs; simpl; auto. Qed.

Lemma aiWander_keeps (a : AI) (base : Base) (dt : R) (g : Rng) :
  let '(a', base', _) := aiWander a base dt g in
  b_d base' = b_d base /\ lastSteerX a' = lastSteerX a
  /\ lastSteerY a' = lastSteerY a.
Proof. unfold aiWander; split_ifs; simpl; auto. Qed.

End AgentUpdate.

Section AgentUpdateResult.

Variable env : Env.
Variable dt : R.

(** The agent at a valid index [i] leaves [updateTargetAI] as
    [softBounce (aiMove t a base dt)], where [t] is the agent as it came
    in, [a] its AI memory with the remembered direction untouched, and
    [base] the summed steering vector with the distance [aiSteerBase]
    measured; the other agents keep position, size and velocity. *)
Lemma updateTargetAI_result (i : nat) (s : State) (t0 : Target) :
  nth_error (targets s) i = Some t0 ->
  exists (t : Target) (a : AI) (base : Base) (ts1 : list Target),
    evolves t0 t
    /\ (lastSteerX a, lastSteerY a) = prevSteer t0
    /\ b_d base = pursuerDist (player s) (keys s) t0
    /\ Forall2 evolves (targets s) ts1
    /\ nth_error ts1 i = Some t
    /\ targets (updateTargetAI env dt i s)
       = setNth i (softBounce env (aiMove t a base dt)) ts1
    /\ session (updateTargetAI env dt i s) = session s
    /\ score (updateTargetAI env dt i s) = score s
    /\ same_src (rng s) (rng (updateTargetAI env dt i s)).
Proof.
  intros Hi. unfold updateTargetAI. rewrite Hi.
  destruct (aiInit_evolves t0 (rng s)) as [He0 Hs0].
  pose proof (aiInit_src t0 (rng s)) as Hg0.
  destruct (aiInit t0 (rng s)) as [t1 g1]. simpl in He0, Hs0, Hg0.
  set (s1 := set_rng (set_targets s (setNth i t1 (targets s))) g1).
  assert (F1 : Forall2 evolves (targets s) (targets s1)).
  { simpl. eapply setNth_Forall2; eauto using Forall2_refl_evolves. }
  pose proof (aiAssignSectors_evolves s1) as F2.
  destruct (aiAssignSectors_frame s1) as (Q1 & Q2 & Q3 & Q4).
  set (s2 := aiAssignSectors s1) in *.
  set (s3 := set_heat s2 (heatmapTick env (player s2) (heat s2))).
  assert (F3 : Forall2 evolves (targets s) (targets s3))
    by (eapply Forall2_trans_evolves; eauto).
  destruct (Forall2_nth_error evolves i t0 _ _ F3 Hi) as (t & Ht & Het).
  rewrite Ht.
  assert (Hai : t_ai t <> None).
  { assert (E1 : nth_error (targets s1) i = Some t1)
      by (simpl; eapply nth_error_setNth; eauto).
    destruct (Forall2_nth_error evolves i t1 _ _ F2 E1)
      as (t' & Ht' & (_ & _ & Hk)).
    change (targets s3) with (targets s2) in Ht.
    rewrite Ht in Ht'. injection Ht' as <-. auto. }
  destruct (t_ai t) as [a0 |] eqn:Ea; [| contradiction].
  assert (Hprev : (lastSteerX a0, lastSteerY a0) = prevSteer t0).
  { destruct Het as (_ & Hp & _). unfold prevSteer in Hp at 1.
    rewrite Ea in Hp. exact Hp. }
  assert (Hpl : player s3 = player s /\ keys s3 = keys s).
  { change (player s3) with (player s2); change (keys s3) with (keys s2).
    unfold session in Q1. injection Q1 as -> -> _ _ _. now split. }
  destruct Hpl as [Hpl Hks].
  set (pred := aiPredictPlayer (player s3) (keys s3)).
  pose proof (aiSteerBase_d env (targets s3) i t pred) as D0.
  set (b0 := aiSteerBase env (targets s3) i t pred) in *.
  pose proof (aiHeatmapBias_d env (heat s3) t b0) as D1.
  destruct (aiHeatmapBias env (heat s3) t b0) as [b1 hm1].
  pose proof (aiApplyDispersion_d env (targets s3) i t b1 (rng s3)) as D2.
  pose proof (aiApplyDispersion_src env (targets s3) i t b1 (rng s3)) as G2.
  destruct (aiApplyDispersion env (targets s3) i t b1 (rng s3)) as [b2 g2].
  pose proof (aiSectorBias_d env (targets s3) t a0 b2
                (b_d b0 >? AI_CFG.ORBIT_DIST * (9 / 10))) as D3.
  set (b3 := aiSectorBias env (targets s3) t a0 b2 _) in *.
  pose proof (aiApplyJuke_keeps (player s3) a0 b3 pred dt g2) as K4.
  pose proof (aiApplyJuke_src (player s3) a0 b3 pred dt g2) as G4.
  destruct (aiApplyJuke (player s3) a0 b3 pred dt g2) as [[a4 b4] g4].
  pose proof (aiApplyPatrol_keeps env t a4 b4 pred dt g4) as K5.
  pose proof (aiApplyPatrol_src env t a4 b4 pred dt g4) as G5.
  destruct (aiApplyPatrol env t a4 b4 pred dt g4) as [[a5 b5] g5].
  unfold aiIntegrate.
  pose proof (aiWander_keeps a5 b5 dt g5) as K6.
  pose proof (aiWander_src a5 b5 dt g5) as G6.
  destruct (aiWander a5 b5 dt g5) as [[a6 b6] g6].
  simpl in D1, D2, G2, G4, G5, G6.
  destruct K4 as (K4d & K4x & K4y), K5 as (K5d & K5x & K5y),
           K6 as (K6d & K6x & K6y).
  exists t, a6, b6, (targets s3).
  repeat split.
  - apply Het.
  - apply Het.
  - destruct Het as (_ & _ & Hk); exact Hk.
  - rewrite <- Hprev; congruence.
  - rewrite K6d, K5d, K4d, D3, D2, D1, D0.
    unfold pursuerDist. fold pred. subst pred. rewrite Hpl, Hks.
    destruct Het as (Hk & _). unfold kin in Hk.
    injection Hk as -> -> -> -> _ _. reflexivity.
  - exact F3.
  - exact Ht.
  - exact Q1.
  - exact Q2.
  - unfold same_src in *. simpl in *.
    change (rng s3) with (rng s2) in G2. congruence.
Qed.

(** The same update, with the steering sum that it normalizes: the vector
    that the integrator is given is the one [steerSum] reads off. *)
Lemma updateTargetAI_steering (i : nat) (s : State) (t0 : Target) :
  nth_error (targets s) i = Some t0 ->
  exists (t : Target) (a : AI) (base : Base) (ts1 : list Target),
    evolves t0 t
    /\ (lastSteerX a, lastSteerY a) = prevSteer t0
    /\ b_d base = pursuerDist (player s) (keys s) t0
    /\ Forall2 evolves (targets s) ts1
    /\ nth_error ts1 i = Some t
    /\ targets (updateTargetAI env dt i s)
       = setNth i (softBounce env (aiMove t a base dt)) ts1
    /\ session (updateTargetAI env dt i s) = session s
    /\ score (updateTargetAI env dt i s) = score s
    /\ same_src (rng s) (rng (updateTargetAI env dt i s))
    /\ (sx base, sy base) = steerSum env dt i s.
Proof.
  intros Hi. unfold updateTargetAI, steerSum. rewrite Hi.
  destruct (aiInit_evolves t0 (rng s)) as [He0 Hs0].
  pose proof (aiInit_src t0 (rng s)) as Hg0.
  destruct (aiInit t0 (rng s)) as [t1 g1]. simpl in He0, Hs0, Hg0.
  set (s1 := set_rng (set_targets s (setNth i t1 (targets s))) g1).
  assert (F1 : Forall2 evolves (targets s) (targets s1)).
  { simpl. eapply setNth_Forall2; eauto using Forall2_refl_evolves. }
  pose proof (aiAssignSectors_evolves s1) as F2.
  destruct (aiAssignSectors_frame s1) as (Q1 & Q2 & Q3 & Q4).
  set (s2 := aiAssignSectors s1) in *.
  set (s3 := set_heat s2 (heatmapTick env (player s2) (heat s2))).
  assert (F3 : Forall2 evolves (targets s) (targets s3))
    by (eapply Forall2_trans_evolves; eauto).
  destruct (Forall2_nth_error evolves i t0 _ _ F3 Hi) as (t & Ht & Het).
  rewrite Ht.
  assert (Hai : t_ai t <> None).
  { assert (E1 : nth_error (targets s1) i = Some t1)
      by (simpl; eapply nth_error_setNth; eauto).
    destruct (Forall2_nth_error evolves i t1 _ _ F2 E1)
      as (t' & Ht' & (_ & _ & Hk)).
    change (targets s3) with (targets s2) in Ht.
    rewrite Ht in Ht'. injection Ht' as <-. auto. }
  destruct (t_ai t) as [a0 |] eqn:Ea; [| contradiction].
  assert (Hprev : (lastSteerX a0, lastSteerY a0) = prevSteer t0).
  { destruct Het as (_ & Hp & _). unfold prevSteer in Hp at 1.
    rewrite Ea in Hp. exact Hp. }
  assert (Hpl : player s3 = player s /\ keys s3 = keys s).
  { change (player s3) with (player s2); change (keys s3) with (keys s2).
    unfold session in Q1. injection Q1 as -> -> _ _ _. now split. }
  destruct Hpl as [Hpl Hks].
  set (pred := aiPredictPlayer (player s3) (keys s3)).
  pose proof (aiSteerBase_d env (targets s3) i t pred) as D0.
  set (b0 := aiSteerBase env (targets s3) i t pred) in *.
  pose proof (aiHeatmapBias_d env (heat s3) t b0) as D1.
  destruct (aiHeatmapBias env (heat s3) t b0) as [b1 hm1].
  pose proof (aiApplyDispersion_d env (targets s3) i t b1 (rng s3)) as D2.
  pose proof (aiApplyDispersion_src env (targets s3) i t b1 (rng s3)) as G2.
  destruct (aiApplyDispersion env (targets s3) i t b1 (rng s3)) as [b2 g2].
  pose proof (aiSectorBias_d env (targets s3) t a0 b2
                (b_d b0 >? AI_CFG.ORBIT_DIST * (9 / 10))) as D3.
  set (b3 := aiSectorBias env (targets s3) t a0 b2 _) in *.
  pose proof (aiApplyJuke_keeps (player s3) a0 b3 pred dt g2) as K4.
  pose proof (aiApplyJuke_src (player s3) a0 b3 pred dt g2) as G4.
  destruct (aiApplyJuke (player s3) a0 b3 pred dt g2) as [[a4 b4] g4].
  pose proof (aiApplyPatrol_keeps env t a4 b4 pred dt g4) as K5.
  pose proof (aiApplyPatrol_src env t a4 b4 pred dt g4) as G5.
  destruct (aiApplyPatrol env t a4 b4 pred dt g4) as [[a5 b5] g5].
  unfold aiIntegrate.
  pose proof (aiWander_keeps a5 b5 dt g5) as K6.
  pose proof (aiWander_src a5 b5 dt g5) as G6.
  destruct (aiWander a5 b5 dt g5) as [[a6 b6] g6].
  simpl in D1, D2, G2, G4, G5, G6.
  destruct K4 as (K4d & K4x & K4y), K5 as (K5d & K5x & K5y),
           K6 as (K6d & K6x & K6y).
  exists t, a6, b6, (targets s3).
  repeat split.
  - apply Het.
  - apply Het.
  - destruct Het as (_ & _ & Hk); exact Hk.
  - rewrite <- Hprev; congruence.
  - rewrite K6d, K5d, K4d, D3, D2, D1, D0.
    unfold pursuerDist. fold pred. subst pred. rewrite Hpl, Hks.
    destruct Het as (Hk & _). unfold kin in Hk.
    injection Hk as -> -> -> -> _ _. reflexivity.
  - exact F3.
  - exact Ht.
  - exact Q1.
  - exact Q2.
  - unfold same_src in *. simpl in *.
    change (rng s3) with (rng s2) in G2. congruence.
Qed.

Lemma updateTargetAI_out_of_range (i : nat) (s : State) :
  nth_error (targets s) i = None -> updateTargetAI env dt i s = s.
Proof. intros H; unfold updateTargetAI; now rewrite H. Qed.

End AgentUpdateResult.

(** ** Integrator and containment *)

Ltac rdec :=
  unfold Rltb, Rleb, Reqb in *;
  repeat match goal with
         | |- context [Rlt_dec ?a ?b] => destruct (Rlt_dec a b)
         | |- context [Rle_dec ?a ?b] => destruct (Rle_dec a b)
         | |- context [Req_dec_T ?a ?b] => destruct (Req_dec_T a b)
         end.

Ltac rabs :=
  unfold Rabs;
  repeat match goal with
         | |- context [Rcase_abs ?a] => destruct (Rcase_abs a)
         end;
  lra.

Section Integrator.

Variable env : Env.

Lemma aiIntegrate_afterMove (t : Target) (s : AI) (base : Base) (dt : R)
  (g : Rng) :
  fst (aiIntegrate env t s base dt g)
  = softBounce env (afterMove t s base dt g).
Proof.
  unfold aiIntegrate, afterMove.
  destruct (aiWander s base dt g) as [[s' b'] g']; reflexivity.
Qed.

Lemma panicMult_cases (d : R) :
  (d < 150 /\ panicMult d = AI_CFG.PANIC_SPEED_UP)
  \/ (150 <= d /\ panicMult d = 1).
Proof.
  unfold panicMult, Rltb. destruct (Rlt_dec d 150); [left | right];
    split; auto; lra.
Qed.

Lemma panicMult_pos (d : R) : 1 <= panicMult d <= 112 / 100.
Proof.
  destruct (panicMult_cases d) as [[_ ->] | [_ ->]];
    unfold AI_CFG.PANIC_SPEED_UP; lra.
Qed.

(** "Clamp speed" leaves a velocity no longer than the cap. *)
Lemma clampSpeed_bound (maxV vx vy : R) :
  0 <= maxV ->
  hypot (fst (clampSpeed maxV vx vy)) (snd (clampSpeed maxV vx vy)) <= maxV.
Proof.
  intros Hm. unfold clampSpeed.
  pose proof (hypot_nonneg vx vy) as Hn.
  destruct (Req_dec_T (hypot vx vy) 0) as [E | N].
  - destruct (hypot_eq_zero _ _ E) as [-> ->].
    rewrite hypot_zero, orElse_zero.
    destruct (maxV <? 1); simpl.
    + replace (0 / 1 * maxV) with 0 by field. now rewrite hypot_zero.
    + now rewrite hypot_zero.
  - rewrite (orElse_nonzero _ 1 N).
    destruct (maxV <? hypot vx vy) eqn:C; simpl.
    + unfold Rdiv. rewrite !Rmult_assoc, hypot_scale.
      * rewrite <- Rmult_assoc, Rinv_r by exact N. lra.
      * apply Rmult_le_pos; [| exact Hm].
        left; apply Rinv_0_lt_compat; lra.
    + apply Rltb_ge in C; exact C.
Qed.

Lemma aiMove_speed (t : Target) (s : AI) (base : Base) (dt : R) :
  hypot (t_vx (aiMove t s base dt)) (t_vy (aiMove t s base dt))
  <= CFG.TARGET_MAX_SPEED * panicMult (b_d base).
Proof.
  unfold aiMove. destruct (aiSmooth s base) as [ax ay].
  set (m := CFG.TARGET_MAX_SPEED * panicMult (b_d base)).
  assert (Hm : 0 <= m).
  { subst m; pose proof (panicMult_pos (b_d base));
      unfold CFG.TARGET_MAX_SPEED; nra. }
  pose proof (clampSpeed_bound m (t_vx t + ax * CFG.TARGET_MAX_ACCEL * dt)
                (t_vy t + ay * CFG.TARGET_MAX_ACCEL * dt) Hm) as H.
  destruct (clampSpeed m _ _) as [vx vy]; exact H.
Qed.

Lemma aiMove_size (t : Target) (s : AI) (base : Base) (dt : R) :
  t_w (aiMove t s base dt) = t_w t /\ t_h (aiMove t s base dt) = t_h t.
Proof.
  unfold aiMove. destruct (aiSmooth s base), (clampSpeed _ _ _); now split.
Qed.

(** The bounce never speeds an agent up. *)
Lemma softBounce_speed (t : Target) :
  hypot (t_vx (softBounce env t)) (t_vy (softBounce env t))
  <= hypot (t_vx t) (t_vy t).
Proof.
  apply hypot_mono; unfold softBounce; rdec; simpl; rabs.
Qed.

Lemma softBounce_size (t : Target) :
  t_w (softBounce env t) = t_w t /\ t_h (softBounce env t) = t_h t.
Proof. unfold softBounce; rdec; now split. Qed.

(** An agent that fits in the arena is inside it after the bounds,
    wherever the move took it. *)
Lemma softBounce_inArena (t : Target) :
  t_w t <= canvas_width env -> t_h t <= canvas_height env ->
  inArena env (softBounce env t).
Proof.
  intros Hw Hh. unfold inArena, softBounce; rdec; simpl; lra.
Qed.

Lemma aiIntegrate_speed (t : Target) (s : AI) (base : Base) (dt : R)
  (g : Rng) :
  let t' := fst (aiIntegrate env t s base dt g) in
  hypot (t_vx t') (t_vy t') <= CFG.TARGET_MAX_SPEED * panicMult (b_d base).
Proof.
  simpl. rewrite aiIntegrate_afterMove.
  eapply Rle_trans; [apply softBounce_speed |].
  unfold afterMove.
  pose proof (aiWander_keeps s base dt g) as K.
  destruct (aiWander s base dt g) as [[s' b'] g'].
  destruct K as (<- & _). apply aiMove_speed.
Qed.

End Integrator.

(** ** The pass over the agents *)

Section Pass.

Variable env : Env.
Variable dt : R.

(** A property of agents that creating or annotating the AI memory keeps,
    and that the move-and-bounce step keeps when it starts from the
    direction the agent remembers. *)
Variable P : Target -> Prop.
Hypothesis P_evolves : forall t t', evolves t t' -> P t -> P t'.
Hypothesis P_step :
  forall t a base,
    (lastSteerX a, lastSteerY a) = prevSteer t ->
    P t -> P (softBounce env (aiMove t a base dt)).

Lemma Forall2_evolves_Forall (ts ts' : list Target) :
  Forall2 evolves ts ts' -> Forall P ts -> Forall P ts'.
Proof.
  induction 1 as [| a b l l' Hab Hl IH]; intros HF; [constructor |].
  inversion HF; subst. constructor; [| auto].
  eapply P_evolves; eauto.
Qed.

Lemma setNth_Forall {A : Type} (Q : A -> Prop) (i : nat) (t : A)
  (ts : list A) :
  Forall Q ts -> Q t -> Forall Q (setNth i t ts).
Proof.
  intros H; revert i; induction H as [| a l Ha Hl IH]; intros [| i] Ht;
    simpl; constructor; auto.
Qed.

Lemma removeNth_Forall {A : Type} (Q : A -> Prop) (i : nat) (ts : list A) :
  Forall Q ts -> Forall Q (removeNth i ts).
Proof.
  intros H; revert i; induction H as [| a l Ha Hl IH]; intros [| i];
    simpl; auto.
Qed.

Lemma updateTargetAI_Forall (i : nat) (s : State) :
  Forall P (targets s) -> Forall P (targets (updateTargetAI env dt i s)).
Proof.
  intros HF. destruct (nth_error (targets s) i) as [t0 |] eqn:Hi.
  - destruct (updateTargetAI_result env dt i s t0 Hi)
      as (t & a & base & ts1 & Het & Hp & _ & F & Hn & -> & _).
    assert (F1 : Forall P ts1) by (eapply Forall2_evolves_Forall; eauto).
    apply setNth_Forall; [exact F1 |].
    apply P_step.
    + destruct Het as (_ & -> & _). exact Hp.
    + rewrite Forall_forall in F1. apply F1. eapply nth_error_In; eauto.
  - now rewrite (updateTargetAI_out_of_range env dt i s Hi).
Qed.

Lemma collectStep_Forall (i : nat) (s : State) :
  Forall P (targets s) -> Forall P (targets (collectStep env dt i s)).
Proof.
  intros HF. unfold collectStep.
  pose proof (updateTargetAI_Forall i s HF) as H.
  destruct (nth_error _ i); [| exact H].
  destruct (rectsOverlap _ _); [| exact H].
  simpl. now apply removeNth_Forall.
Qed.

Lemma collectLoop_Forall (n : nat) (s : State) :
  Forall P (targets s) -> Forall P (targets (collectLoop env dt n s)).
Proof.
  revert s; induction n as [| n IH]; intros s HF; simpl; [exact HF |].
  apply IH. now apply collectStep_Forall.
Qed.

End Pass.

Section PassFrames.

Variable env : Env.
Variable dt : R.

Lemma updateTargetAI_frame (i : nat) (s : State) :
  session (updateTargetAI env dt i s) = session s
  /\ score (updateTargetAI env dt i s) = score s
  /\ same_src (rng s) (rng (updateTargetAI env dt i s))
  /\ length (targets (updateTargetAI env dt i s)) = length (targets s).
Proof.
  destruct (nth_error (targets s) i) as [t0 |] eqn:Hi.
  - destruct (updateTargetAI_result env dt i s t0 Hi)
      as (t & a & base & ts1 & _ & _ & _ & F & _ & E & Hs & Hc & Hg).
    repeat split; try assumption.
    rewrite E, setNth_length. symmetry. eapply Forall2_length; eauto.
  - rewrite (updateTargetAI_out_of_range env dt i s Hi).
    repeat split; reflexivity.
Qed.

Lemma collectStep_frame (i : nat) (s : State) :
  session (collectStep env dt i s) = session s
  /\ same_src (rng s) (rng (collectStep env dt i s)).
Proof.
  unfold collectStep.
  destruct (updateTargetAI_frame i s) as (Hs & _ & Hg & _).
  destruct (nth_error _ i); [| now split].
  destruct (rectsOverlap _ _); now split.
Qed.

Lemma collectLoop_frame (n : nat) (s : State) :
  session (collectLoop env dt n s) = session s
  /\ same_src (rng s) (rng (collectLoop env dt n s)).
Proof.
  revert s; induction n as [| n IH]; intros s; simpl; [now split |].
  destruct (IH (collectStep env dt n s)) as [H1 H2].
  destruct (collectStep_frame n s) as [H3 H4].
  unfold same_src in *; split; congruence.
Qed.

End PassFrames.

(** ** Spawning *)

Section Spawning.

Variable env : Env.

Lemma same_src_fair (g g' : Rng) : same_src g g' -> fair g -> fair g'.
Proof. unfold same_src, fair; intros ->; auto. Qed.

Lemma makeTarget_inArena (g : Rng) :
  fair g ->
  CFG.TARGET_SIZE <= canvas_width env ->
  CFG.TARGET_SIZE <= canvas_height env ->
  inArena env (fst (makeTarget env g)).
Proof.
  intros Hf Hw Hh. unfold makeTarget, inArena; simpl.
  pose proof (Hf (pos g)); pose proof (Hf (S (pos g))).
  unfold CFG.TARGET_SIZE in *. repeat split; nra.
Qed.

Lemma spawnFallback_inArena :
  CFG.TARGET_SIZE + 10 <= canvas_width env ->
  CFG.TARGET_SIZE + 10 <= canvas_height env ->
  inArena env (spawnFallback env).
Proof.
  unfold spawnFallback, inArena, CFG.TARGET_SIZE; simpl; intros; lra.
Qed.

Lemma spawnAttempts_S (n : nat) (p : Player) (g : Rng) :
  spawnAttempts (S n) env p g
  = let '(t, g') := makeTarget env g in
    if negb (rectsOverlap (rectP p) (rectT t)) then (t, g')
    else spawnAttempts n env p g'.
Proof. reflexivity. Qed.

(** Rejection sampling: the result is the first of the [n] candidates
    that does not overlap the player, and the fallback when all do. *)
Lemma spawnAttempts_spec (n : nat) (p : Player) (g : Rng) :
  (exists k, (k < n)%nat
     /\ (forall j, (j < k)%nat ->
           rectsOverlap (rectP p) (rectT (attempt env g j)) = true)
     /\ rectsOverlap (rectP p) (rectT (attempt env g k)) = false
     /\ spawnAttempts n env p g
        = (attempt env g k, mkRng (src g) (pos g + 2 * (k + 1))))
  \/ ((forall j, (j < n)%nat ->
         rectsOverlap (rectP p) (rectT (attempt env g j)) = true)
      /\ spawnAttempts n env p g
         = (spawnFallback env, mkRng (src g) (pos g + 2 * n))).
Proof.
  revert g; induction n as [| n IH]; intros [f q].
  - right; split; [intros j Hj; lia |].
    simpl. now rewrite Nat.add_0_r.
  - rewrite spawnAttempts_S.
    assert (A0 : attempt env (mkRng f q) 0
                 = fst (makeTarget env (mkRng f q)))
      by (unfold attempt; simpl; now rewrite Nat.add_0_r).
    destruct (makeTarget env (mkRng f q)) as [t g'] eqn:E.
    assert (Eg : g' = mkRng f (q + 2))
      by (unfold makeTarget in E; simpl in E; injection E as _ <-;
          f_equal; lia).
    simpl in A0.
    assert (Ak : forall k, attempt env g' k = attempt env (mkRng f q) (S k)).
    { intros k; subst g'; unfold attempt; simpl. do 3 f_equal; lia. }
    destruct (rectsOverlap (rectP p) (rectT t)) eqn:Ov; cbn [negb].
    + destruct (IH g') as [(k & Hk & Hall & Hno & Heq) | (Hall & Heq)].
      * left; exists (S k). repeat split; [lia | | |].
        -- intros [| j] Hj; [now rewrite A0 | rewrite <- Ak; apply Hall; lia].
        -- now rewrite <- Ak.
        -- rewrite Heq, Ak. subst g'; simpl. do 2 f_equal; lia.
      * right; split.
        -- intros [| j] Hj; [now rewrite A0 | rewrite <- Ak; apply Hall; lia].
        -- rewrite Heq. subst g'; simpl. do 2 f_equal; lia.
    + left; exists 0%nat. repeat split; [lia | intros j Hj; lia | |].
      * now rewrite A0.
      * rewrite A0, Eg; simpl. reflexivity.
Qed.

Lemma attempt_inArena (g : Rng) (k : nat) :
  fair g ->
  CFG.TARGET_SIZE <= canvas_width env ->
  CFG.TARGET_SIZE <= canvas_height env ->
  inArena env (attempt env g k).
Proof. intros Hf; apply makeTarget_inArena. exact Hf. Qed.

(** Every spawn is inside an arena that has room for the fallback. *)
Lemma spawnAvoidingPlayer_inArena (p : Player) (g : Rng) :
  fair g ->
  CFG.TARGET_SIZE + 10 <= canvas_width env ->
  CFG.TARGET_SIZE + 10 <= canvas_height env ->
  inArena env (fst (spawnAvoidingPlayer env p g)).
Proof.
  intros Hf Hw Hh. unfold spawnAvoidingPlayer.
  destruct (spawnAttempts_spec 20 p g) as [(k & _ & _ & _ & ->) | (_ & ->)];
    simpl.
  - apply attempt_inArena; unfold CFG.TARGET_SIZE in *; auto; lra.
  - now apply spawnFallback_inArena.
Qed.


End Spawning.

(** ** The refill and the whole tick *)

Section Tick.

Variable env : Env.

Lemma push_spawn_src (s : State) : same_src (rng s) (rng (push_spawn env s)).
Proof.
  unfold push_spawn, spawnAvoidingPlayer.
  pose proof (spawnAttempts_src 20 env (player s) (rng s)) as H.
  destruct (spawnAttempts 20 env (player s) (rng s)); exact H.
Qed.

(** The [while] loop only appends, and what it appends was spawned
    against the player of the state with the oracle advanced. *)
Lemma spawnToCap_appends (P : Target -> Prop) (cap : Z) (s : State) :
  (forall g, same_src (rng s) g ->
             P (fst (spawnAvoidingPlayer env (player s) g))) ->
  same_src (rng s) (rng (spawnToCap env cap s))
  /\ exists new, targets (spawnToCap env cap s) = targets s ++ new
                 /\ Forall P new.
Proof.
  intros HP.
  assert (H : player (spawnToCap env cap s) = player s
              /\ same_src (rng s) (rng (spawnToCap env cap s))
              /\ exists new, targets (spawnToCap env cap s) = targets s ++ new
                             /\ Forall P new); [| tauto].
  apply (spawnToCap_invariant env
           (fun s' => player s' = player s
                      /\ same_src (rng s) (rng s')
                      /\ exists new, targets s' = targets s ++ new
                                     /\ Forall P new)).
  - intros s' (Hp & Hg & new & Ht & Hn). repeat split.
    + pose proof (push_spawn_session env s') as E. unfold session in E.
      injection E as E1 _ _ _ _. congruence.
    + pose proof (push_spawn_src s') as E. unfold same_src in *. congruence.
    + exists (new ++ [fst (spawnAvoidingPlayer env (player s') (rng s'))]).
      rewrite push_spawn_targets, Ht, <- app_assoc. split; [reflexivity |].
      apply Forall_app; split; [exact Hn |].
      constructor; [| constructor]. rewrite Hp. now apply HP.
  - repeat split. exists []. now rewrite app_nil_r.
Qed.

Lemma capturePass_frame (dt : R) (s : State) (hp' : R) :
  session (capturePass env dt s hp')
  = (movePlayer env dt (player s) (keys s), keys s, hp', alive s,
     elapsed s + dt)
  /\ same_src (rng s) (rng (capturePass env dt s hp')).
Proof.
  unfold capturePass.
  match goal with
  | |- context [collectLoop env dt ?n ?s1] =>
      destruct (collectLoop_frame env dt n s1) as [H1 H2]
  end.
  split; [rewrite H1; reflexivity | exact H2].
Qed.

Lemma refillOnClear_session (s : State) :
  player (refillOnClear env s) = player s
  /\ keys (refillOnClear env s) = keys s
  /\ alive (refillOnClear env s) = alive s
  /\ elapsed (refillOnClear env s) = elapsed s.
Proof.
  unfold refillOnClear. destruct (targets s); [| repeat split].
  match goal with
  | |- context [spawnToCap env ?c ?s1] =>
      pose proof (spawnToCap_session env c s1) as E
  end.
  unfold session in E. injection E as -> -> _ -> ->. repeat split.
Qed.

(** While the session is alive a tick adds [dt] to the elapsed time. *)
Lemma update_elapsed (dt : R) (s : State) :
  alive s = true -> elapsed (update env dt s) = elapsed s + dt.
Proof.
  intros Ha. unfold update. rewrite Ha. cbn [negb].
  destruct (_ <=? 0); [reflexivity |].
  destruct (refillOnClear_session
              (capturePass env dt s
                 (clamp (hp s - CFG.HEALTH_DECAY_PER_SEC * dt) 0
                        CFG.HEALTH_MAX))) as (_ & _ & _ & ->).
  match goal with
  | |- context [capturePass env dt s ?h] =>
      destruct (capturePass_frame dt s h) as [E _]
  end.
  unfold session in E. now injection E.
Qed.

Lemma restart_session (s : State) :
  elapsed (restart env s) = 0 /\ alive (restart env s) = true
  /\ hp (restart env s) = CFG.HEALTH_MAX /\ score (restart env s) = 0%Z
  /\ player (restart env s) = player s.
Proof.
  unfold restart.
  match goal with
  | |- context [spawnToCap env ?c ?s1] =>
      pose proof (spawnToCap_session env c s1) as E;
      pose proof (spawnToCap_score env c s1) as E'
  end.
  unfold session in E. injection E as -> _ -> -> ->. rewrite E'.
  repeat split.
Qed.

End Tick.

(** ** Population cap *)

Section Cap.

Lemma capAt_bounds (step e : R) :
  0 < step ->
  IZR (capAt step e - 1) * step <= e < IZR (capAt step e) * step.
Proof.
  intros Hs. unfold capAt.
  destruct (Zfloor_bound (e / step)) as [H1 H2].
  replace (1 + Zfloor (e / step) - 1)%Z with (Zfloor (e / step)) by lia.
  rewrite plus_IZR.
  assert (E : e = e / step * step) by (field; lra).
  split.
  - rewrite E at 2. apply Rmult_le_compat_r; lra.
  - rewrite E at 1. apply Rmult_lt_compat_r; lra.
Qed.

Lemma capAt_unique (step e : R) (c : Z) :
  0 < step -> IZR (c - 1) * step <= e < IZR c * step -> capAt step e = c.
Proof.
  intros Hs [H1 H2]. unfold capAt.
  rewrite (Zfloor_eq (c - 1) (e / step)); [lia |].
  rewrite minus_IZR in *. split.
  - apply Rmult_le_reg_r with step; [exact Hs |].
    replace (e / step * step) with e by (field; lra). exact H1.
  - apply Rmult_lt_reg_r with step; [exact Hs |].
    replace (e / step * step) with e by (field; lra). lra.
Qed.

Lemma capAt_mono (step e e' : R) :
  0 < step -> e <= e' -> (capAt step e <= capAt step e')%Z.
Proof.
  intros Hs He. unfold capAt.
  assert (H : (Zfloor (e / step) <= Zfloor (e' / step))%Z); [| lia].
  apply Zfloor_le. unfold Rdiv. apply Rmult_le_compat_r; [| exact He].
  left; now apply Rinv_0_lt_compat.
Qed.

Lemma capAt_ge_one (step e : R) :
  0 < step -> 0 <= e -> (1 <= capAt step e)%Z.
Proof.
  intros Hs He. unfold capAt.
  assert (H : (0 <= Zfloor (e / step))%Z); [| lia].
  apply Zfloor_lub. simpl. unfold Rdiv. apply Rmult_le_pos; [exact He |].
  left; now apply Rinv_0_lt_compat.
Qed.

Lemma capAt_zero (step : R) : 0 < step -> capAt step 0 = 1%Z.
Proof. intros Hs; apply capAt_unique; [exact Hs |]; simpl; lra. Qed.

End Cap.

(** C1.  For a positive step and a non-negative elapsed time [e] the cap is
    exactly [1 + floor (e / step)], that is the integer [c] with
    [(c - 1) * step <= e < c * step]; it is at least 1 and non-decreasing
    in [e]; with step 30 it is 1 at 0 and 29.9, 2 at 30, 3 at 89.9 and 4 at
    90.  [targetCap] is that function at the step of the configuration and
    the elapsed time of the session, which a tick of a live session only
    moves forward, so the cap does not decrease within a session; a
    restart sets the elapsed time to 0 and the cap to 1. *)
Theorem cap_is_floor_monotone_and_reset (step e : R) :
  0 < step -> 0 <= e ->
  capAt step e = (1 + Zfloor (e / step))%Z
  /\ IZR (capAt step e - 1) * step <= e < IZR (capAt step e) * step
  /\ (1 <= capAt step e)%Z
  /\ (forall e', e <= e' -> (capAt step e <= capAt step e')%Z)
  /\ (capAt 30 0 = 1 /\ capAt 30 (299 / 10) = 1 /\ capAt 30 30 = 2
      /\ capAt 30 (899 / 10) = 3 /\ capAt 30 90 = 4)%Z
  /\ (forall s, targetCap s = capAt 30 (elapsed s))
  /\ (forall env dt s, alive s = true -> 0 <= dt ->
        (targetCap s <= targetCap (update env dt s))%Z)
  /\ (forall env s, elapsed (restart env s) = 0
                    /\ targetCap (restart env s) = 1%Z).
Proof.
  intros Hs He. repeat split.
  - now apply capAt_bounds.
  - now apply capAt_bounds.
  - now apply capAt_ge_one.
  - intros e' H. now apply capAt_mono.
  - apply capAt_unique; simpl; lra.
  - apply capAt_unique; simpl; lra.
  - apply capAt_unique; simpl; lra.
  - apply capAt_unique; simpl; lra.
  - apply capAt_unique; simpl; lra.
  - intros env dt s Ha Hdt. unfold targetCap.
    rewrite (update_elapsed env dt s Ha).
    apply capAt_mono; [unfold CFG.TIME_STEP_SEC |]; lra.
  - apply restart_session.
  - unfold targetCap. destruct (restart_session env s) as [-> _].
    apply capAt_zero. unfold CFG.TIME_STEP_SEC; lra.
Qed.

Lemma cap_is_floor_monotone_and_reset_witness :
  capAt 30 45 = (1 + Zfloor (45 / 30))%Z
  /\ IZR (capAt 30 45 - 1) * 30 <= 45 < IZR (capAt 30 45) * 30.
Proof.
  destruct (cap_is_floor_monotone_and_reset 30 45) as (H1 & H2 & _);
    [lra | lra |].
  split; [exact H1 | exact H2].
Defined.

(** ** Invariants of a session *)

Section TickInvariant.

Variable env : Env.

(** A property of agents that creating or annotating the AI memory keeps,
    that the move-and-bounce step keeps whatever the frame time, and that
    every spawn has. *)
Variable P : Target -> Prop.
Hypothesis P_evolves : forall t t', evolves t t' -> P t -> P t'.
Hypothesis P_step :
  forall dt t a base,
    (lastSteerX a, lastSteerY a) = prevSteer t ->
    P t -> P (softBounce env (aiMove t a base dt)).
Hypothesis P_spawn :
  forall p g, fair g -> P (fst (spawnAvoidingPlayer env p g)).

Lemma spawnToCap_Forall (cap : Z) (s : State) :
  fair (rng s) -> Forall P (targets s) ->
  Forall P (targets (spawnToCap env cap s))
  /\ fair (rng (spawnToCap env cap s)).
Proof.
  intros Hf HF.
  destruct (spawnToCap_appends env P cap s) as (Hg & new & -> & Hn).
  - intros g Hg. apply P_spawn. eapply same_src_fair; eauto.
  - split; [apply Forall_app; now split | eapply same_src_fair; eauto].
Qed.

Lemma refillOnClear_Forall (s : State) :
  fair (rng s) -> Forall P (targets s) ->
  Forall P (targets (refillOnClear env s))
  /\ fair (rng (refillOnClear env s)).
Proof.
  intros Hf HF. unfold refillOnClear.
  destruct (targets s) eqn:E; [| rewrite E; now split].
  apply spawnToCap_Forall; simpl; [exact Hf | constructor].
Qed.

Lemma restart_Forall (s : State) :
  fair (rng s) ->
  Forall P (targets (restart env s)) /\ fair (rng (restart env s)).
Proof.
  intros Hf. unfold restart. apply spawnToCap_Forall; simpl;
    [exact Hf | constructor].
Qed.

Lemma update_Forall (dt : R) (s : State) :
  fair (rng s) -> Forall P (targets s) ->
  Forall P (targets (update env dt s)) /\ fair (rng (update env dt s)).
Proof.
  intros Hf HF. unfold update.
  destruct (negb (alive s)).
  - destruct (has (keys s) space_key); [now apply restart_Forall | now split].
  - destruct (_ <=? 0); [now split |].
    apply refillOnClear_Forall.
    + eapply same_src_fair; [| exact Hf].
      match goal with
      | |- context [capturePass env dt s ?h] =>
          destruct (capturePass_frame env dt s h) as [_ E]
      end. exact E.
    + unfold capturePass. apply collectLoop_Forall; auto.
Qed.

End TickInvariant.

Section SessionInvariant.

Variables W H : R.
Variable P : Target -> Prop.
Hypothesis P_evolves : forall t t', evolves t t' -> P t -> P t'.
Hypothesis P_step :
  forall now dt t a base,
    (lastSteerX a, lastSteerY a) = prevSteer t ->
    P t -> P (softBounce (mkEnv W H now) (aiMove t a base dt)).
Hypothesis P_spawn :
  forall now p g, fair g -> P (fst (spawnAvoidingPlayer (mkEnv W H now) p g)).

Lemma reachable_Forall (s : State) :
  reachable W H s -> Forall P (targets s) /\ fair (rng s).
Proof.
  induction 1 as [s0 now Hf | s dt now Hr [IH1 IH2] | s ks Hr IH].
  - apply restart_Forall; auto.
  - apply update_Forall; auto.
  - exact IH.
Qed.

End SessionInvariant.

Lemma fair_rng_half : fair rng_half.
Proof. intros n; simpl; lra. Qed.

(** ** Game over *)

(** C10.  When the session is over and the space key is not held, a tick
    returns the state it was given: player, agents, score, health, elapsed
    time and everything else are as before. *)
Theorem update_when_over_is_identity (env : Env) (dt : R) (s : State) :
  alive s = false -> has (keys s) space_key = false -> update env dt s = s.
Proof.
  intros Ha Hk. unfold update. now rewrite Ha, Hk.
Qed.

Lemma update_when_over_is_identity_witness :
  update env0 (33 / 1000) state_over = state_over.
Proof.
  apply update_when_over_is_identity; reflexivity.
Defined.

(** ** Speed cap *)

Lemma speed_kin (t t' : Target) : kin t' = kin t -> speed t' = speed t.
Proof. unfold kin, speed; intros [= _ _ _ _ -> ->]; reflexivity. Qed.

Lemma step_speed (env : Env) (dt : R) (t : Target) (a : AI) (base : Base) :
  speed (softBounce env (aiMove t a base dt))
  <= CFG.TARGET_MAX_SPEED * panicMult (b_d base).
Proof.
  unfold speed. eapply Rle_trans; [apply softBounce_speed | apply aiMove_speed].
Qed.

Lemma spawn_speed (env : Env) (p : Player) (g : Rng) :
  speed (fst (spawnAvoidingPlayer env p g)) = 0.
Proof.
  unfold spawnAvoidingPlayer.
  destruct (spawnAttempts_spec env 20 p g) as [(k & _ & _ & _ & ->) | (_ & ->)];
    unfold speed; simpl; apply hypot_zero.
Qed.

(** C2.  After [updateTargetAI] has run on an agent, the length of its
    velocity is at most the speed cap of the tick: 220 times 1.12 when the
    predicted pursuer point is closer than 150 to the agent, 220 times 1
    otherwise.  The integrator alone already guarantees it for any steering
    input, and in every state of a session every agent is within the
    boosted cap. *)
Theorem velocity_within_speed_cap (env : Env) (dt : R) (i : nat) (s : State)
  (t0 : Target) :
  nth_error (targets s) i = Some t0 ->
  (exists t',
     nth_error (targets (updateTargetAI env dt i s)) i = Some t'
     /\ speed t' <= speedCap (player s) (keys s) t0)
  /\ speedCap (player s) (keys s) t0
     = 220 * (if pursuerDist (player s) (keys s) t0 <? 150
              then 112 / 100 else 1)
  /\ (forall t a base g,
        speed (fst (aiIntegrate env t a base dt g))
        <= CFG.TARGET_MAX_SPEED * panicMult (b_d base))
  /\ (forall s', reachable (canvas_width env) (canvas_height env) s' ->
        Forall (fun t => speed t <= 220 * (112 / 100)) (targets s')).
Proof.
  intros Hi. split; [| split; [| split]].
  - destruct (updateTargetAI_result env dt i s t0 Hi)
      as (t & a & base & ts1 & _ & _ & Hd & _ & Hn & -> & _).
    exists (softBounce env (aiMove t a base dt)). split.
    + eapply nth_error_setNth; eauto.
    + unfold speedCap. rewrite <- Hd. apply step_speed.
  - reflexivity.
  - intros t a base g. apply aiIntegrate_speed.
  - intros s' Hr.
    apply (reachable_Forall (canvas_width env) (canvas_height env)
             (fun t => speed t <= 220 * (112 / 100))); [| | | exact Hr].
    + intros t t' (K & _) Ht. now rewrite (speed_kin t t' K).
    + intros now dt' t a base _ _.
      eapply Rle_trans; [apply step_speed |].
      pose proof (panicMult_pos (b_d base)).
      unfold CFG.TARGET_MAX_SPEED; lra.
    + intros now p g _. rewrite spawn_speed. lra.
Qed.

Lemma velocity_within_speed_cap_witness :
  exists t',
    nth_error (targets (updateTargetAI env0 (33 / 1000) 0 state1)) 0 = Some t'
    /\ speed t' <= speedCap (player state1) (keys state1) target0.
Proof.
  destruct (velocity_within_speed_cap env0 (33 / 1000) 0 state1 target0)
    as [H _]; [reflexivity | exact H].
Defined.

(** ** Containment *)

Lemma inArena_kin (env : Env) (t t' : Target) :
  kin t' = kin t -> inArena env t -> inArena env t'.
Proof. unfold kin, inArena; intros [= -> -> -> -> _ _]; auto. Qed.

Lemma inArena_dims (env env' : Env) (t : Target) :
  canvas_width env' = canvas_width env ->
  canvas_height env' = canvas_height env ->
  inArena env t -> inArena env' t.
Proof. unfold inArena; intros -> ->; auto. Qed.

Lemma step_inArena (env : Env) (dt : R) (t : Target) (a : AI) (base : Base) :
  t_w t <= canvas_width env -> t_h t <= canvas_height env ->
  inArena env (softBounce env (aiMove t a base dt)).
Proof.
  intros Hw Hh. destruct (aiMove_size t a base dt) as [Ew Eh].
  apply softBounce_inArena; congruence.
Qed.

Lemma inArena_fits (env : Env) (t : Target) :
  inArena env t -> t_w t <= canvas_width env /\ t_h t <= canvas_height env.
Proof. unfold inArena; intros; lra. Qed.

(** C3.  On a canvas with room for the fallback spawn (the agent size plus
    10 in each direction) the rectangle of every agent is inside the arena:
    when it is spawned, after [updateTargetAI] has run on it wherever the
    move took it, after every tick, and so in every state of a session. *)
Theorem agents_stay_inside_arena (env : Env) :
  CFG.TARGET_SIZE + 10 <= canvas_width env ->
  CFG.TARGET_SIZE + 10 <= canvas_height env ->
  (forall p g, fair g -> inArena env (fst (spawnAvoidingPlayer env p g)))
  /\ (forall dt i s t0,
        nth_error (targets s) i = Some t0 ->
        t_w t0 <= canvas_width env -> t_h t0 <= canvas_height env ->
        exists t',
          nth_error (targets (updateTargetAI env dt i s)) i = Some t'
          /\ inArena env t')
  /\ (forall dt s,
        fair (rng s) -> Forall (inArena env) (targets s) ->
        Forall (inArena env) (targets (update env dt s)))
  /\ (forall s, fair (rng s) -> Forall (inArena env) (targets (restart env s)))
  /\ (forall s, reachable (canvas_width env) (canvas_height env) s ->
        Forall (inArena env) (targets s)).
Proof.
  intros HW HH.
  assert (Hspawn : forall env', canvas_width env' = canvas_width env ->
                                canvas_height env' = canvas_height env ->
            forall p g, fair g ->
                        inArena env (fst (spawnAvoidingPlayer env' p g))).
  { intros env' Ew Eh p g Hf. apply (inArena_dims env'); auto.
    apply spawnAvoidingPlayer_inArena; auto; congruence. }
  assert (Hstep : forall env', canvas_width env' = canvas_width env ->
                               canvas_height env' = canvas_height env ->
            forall dt t a base,
              inArena env t ->
              inArena env (softBounce env' (aiMove t a base dt))).
  { intros env' Ew Eh dt t a base Ht. apply (inArena_dims env'); auto.
    destruct (inArena_fits env t Ht).
    apply step_inArena; congruence. }
  split; [| split; [| split; [| split]]].
  - now apply Hspawn.
  - intros dt i s t0 Hi Hw Hh.
    destruct (updateTargetAI_result env dt i s t0 Hi)
      as (t & a & base & ts1 & (K & _) & _ & _ & _ & Hn & -> & _).
    exists (softBounce env (aiMove t a base dt)). split.
    + eapply nth_error_setNth; eauto.
    + unfold kin in K. injection K as _ _ Ew Eh _ _.
      apply step_inArena; congruence.
  - intros dt s Hf HF.
    apply (update_Forall env (inArena env));
      [intros t t' (K & _); now apply inArena_kin
      | intros; now apply Hstep | intros; now apply Hspawn
      | exact Hf | exact HF].
  - intros s Hf.
    apply (restart_Forall env (inArena env));
      [intros; now apply Hspawn | exact Hf].
  - intros s Hr.
    apply (reachable_Forall (canvas_width env) (canvas_height env)
             (inArena env)); [| | | exact Hr].
    + intros t t' (K & _). now apply inArena_kin.
    + intros now dt t a base _. now apply Hstep.
    + intros now p g. now apply Hspawn.
Qed.

Lemma agents_stay_inside_arena_witness :
  inArena env0 (fst (spawnAvoidingPlayer env0 player0 rng_half))
  /\ Forall (inArena env0) (targets (update env0 (33 / 1000) state1)).
Proof.
  destruct (agents_stay_inside_arena env0) as (H1 & _ & H3 & _).
  - unfold CFG.TARGET_SIZE; simpl; lra.
  - unfold CFG.TARGET_SIZE; simpl; lra.
  - split.
    + apply H1. exact fair_rng_half.
    + apply H3.
      * intros n; simpl; lra.
      * constructor; [| constructor].
        unfold inArena; simpl; lra.
Defined.

(** ** Boundary bounce *)

Lemma afterMove_size (t : Target) (a : AI) (base : Base) (dt : R) (g : Rng) :
  t_w (afterMove t a base dt g) = t_w t
  /\ t_h (afterMove t a base dt g) = t_h t.
Proof.
  unfold afterMove. destruct (aiWander a base dt g) as [[a' b'] g'].
  apply aiMove_size.
Qed.

Section Bounce.

Variable env : Env.
Variable p : Target.

Lemma softBounce_left :
  fits env p ->
  t_x p < 0 ->
  t_x (softBounce env p) = 0
  /\ t_vx (softBounce env p) = Rabs (t_vx p) * (7 / 10).
Proof. intros [Fw Fh] Hx. unfold softBounce; rdec; simpl; split; lra. Qed.

Lemma softBounce_top :
  fits env p ->
  t_y p < 0 ->
  t_y (softBounce env p) = 0
  /\ t_vy (softBounce env p) = Rabs (t_vy p) * (7 / 10).
Proof. intros [Fw Fh] Hy. unfold softBounce; rdec; simpl; split; lra. Qed.

Lemma softBounce_right :
  fits env p ->
  t_x p > canvas_width env - t_w p ->
  t_x (softBounce env p) = canvas_width env - t_w p
  /\ t_vx (softBounce env p) = - Rabs (t_vx p) * (7 / 10).
Proof. intros [Fw Fh] Hx. unfold softBounce; rdec; simpl; split; lra. Qed.

Lemma softBounce_bottom :
  fits env p ->
  t_y p > canvas_height env - t_h p ->
  t_y (softBounce env p) = canvas_height env - t_h p
  /\ t_vy (softBounce env p) = - Rabs (t_vy p) * (7 / 10).
Proof. intros [Fw Fh] Hy. unfold softBounce; rdec; simpl; split; lra. Qed.

Lemma softBounce_inside_x :
  fits env p ->
  0 <= t_x p <= canvas_width env - t_w p ->
  t_x (softBounce env p) = t_x p /\ t_vx (softBounce env p) = t_vx p.
Proof. intros [Fw Fh] Hx. unfold softBounce; rdec; simpl; split; lra. Qed.

Lemma softBounce_inside_y :
  fits env p ->
  0 <= t_y p <= canvas_height env - t_h p ->
  t_y (softBounce env p) = t_y p /\ t_vy (softBounce env p) = t_vy p.
Proof. intros [Fw Fh] Hy. unfold softBounce; rdec; simpl; split; lra. Qed.

End Bounce.

(** C5.  Let [p] be an agent that fits in the arena as the move of
    [aiIntegrate] leaves it, and [t'] the agent that [aiIntegrate] returns.
    If [p] is across the left boundary, [t'] has [x = 0] and
    [vx = |vx p| * 0.7], which is not negative and is [- vx p * 0.7] when
    [p] was moving left: 70 for an incoming -100.  Likewise [y = 0] and
    [vy = |vy p| * 0.7] across the top, [x = W - w] and
    [vx = - |vx p| * 0.7] across the right, [y = H - h] and
    [vy = - |vy p| * 0.7] across the bottom; inside the arena position and
    velocity are left as they are. *)
Theorem bounce_clamps_and_reflects (env : Env) (t : Target) (a : AI)
  (base : Base) (dt : R) (g : Rng) :
  t_w t <= canvas_width env -> t_h t <= canvas_height env ->
  let p := afterMove t a base dt g in
  let t' := fst (aiIntegrate env t a base dt g) in
  (t_x p < 0 ->
     t_x t' = 0 /\ t_vx t' = Rabs (t_vx p) * (7 / 10) /\ 0 <= t_vx t'
     /\ (t_vx p < 0 -> t_vx t' = - t_vx p * (7 / 10))
     /\ (t_vx p = -100 -> t_vx t' = 70))
  /\ (t_y p < 0 ->
        t_y t' = 0 /\ t_vy t' = Rabs (t_vy p) * (7 / 10) /\ 0 <= t_vy t'
        /\ (t_vy p < 0 -> t_vy t' = - t_vy p * (7 / 10)))
  /\ (t_x p > canvas_width env - t_w t ->
        t_x t' = canvas_width env - t_w t
        /\ t_vx t' = - Rabs (t_vx p) * (7 / 10) /\ t_vx t' <= 0
        /\ (t_vx p > 0 -> t_vx t' = - t_vx p * (7 / 10)))
  /\ (t_y p > canvas_height env - t_h t ->
        t_y t' = canvas_height env - t_h t
        /\ t_vy t' = - Rabs (t_vy p) * (7 / 10) /\ t_vy t' <= 0
        /\ (t_vy p > 0 -> t_vy t' = - t_vy p * (7 / 10)))
  /\ (0 <= t_x p <= canvas_width env - t_w t ->
        t_x t' = t_x p /\ t_vx t' = t_vx p)
  /\ (0 <= t_y p <= canvas_height env - t_h t ->
        t_y t' = t_y p /\ t_vy t' = t_vy p).
Proof.
  intros Hw Hh p t'.
  assert (Et : t' = softBounce env p) by apply aiIntegrate_afterMove.
  destruct (afterMove_size t a base dt g) as [Ew Eh]. fold p in Ew, Eh.
  rewrite <- Ew in Hw |- *. rewrite <- Eh in Hh |- *. rewrite Et. clear Et t'.
  pose proof (Rabs_pos (t_vx p)) as Ax. pose proof (Rabs_pos (t_vy p)) as Ay.
  assert (F : fits env p) by (split; assumption).
  split; [| split; [| split; [| split; [| split]]]].
  - intros Hx. destruct (softBounce_left env p F Hx) as [-> ->].
    split; [reflexivity |]. split; [reflexivity |]. split; [lra |]. split.
    + intros Hv. rewrite Rabs_left by exact Hv. reflexivity.
    + intros ->. rewrite Rabs_left by lra. lra.
  - intros Hy. destruct (softBounce_top env p F Hy) as [-> ->].
    split; [reflexivity |]. split; [reflexivity |]. split; [lra |].
    intros Hv. rewrite Rabs_left by exact Hv. reflexivity.
  - intros Hx. destruct (softBounce_right env p F Hx) as [-> ->].
    split; [reflexivity |]. split; [reflexivity |]. split; [lra |].
    intros Hv. rewrite Rabs_right by lra. reflexivity.
  - intros Hy. destruct (softBounce_bottom env p F Hy) as [-> ->].
    split; [reflexivity |]. split; [reflexivity |]. split; [lra |].
    intros Hv. rewrite Rabs_right by lra. reflexivity.
  - now apply softBounce_inside_x.
  - now apply softBounce_inside_y.
Qed.

(** ** Evaluating the model on concrete inputs *)

Ltac cfg :=
  unfold CFG.PLAYER_SIZE, CFG.PLAYER_SPEED, CFG.TARGET_SIZE,
    CFG.TARGET_MAX_SPEED, CFG.TARGET_MAX_ACCEL, CFG.HEALTH_MAX,
    CFG.HEALTH_DECAY_PER_SEC, CFG.HEALTH_REFILL_ON_CLEAR, CFG.TIME_STEP_SEC,
    AI_CFG.SEP_RADIUS, AI_CFG.SEP_FORCE, AI_CFG.ORBIT_DIST,
    AI_CFG.ORBIT_FORCE, AI_CFG.WALL_REPEL_MARGIN, AI_CFG.SLIDE_FORCE,
    AI_CFG.JUKE_CLOSE_DIST, AI_CFG.JUKE_TRIGGER_ANGLE, AI_CFG.JUKE_COOLDOWN,
    AI_CFG.JUKE_DURATION, AI_CFG.JUKE_PUSH, AI_CFG.CORNER_NEAR_EDGE,
    AI_CFG.PATROL_COOLDOWN, AI_CFG.PATROL_TIME, AI_CFG.PATROL_PUSH,
    AI_CFG.SAFE_BAND, AI_CFG.WANDER_T, AI_CFG.WANDER_MAG_FAR,
    AI_CFG.WANDER_MAG_NEAR, AI_CFG.PANIC_SPEED_UP, AI_CFG.JITTER,
    AI_CFG.SMOOTH, AI_CFG.LEAD,
    AI_PROFILE.HEATMAP_BIAS, AI_PROFILE.SECTOR_STICK,
    AI_PROFILE.DISPERSION_MIN_SPACING, AI_PROFILE.DISPERSION_EDGE_FAN,
    AI_PROFILE.HEATMAP_CELL, AI_PROFILE.HEATMAP_DECAY,
    AI_PROFILE.HEATMAP_PLAYER_STAMP, AI_PROFILE.SECTOR_RING_RATIO,
    AI_PROFILE.SECTOR_ROT_SPEED in *.

(** Decide the comparisons between closed numbers in the goal. *)
Ltac rcmp :=
  repeat match goal with
         | |- context [Rltb ?a ?b] =>
             first [rewrite (Rltb_true a b) by lra
                   | rewrite (Rltb_false a b) by lra]
         | |- context [Rleb ?a ?b] =>
             first [rewrite (Rleb_true a b) by lra
                   | rewrite (Rleb_false a b) by lra]
         | |- context [Reqb ?a ?b] =>
             first [rewrite (Reqb_true a b) by lra
                   | rewrite (Reqb_false a b) by lra]
         end.

Lemma hypot_axis_x (a : R) : hypot a 0 = Rabs a.
Proof.
  unfold hypot. replace (a * a + 0 * 0) with (Rsqr a) by (unfold Rsqr; ring).
  apply sqrt_Rsqr_abs.
Qed.

Lemma hypot_axis_y (b : R) : hypot 0 b = Rabs b.
Proof.
  unfold hypot. replace (0 * 0 + b * b) with (Rsqr b) by (unfold Rsqr; ring).
  apply sqrt_Rsqr_abs.
Qed.

Lemma afterMove_left :
  let p := afterMove target_left ai_rest base_left (1 / 50) rng_half in
  t_x p = -1 /\ t_vx p = -100.
Proof.
  unfold afterMove, aiWander. cbn. cfg. rcmp. cbn.
  rewrite cos_0, sin_0.
  replace (- (35 / 100) + (1 * (35 / 100) + (1 / 2 - 5 / 10) * (28 / 100)))
    with 0 by lra.
  replace (0 + (0 * (35 / 100) + (1 / 2 - 5 / 10) * (28 / 100))) with 0 by lra.
  rewrite hypot_zero, orElse_zero.
  unfold clampSpeed, panicMult. rcmp.
  replace (-100 + (0 / 1 * (1 - 6 / 10) + 0 * (6 / 10)) * 600 * (1 / 50))
    with (-100) by lra.
  replace (0 + (0 / 1 * (1 - 6 / 10) + 0 * (6 / 10)) * 600 * (1 / 50))
    with 0 by lra.
  rewrite hypot_axis_x, Rabs_left by lra.
  rewrite orElse_nonzero by lra. rcmp. cbn. split; lra.
Qed.

Lemma bounce_clamps_and_reflects_witness :
  let t' := fst (aiIntegrate env0 target_left ai_rest base_left (1 / 50)
                   rng_half) in
  t_x t' = 0 /\ t_vx t' = 70.
Proof.
  destruct afterMove_left as [Hx Hv].
  destruct (bounce_clamps_and_reflects env0 target_left ai_rest base_left
              (1 / 50) rng_half) as (H & _); [simpl; lra | simpl; lra |].
  destruct H as (H1 & _ & _ & _ & H5); [rewrite Hx; lra |].
  split; [exact H1 | apply H5; exact Hv].
Defined.

(** ** Clear, then refill *)


(** ** How far a tick can take an agent *)

Lemma Rabs_le_hypot_x (a b : R) : Rabs a <= hypot a b.
Proof.
  rewrite <- hypot_axis_x. apply hypot_mono; [lra |].
  rewrite Rabs_R0. apply Rabs_pos.
Qed.

Lemma Rabs_le_hypot_y (a b : R) : Rabs b <= hypot a b.
Proof.
  rewrite <- hypot_axis_y. apply hypot_mono; [| lra].
  rewrite Rabs_R0. apply Rabs_pos.
Qed.

Lemma Rabs_le_between (a b : R) : Rabs a <= b -> - b <= a <= b.
Proof. unfold Rabs; destruct (Rcase_abs a); lra. Qed.

Lemma aiMove_reach (t : Target) (a : AI) (base : Base) (dt : R) :
  Rabs (t_x (aiMove t a base dt) - t_x t) <= reach dt
  /\ Rabs (t_y (aiMove t a base dt) - t_y t) <= reach dt.
Proof.
  pose proof (aiMove_speed t a base dt) as Hs.
  pose proof (panicMult_pos (b_d base)) as Hp.
  revert Hs. unfold aiMove, reach.
  destruct (aiSmooth a base) as [ax ay].
  destruct (clampSpeed _ _ _) as [vx vy]. simpl. intros Hs.
  pose proof (Rabs_le_hypot_x vx vy). pose proof (Rabs_le_hypot_y vx vy).
  pose proof (Rabs_pos dt).
  assert (Hm : hypot vx vy <= CFG.TARGET_MAX_SPEED * AI_CFG.PANIC_SPEED_UP)
    by (cfg; nra).
  split.
  - replace (t_x t + vx * dt - t_x t) with (vx * dt) by ring.
    rewrite Rabs_mult. apply Rmult_le_compat; try apply Rabs_pos; lra.
  - replace (t_y t + vy * dt - t_y t) with (vy * dt) by ring.
    rewrite Rabs_mult. apply Rmult_le_compat; try apply Rabs_pos; lra.
Qed.

(** The bounds only ever bring an agent back towards where it was, when
    that was inside the arena. *)
Lemma softBounce_reach (env : Env) (t0 p : Target) (r : R) :
  inArena env t0 -> t_w p = t_w t0 -> t_h p = t_h t0 ->
  Rabs (t_x p - t_x t0) <= r -> Rabs (t_y p - t_y t0) <= r ->
  t_x t0 - r <= t_x (softBounce env p) <= t_x t0 + r
  /\ t_y t0 - r <= t_y (softBounce env p) <= t_y t0 + r.
Proof.
  unfold inArena. intros [Hx Hy] Ew Eh Dx Dy.
  apply Rabs_le_between in Dx, Dy.
  unfold softBounce; rdec; simpl; rewrite ?Ew, ?Eh in *; lra.
Qed.

Lemma updateTargetAI_reach (env : Env) (dt : R) (i : nat) (s : State)
  (t0 : Target) :
  nth_error (targets s) i = Some t0 -> inArena env t0 ->
  exists t',
    nth_error (targets (updateTargetAI env dt i s)) i = Some t'
    /\ t_w t' = t_w t0 /\ t_h t' = t_h t0
    /\ t_x t0 - reach dt <= t_x t' <= t_x t0 + reach dt
    /\ t_y t0 - reach dt <= t_y t' <= t_y t0 + reach dt.
Proof.
  intros Hi Hin.
  destruct (updateTargetAI_result env dt i s t0 Hi)
    as (t & a & base & ts1 & (K & _) & _ & _ & _ & Hn & -> & _).
  unfold kin in K. injection K as Ex Ey Ew Eh _ _.
  exists (softBounce env (aiMove t a base dt)).
  destruct (aiMove_size t a base dt) as [Mw Mh].
  destruct (softBounce_size env (aiMove t a base dt)) as [Bw Bh].
  destruct (aiMove_reach t a base dt) as [Rx Ry].
  split; [eapply nth_error_setNth; eauto |].
  split; [congruence |]. split; [congruence |].
  apply softBounce_reach; congruence.
Qed.

Lemma readInput_idle : readInput [] = (0, 0).
Proof. unfold readInput, truthy2. simpl. rcmp. reflexivity. Qed.

Lemma clamp_inside (v lo hi : R) : lo <= v <= hi -> clamp v lo hi = v.
Proof.
  intros [H1 H2]. unfold clamp.
  rewrite (Rmin_right hi v H2). now apply Rmax_right.
Qed.

Lemma movePlayer_idle (env : Env) (dt : R) (p : Player) :
  0 <= p_x p <= canvas_width env - p_w p ->
  0 <= p_y p <= canvas_height env - p_h p ->
  movePlayer env dt p [] = p.
Proof.
  intros Hx Hy. unfold movePlayer. rewrite readInput_idle.
  destruct p as [x y w h sp]; simpl in *.
  replace (x + 0 * sp * dt) with x by ring.
  replace (y + 0 * sp * dt) with y by ring.
  rewrite !clamp_inside by assumption. reflexivity.
Qed.

Lemma state_caught_cleared :
  targets (capturePass env0 (1 / 100) state_caught
             (clamp (hp state_caught - CFG.HEALTH_DECAY_PER_SEC * (1 / 100)) 0
                    CFG.HEALTH_MAX)) = [].
Proof.
  unfold capturePass.
  rewrite movePlayer_idle by (simpl; cfg; lra).
  set (s1 := mkState _ _ _ _ _ _ _ _ _ _).
  change (length (targets s1)) with 1%nat. cbn [collectLoop].
  unfold collectStep.
  destruct (updateTargetAI_reach env0 (1 / 100) 0 s1 target_caught)
    as (t' & Hn & Ew & Eh & Hx & Hy);
    [reflexivity | unfold inArena; simpl; lra |].
  destruct (updateTargetAI_frame env0 (1 / 100) 0 s1) as (Hs & _ & _ & Hl).
  set (s2 := updateTargetAI env0 (1 / 100) 0 s1) in *.
  rewrite Hn.
  assert (Hp : player s2 = player0)
    by (unfold session in Hs; now injection Hs).
  assert (Ov : rectsOverlap (rectP (player s2)) (rectT t') = true).
  { rewrite Hp. unfold rectsOverlap, reach in *. simpl in *.
    rewrite Ew, Eh. cfg. rewrite Rabs_pos_eq in Hx, Hy by lra.
    rewrite !Rltb_true by lra. reflexivity. }
  rewrite Ov. simpl.
  destruct (targets s2) as [| a [| b l]]; simpl in *; try discriminate.
  reflexivity.
Qed.


(** ** Heat avoidance *)

Section HeatField.

Variable env : Env.

Lemma heatmapEnsure_idem (hm : Heat) :
  heatmapEnsure env (heatmapEnsure env hm) = heatmapEnsure env hm.
Proof.
  assert (I : forall h, heatmapEnsure env (heatmapInit env h)
                        = heatmapInit env h).
  { intros h. unfold heatmapEnsure, heatmapInit. simpl.
    now rewrite !Reqb_true. }
  destruct (grid hm) eqn:G.
  - destruct (negb (lastW hm =? canvas_width env)
              || negb (lastH hm =? canvas_height env)) eqn:C.
    + assert (E : heatmapEnsure env hm = heatmapInit env hm)
        by (unfold heatmapEnsure; now rewrite G, C).
      rewrite E. apply I.
    + assert (E : heatmapEnsure env hm = hm)
        by (unfold heatmapEnsure; now rewrite G, C).
      now rewrite !E.
  - assert (E : heatmapEnsure env hm = heatmapInit env hm)
      by (unfold heatmapEnsure; now rewrite G).
    rewrite E. apply I.
Qed.

Lemma heatmapSample_ensured (hm : Heat) (x y : R) :
  snd (heatmapSample env hm x y) = heatmapEnsure env hm
  /\ heatmapSample env (heatmapEnsure env hm) x y = heatmapSample env hm x y.
Proof.
  unfold heatmapSample. rewrite heatmapEnsure_idem.
  destruct (grid (heatmapEnsure env hm)); auto.
Qed.

(** In a field where every cell holds [v], every sample is [v]. *)
Lemma heatmapSample_uniform (v : R) (c r : Z) (x y : R) :
  (0 < c)%Z -> (0 < r)%Z ->
  let hm := mkHeat (Some (repeat v (Z.to_nat (c * r)))) c r
                   (canvas_width env) (canvas_height env) in
  heatmapSample env hm x y = (v, hm).
Proof.
  intros Hc Hr hm. unfold heatmapSample, heatmapEnsure. simpl.
  rewrite !Reqb_true by reflexivity. simpl.
  set (idx := heatmapIdx hm x y).
  assert (Hidx : (0 <= idx < c * r)%Z) by (subst idx; unfold heatmapIdx; simpl; nia).
  unfold getAt. destruct (Z.ltb_spec idx 0); [lia |].
  rewrite nth_error_repeat by lia. reflexivity.
Qed.

End HeatField.

(** The vertical term of [aiHeatmapBias] is no difference of samples: in an
    evenly warm field the central differences are zero on both axes, yet
    the agent is steered up by [1 * 0.02 * 0.75]. *)
Lemma heat_bias_is_no_gradient_in_y :
  heatGradientBias env0 heat_warm target0 = (0, 0)
  /\ heatContribution env0 heat_warm target0 = (0, - (15 / 1000))
  /\ snd (heatContribution env0 heat_warm target0)
     <> snd (heatGradientBias env0 heat_warm target0).
Proof.
  assert (S : forall x y, heatmapSample env0 heat_warm x y = (1, heat_warm)).
  { intros x y.
    apply (heatmapSample_uniform env0 1 8 6 x y); reflexivity. }
  assert (G : heatGradientBias env0 heat_warm target0 = (0, 0)).
  { unfold heatGradientBias. rewrite !S. simpl. cfg. f_equal; lra. }
  assert (C : heatContribution env0 heat_warm target0 = (0, - (15 / 1000))).
  { unfold heatContribution, aiHeatmapBias.
    change (grid heat_warm) with (Some (repeat 1 48)). cbv iota beta.
    rewrite !S. simpl. cfg. f_equal; lra. }
  split; [exact G |]. split; [exact C |].
  rewrite G, C. simpl. lra.
Qed.

(** What [aiHeatmapBias] computes.  Without a grid nothing is added.  With
    a grid, the horizontal term is minus the difference of the two samples
    at 24 to the right and 24 to the left of the centre, times 0.02 and the
    heat-bias constant, as its comments announce; the vertical term is
    minus the one sample read at [(cy + 24, cx)], the coordinates swapped,
    times 0.02 and the heat-bias constant.  The distance and the centre
    carried by the vector are untouched. *)
Lemma heat_bias_contribution (env : Env) (hm : Heat) (t : Target)
  (base : Base) :
  let cx := t_x t + t_w t / 2 in
  let cy := t_y t + t_h t / 2 in
  let S x y := fst (heatmapSample env hm x y) in
  let b' := fst (aiHeatmapBias env hm t base) in
  match grid hm with
  | None => b' = base
  | Some _ =>
      sx b' = sx base
              + - (S (cx + 24) cy - S (cx - 24) cy) * (2 / 100)
                * AI_PROFILE.HEATMAP_BIAS
      /\ sy b' = sy base
                 + - S (cy + 24) cx * (2 / 100) * AI_PROFILE.HEATMAP_BIAS
      /\ b_d b' = b_d base /\ b_cx b' = b_cx base /\ b_cy b' = b_cy base
  end.
Proof.
  intros cx cy S b'. subst b'. unfold aiHeatmapBias.
  destruct (grid hm) eqn:G; [| reflexivity].
  fold cx cy.
  assert (T : forall x y h, h = heatmapEnsure env hm ->
                heatmapSample env h x y = (S x y, heatmapEnsure env hm)).
  { intros x y h ->. destruct (heatmapSample_ensured env hm x y) as [E1 E2].
    rewrite E2. unfold S. rewrite <- E1. apply surjective_pairing. }
  destruct (heatmapSample env hm cx cy) as [s0 h0] eqn:E0.
  assert (H0 : h0 = heatmapEnsure env hm).
  { destruct (heatmapSample_ensured env hm cx cy) as [E _].
    now rewrite E0 in E. }
  rewrite (T (cx + 24) cy h0 H0), (T (cx - 24) cy _ eq_refl),
    (T (cy + 24) cx _ eq_refl).
  simpl. repeat split.
Qed.

(** ** Steering: normalize, then smooth *)

Lemma hypot_triangle (a b c d : R) :
  hypot (a + c) (b + d) <= hypot a b + hypot c d.
Proof.
  pose proof (hypot_nonneg a b) as H1. pose proof (hypot_nonneg c d) as H2.
  pose proof (hypot_sqr a b) as S1. pose proof (hypot_sqr c d) as S2.
  pose proof (sqrt_cauchy a b c d) as C. unfold Rsqr in C.
  fold (hypot a b) in C. fold (hypot c d) in C.
  apply hypot_le; nra.
Qed.

Lemma unitOrZero_length (a b : R) :
  (hypot a b <> 0 ->
   hypot (fst (unitOrZero a b)) (snd (unitOrZero a b)) = 1)
  /\ (hypot a b = 0 -> unitOrZero a b = (0, 0))
  /\ hypot (fst (unitOrZero a b)) (snd (unitOrZero a b)) <= 1.
Proof.
  unfold unitOrZero. fold (len a b).
  destruct (Req_dec_T (hypot a b) 0) as [E | N].
  - destruct (hypot_eq_zero _ _ E) as [-> ->].
    assert (L : len 0 0 = 1)
      by (unfold len; rewrite hypot_zero; apply orElse_zero).
    rewrite L. simpl. replace (0 / 1) with 0 by field.
    rewrite hypot_zero. repeat split; try easy; lra.
  - pose proof (hypot_div_len a b N) as U. simpl.
    repeat split; try easy; lra.
Qed.

Lemma aiSmooth_blend (a : AI) (base : Base) :
  let n := unitOrZero (sx base) (sy base) in
  aiSmooth a base
  = (fst n * (1 - AI_CFG.SMOOTH) + lastSteerX a * AI_CFG.SMOOTH,
     snd n * (1 - AI_CFG.SMOOTH) + lastSteerY a * AI_CFG.SMOOTH).
Proof. reflexivity. Qed.

Lemma aiSmooth_length (a : AI) (base : Base) :
  hypot (fst (aiSmooth a base)) (snd (aiSmooth a base))
  <= (1 - AI_CFG.SMOOTH)
     + AI_CFG.SMOOTH * hypot (lastSteerX a) (lastSteerY a).
Proof.
  rewrite aiSmooth_blend. simpl.
  destruct (unitOrZero_length (sx base) (sy base)) as (_ & _ & U).
  unfold unitOrZero in U. simpl in U.
  eapply Rle_trans; [apply hypot_triangle |].
  rewrite !hypot_scale by (cfg; lra).
  pose proof (hypot_nonneg (lastSteerX a) (lastSteerY a)).
  cfg. nra.
Qed.

Lemma aiMove_prevSteer (t : Target) (a : AI) (base : Base) (dt : R) :
  prevSteer (aiMove t a base dt) = aiSmooth a base.
Proof.
  unfold aiMove, prevSteer.
  destruct (aiSmooth a base) as [ax ay], (clampSpeed _ _ _); reflexivity.
Qed.

Lemma softBounce_prevSteer (env : Env) (t : Target) :
  prevSteer (softBounce env t) = prevSteer t.
Proof. unfold softBounce, prevSteer; rdec; reflexivity. Qed.

(** The velocity that "Move" leaves: the old one plus the smoothed
    direction times acceleration and frame time, then clamped. *)
Lemma aiMove_velocity (t : Target) (a : AI) (base : Base) (dt : R) :
  (t_vx (aiMove t a base dt), t_vy (aiMove t a base dt))
  = clampSpeed (CFG.TARGET_MAX_SPEED * panicMult (b_d base))
      (t_vx t + fst (aiSmooth a base) * CFG.TARGET_MAX_ACCEL * dt)
      (t_vy t + snd (aiSmooth a base) * CFG.TARGET_MAX_ACCEL * dt).
Proof.
  unfold aiMove. destruct (aiSmooth a base) as [ax ay]. simpl.
  destruct (clampSpeed _ _ _); reflexivity.
Qed.

(** C8, as stated, fails in its last part: on the first frame of an agent
    the direction handed to the integrator is [(0.4, 0)], of length 0.4,
    and the agent at rest gains [0.4 * 600 * dt] of speed, not
    [600 * dt]. *)
Lemma smoothed_direction_is_not_unit :
  aiSmooth ai_fresh base_right = (4 / 10, 0)
  /\ hypot (fst (aiSmooth ai_fresh base_right))
           (snd (aiSmooth ai_fresh base_right)) <> 1
  /\ t_vx (aiMove target0 ai_fresh base_right (1 / 100)) = 24 / 10.
Proof.
  assert (E : aiSmooth ai_fresh base_right = (4 / 10, 0)).
  { unfold aiSmooth. simpl. rewrite hypot_axis_x, Rabs_R1.
    rewrite orElse_nonzero by lra. cfg. f_equal; lra. }
  split; [exact E |]. split.
  - rewrite E. simpl. rewrite hypot_axis_x, Rabs_pos_eq; lra.
  - pose proof (aiMove_velocity target0 ai_fresh base_right (1 / 100)) as V.
    rewrite E in V. simpl in V. unfold clampSpeed, panicMult in V.
    revert V. cfg. rcmp.
    replace (0 + 4 / 10 * 600 * (1 / 100)) with (24 / 10) by lra.
    replace (0 + 0 * 600 * (1 / 100)) with 0 by lra.
    rewrite hypot_axis_x, Rabs_pos_eq by lra.
    rewrite orElse_nonzero by lra. rcmp.
    intros [= -> _]. reflexivity.
Qed.

(** C8, amended.  For the agent at a valid index, [updateTargetAI]
    normalizes the summed steering vector of the tick ([steerSum]: base
    steering, the layers, wander and jitter) to [n], of length 1 unless the
    sum is zero, in which case [n] is zero; the smoothed direction is
    [n * (1 - k) + previous * k] with [k = 0.6]; it is stored as the
    direction the agent remembers for its next frame, and it is the
    direction the integrator accelerates along before it clamps the speed.
    Its length is at most [(1 - k) + k * |previous|], so it is not a unit
    vector in general, and it is at most 1 in every state of a session. *)
Theorem steering_is_normalized_then_smoothed (env : Env) (dt : R) (i : nat)
  (s : State) (t0 : Target) :
  nth_error (targets s) i = Some t0 ->
  (exists (t' p : Target),
     nth_error (targets (updateTargetAI env dt i s)) i = Some t'
     /\ let sumX := fst (steerSum env dt i s) in
        let sumY := snd (steerSum env dt i s) in
        let n := unitOrZero sumX sumY in
        let k := AI_CFG.SMOOTH in
        k = 6 / 10
        /\ (hypot sumX sumY <> 0 -> hypot (fst n) (snd n) = 1)
        /\ (hypot sumX sumY = 0 -> n = (0, 0))
        /\ prevSteer t'
           = (fst n * (1 - k) + fst (prevSteer t0) * k,
              snd n * (1 - k) + snd (prevSteer t0) * k)
        /\ steerLength t' <= (1 - k) + k * steerLength t0
        /\ t' = softBounce env p
        /\ (t_vx p, t_vy p)
           = clampSpeed (speedCap (player s) (keys s) t0)
               (t_vx t0 + fst (prevSteer t') * CFG.TARGET_MAX_ACCEL * dt)
               (t_vy t0 + snd (prevSteer t') * CFG.TARGET_MAX_ACCEL * dt))
  /\ (forall s', reachable (canvas_width env) (canvas_height env) s' ->
        Forall (fun t => steerLength t <= 1) (targets s')).
Proof.
  intros Hi. split.
  - destruct (updateTargetAI_steering env dt i s t0 Hi)
      as (t & a & base & ts1 & (K & _) & Hp & Hd & _ & Hn & -> & _ & _ & _
          & Hsum).
    exists (softBounce env (aiMove t a base dt)), (aiMove t a base dt).
    assert (Ex : lastSteerX a = fst (prevSteer t0)) by (now rewrite <- Hp).
    assert (Ey : lastSteerY a = snd (prevSteer t0)) by (now rewrite <- Hp).
    assert (Es : prevSteer (softBounce env (aiMove t a base dt))
                 = aiSmooth a base)
      by (now rewrite softBounce_prevSteer, aiMove_prevSteer).
    split; [eapply nth_error_setNth; eauto |].
    rewrite <- Hsum. cbn [fst snd].
    destruct (unitOrZero_length (sx base) (sy base)) as (U1 & U2 & _).
    cbv zeta. split; [reflexivity |].
    split; [exact U1 |]. split; [exact U2 |].
    split; [| split; [| split]].
    + rewrite Es, aiSmooth_blend. cbv zeta. now rewrite Ex, Ey.
    + unfold steerLength. rewrite Es, <- Ex, <- Ey. apply aiSmooth_length.
    + reflexivity.
    + rewrite Es, aiMove_velocity. unfold speedCap. rewrite <- Hd.
      unfold kin in K. injection K as _ _ _ _ -> ->. reflexivity.
  - intros s' Hr.
    apply (reachable_Forall (canvas_width env) (canvas_height env)
             (fun t => steerLength t <= 1)); [| | | exact Hr].
    + intros t t' (_ & Hp & _) Ht. unfold steerLength. now rewrite Hp.
    + intros now dt' t a base Hp Ht.
      unfold steerLength in *.
      rewrite softBounce_prevSteer, aiMove_prevSteer.
      eapply Rle_trans; [apply aiSmooth_length |].
      rewrite <- Hp in Ht. simpl in Ht. cfg. lra.
    + intros now p g _. unfold steerLength, prevSteer, spawnAvoidingPlayer.
      destruct (spawnAttempts_spec (mkEnv (canvas_width env)
                                      (canvas_height env) now) 20 p g)
        as [(k & _ & _ & _ & ->) | (_ & ->)];
        simpl; rewrite hypot_zero; lra.
Qed.


(** ** The pass against mark-then-compact *)

Lemma aiInit_some (t : Target) (a : AI) (g : Rng) :
  t_ai t = Some a -> aiInit t g = (t, g).
Proof. intros H; unfold aiInit; now rewrite H. Qed.

Lemma aiAssignSectors_assigned (s : State) :
  sect_assigned s = true -> aiAssignSectors s = s.
Proof. intros H; unfold aiAssignSectors; now rewrite H. Qed.

Lemma heatmapIdx_at (h x y : R) (c r : Z) :
  IZR c <= x / 80 < IZR c + 1 -> IZR r <= y / 80 < IZR r + 1 ->
  (0 <= c <= 7)%Z -> (0 <= r <= 5)%Z ->
  heatmapIdx (heat_at h) x y = (r * 8 + c)%Z.
Proof.
  intros Hx Hy Hc Hr. unfold heatmapIdx. cfg. simpl.
  rewrite (Zfloor_eq c (x / 80) Hx), (Zfloor_eq r (y / 80) Hy). lia.
Qed.

Lemma heatmapEnsure_at (h : R) : heatmapEnsure env0 (heat_at h) = heat_at h.
Proof. unfold heatmapEnsure. simpl. now rewrite !Reqb_true. Qed.

Lemma heatmapTick_at (h : R) :
  heatmapTick env0 player_c (heat_at h)
  = heat_at (heatNext h).
Proof.
  unfold heatmapTick. rewrite heatmapEnsure_at.
  change (grid (heat_at h)) with (Some (repeat 0 19 ++ h :: repeat 0 28)).
  cbv iota beta zeta.
  rewrite (heatmapIdx_at h _ _ 3 2) by (simpl; lra || lia).
  unfold heat_at, set_grid, addAt, heatNext. simpl.
  replace (0 * AI_PROFILE.HEATMAP_DECAY) with 0 by lra.
  rewrite fround_zero. reflexivity.
Qed.

Lemma heatmapSample_at (h x y : R) (c r : Z) :
  IZR c <= x / 80 < IZR c + 1 -> IZR r <= y / 80 < IZR r + 1 ->
  (0 <= c <= 7)%Z -> (0 <= r <= 5)%Z ->
  heatmapSample env0 (heat_at h) x y
  = (nth (Z.to_nat (r * 8 + c)) (repeat 0 19 ++ h :: repeat 0 28) 0,
     heat_at h).
Proof.
  intros Hx Hy Hc Hr. unfold heatmapSample. rewrite heatmapEnsure_at.
  change (grid (heat_at h)) with (Some (repeat 0 19 ++ h :: repeat 0 28)).
  cbv iota beta zeta.
  rewrite (heatmapIdx_at h x y c r Hx Hy Hc Hr).
  unfold getAt. destruct (Z.ltb_spec (r * 8 + c) 0); [lia |].
  f_equal.
  set (g := repeat 0 19 ++ h :: repeat 0 28).
  assert (L : (Z.to_nat (r * 8 + c) < length g)%nat)
    by (subst g; rewrite length_app; simpl; lia).
  rewrite (nth_error_nth' g 0 L). reflexivity.
Qed.

(** The first tick of a session lays the field out and stamps the cell of
    the player. *)
Lemma heatmapTick_first : heatmapTick env0 player0 heat0 = heat_first.
Proof.
  unfold heatmapTick, heatmapEnsure, heatmapInit, heatmapIdx. simpl. cfg.
  simpl.
  rewrite (Zceil_eq 8), (Zceil_eq 6) by (simpl; lra).
  rewrite (Zfloor_eq 1) by (simpl; lra).
  unfold set_grid, addAt, heat_first. simpl.
  replace (0 * (94 / 100)) with 0 by lra. rewrite fround_zero.
  replace (0 + 26 / 10) with (26 / 10) by lra.
  now rewrite fround_stamp.
Qed.

Lemma heatmapSample_first (x y : R) (c r : Z) :
  IZR c <= x / 80 < IZR c + 1 -> IZR r <= y / 80 < IZR r + 1 ->
  (0 <= c <= 7)%Z -> (0 <= r <= 5)%Z ->
  heatmapSample env0 heat_first x y
  = (nth (Z.to_nat (r * 8 + c))
         (repeat 0 9 ++ (5452595 / 2097152) :: repeat 0 38) 0,
     heat_first).
Proof.
  intros Hx Hy Hc Hr. unfold heatmapSample.
  assert (E : heatmapEnsure env0 heat_first = heat_first)
    by (unfold heatmapEnsure; simpl; now rewrite !Reqb_true).
  rewrite E.
  change (grid heat_first)
    with (Some (repeat 0 9 ++ (5452595 / 2097152) :: repeat 0 38)).
  cbv iota beta zeta.
  assert (I : heatmapIdx heat_first x y = (r * 8 + c)%Z).
  { unfold heatmapIdx. cfg. simpl.
    rewrite (Zfloor_eq c (x / 80) Hx), (Zfloor_eq r (y / 80) Hy). lia. }
  rewrite I. unfold getAt. destruct (Z.ltb_spec (r * 8 + c) 0); [lia |].
  f_equal.
  set (g := repeat 0 9 ++ (5452595 / 2097152) :: repeat 0 38).
  assert (L : (Z.to_nat (r * 8 + c) < length g)%nat)
    by (subst g; rewrite length_app; simpl; lia).
  rewrite (nth_error_nth' g 0 L). reflexivity.
Qed.

(** C7.  The claim and the comments of [aiHeatmapBias] ("approximate
    gradient", "bias away from hotter direction") ask for minus a
    difference of two samples on each axis.  On the first frame of a
    session the only warm cell is that of the player; for an agent in that
    cell, to the left of the player, the samples 24 above and 24 below its
    centre are both in the cell, so the vertical difference is zero.  The
    code reads the one sample at [(cy + 24, cx)] and steers the agent up
    by [fround 2.6 * 0.02 * 0.75].  On the horizontal axis it does take
    the difference. *)
Lemma heat_bias_on_the_first_frame :
  let hm := heatmapTick env0 player0 heat0 in
  let stored := 5452595 / 2097152 in
  rectsOverlap (rectP player0) (rectT t_early) = false
  /\ heatGradientBias env0 hm t_early
     = (- stored * AI_PROFILE.HEATMAP_BIAS, 0)
  /\ heatContribution env0 hm t_early
     = (- stored * (2 / 100) * AI_PROFILE.HEATMAP_BIAS,
        - stored * (2 / 100) * AI_PROFILE.HEATMAP_BIAS)
  /\ snd (heatGradientBias env0 hm t_early) = 0
  /\ snd (heatContribution env0 hm t_early) < 0.
Proof.
  cbv zeta. rewrite heatmapTick_first.
  set (h := 5452595 / 2097152).
  assert (G : heatGradientBias env0 heat_first t_early
              = (- h * AI_PROFILE.HEATMAP_BIAS, 0)).
  { unfold heatGradientBias. cbv zeta.
    rewrite (heatmapSample_first _ _ 1 1) by (simpl; lra || lia).
    rewrite (heatmapSample_first _ _ 0 1) by (simpl; lra || lia).
    rewrite (heatmapSample_first _ _ 1 1) by (simpl; lra || lia).
    rewrite (heatmapSample_first _ _ 1 1) by (simpl; lra || lia).
    simpl. fold h. cfg. f_equal; lra. }
  assert (C : heatContribution env0 heat_first t_early
              = (- h * (2 / 100) * AI_PROFILE.HEATMAP_BIAS,
                 - h * (2 / 100) * AI_PROFILE.HEATMAP_BIAS)).
  { unfold heatContribution, aiHeatmapBias.
    change (grid heat_first)
      with (Some (repeat 0 9 ++ h :: repeat 0 38)).
    cbv iota beta zeta.
    rewrite (heatmapSample_first _ _ 1 1) by (simpl; lra || lia).
    rewrite (heatmapSample_first _ _ 1 1) by (simpl; lra || lia).
    rewrite (heatmapSample_first _ _ 0 1) by (simpl; lra || lia).
    rewrite (heatmapSample_first _ _ 1 1) by (simpl; lra || lia).
    simpl. fold h. cfg. f_equal; lra. }
  split; [unfold rectsOverlap; simpl; cfg; rcmp; reflexivity |].
  split; [exact G |]. split; [exact C |].
  rewrite G, C. split; [reflexivity |]. unfold h. simpl. cfg. lra.
Qed.

(** Heat avoidance adds nothing for the two agents of the scene. *)
Lemma aiHeatmapBias_on (h a b d x y : R) :
  aiHeatmapBias env0 (heat_at h) t_on (mkBase a b d x y)
  = (mkBase a b d x y, heat_at h).
Proof.
  unfold aiHeatmapBias.
  change (grid (heat_at h)) with (Some (repeat 0 19 ++ h :: repeat 0 28)).
  cbv iota beta zeta.
  rewrite (heatmapSample_at h _ _ 3 2) by (simpl; lra || lia).
  rewrite (heatmapSample_at h _ _ 3 2) by (simpl; lra || lia).
  rewrite (heatmapSample_at h _ _ 3 2) by (simpl; lra || lia).
  rewrite (heatmapSample_at h _ _ 2 3) by (simpl; lra || lia).
  simpl. unfold add_steer. simpl. cfg. f_equal. f_equal; lra.
Qed.

Lemma aiHeatmapBias_near (h a b d x y : R) :
  aiHeatmapBias env0 (heat_at h) t_near (mkBase a b d x y)
  = (mkBase a b d x y, heat_at h).
Proof.
  unfold aiHeatmapBias.
  change (grid (heat_at h)) with (Some (repeat 0 19 ++ h :: repeat 0 28)).
  cbv iota beta zeta.
  rewrite (heatmapSample_at h _ _ 3 3) by (simpl; lra || lia).
  rewrite (heatmapSample_at h _ _ 3 3) by (simpl; lra || lia).
  rewrite (heatmapSample_at h _ _ 3 3) by (simpl; lra || lia).
  rewrite (heatmapSample_at h _ _ 3 3) by (simpl; lra || lia).
  simpl. unfold add_steer. simpl. cfg. f_equal. f_equal; lra.
Qed.

Lemma aiPredictPlayer_c : aiPredictPlayer player_c [] = pred_c.
Proof.
  unfold aiPredictPlayer. rewrite readInput_idle. simpl.
  rewrite hypot_zero. unfold pred_c. cfg. f_equal; lra.
Qed.

(** Away from the edges the dispersion layer does nothing. *)
Lemma aiApplyDispersion_inner (env : Env) (ts : list Target) (i : nat)
  (t : Target) (base : Base) (g : Rng) :
  nearEdge12 env t = false -> aiApplyDispersion env ts i t base g = (base, g).
Proof. intros H; unfold aiApplyDispersion; now rewrite H. Qed.

(** With no burst running, none cooling down and the player not moving,
    the juke layer does nothing. *)
Lemma aiApplyJuke_idle (p : Player) (a : AI) (base : Base) (pred : Pred)
  (dt : R) (g : Rng) :
  jukeTime a = 0 -> jukeCool a = 0 -> 0 <= dt -> pr_hv pred <= 3 / 10 ->
  aiApplyJuke p a base pred dt g = (a, base, g).
Proof.
  intros Ht Hc Hdt Hv. unfold aiApplyJuke. simpl. rewrite Ht, Hc.
  rewrite !Rmax_left by lra. rcmp. rewrite andb_false_r.
  destruct a; simpl in *; subst; reflexivity.
Qed.

(** With no patrol running, none cooling down and the player near, the
    patrol layer does nothing. *)
Lemma aiApplyPatrol_idle (env : Env) (t : Target) (a : AI) (base : Base)
  (pred : Pred) (dt : R) (g : Rng) :
  patrolTime a = 0 -> patrolCool a = 0 -> 0 <= dt ->
  b_d base <= AI_CFG.ORBIT_DIST * (9 / 10) ->
  aiApplyPatrol env t a base pred dt g = (a, base, g).
Proof.
  intros Ht Hc Hdt Hd. unfold aiApplyPatrol. simpl. rewrite Ht, Hc.
  rewrite !Rmax_left by lra. rcmp. simpl.
  destruct a; simpl in *; subst; reflexivity.
Qed.

(** The length of a vector whose square is known. *)
Lemma hypot_eq (a b v : R) : 0 <= v -> a * a + b * b = v * v -> hypot a b = v.
Proof.
  intros Hv E. unfold hypot. rewrite E. now apply sqrt_square.
Qed.

(** The agent on the player, next to the other one: it is pushed straight
    up, away from its neighbour. *)
Lemma aiSteerBase_on :
  aiSteerBase env0 [t_near; t_on] 1 t_on pred_c
  = mkBase 0 (- (9 / 10)) 1 280 200.
Proof.
  unfold aiSteerBase, indexed, sepStep, aiNearEdges. simpl. cfg.
  rewrite (hypot_eq (280 - (268 + 24 / 2)) (200 - (188 + 24 / 2)) 0) by lra.
  rewrite orElse_zero.
  rewrite (hypot_eq _ (188 + 24 / 2 - (248 + 24 / 2)) 60) by lra.
  rcmp. simpl.
  match goal with
  | |- context [truthy2 ?a ?b] =>
      replace a with 0 by lra; replace b with (- (1 / 3)) by lra
  end.
  unfold truthy2. rcmp. simpl.
  rewrite (hypot_eq 0 (- (1 / 3)) (1 / 3)) by lra.
  rewrite orElse_nonzero by lra.
  rewrite Rmax_right, Rmin_right by lra.
  f_equal; lra.
Qed.

Lemma aiIntegrate_on (n : nat) :
  aiIntegrate env0 t_on ai_up (mkBase 0 (- (9 / 10)) 1 280 200) dt_c
              (rng_at n)
  = (t_on', rng_at (S (S n))).
Proof.
  unfold aiIntegrate, aiWander, dt_c. cbn. cfg. rcmp. cbn.
  rewrite cos_PI2, sin_PI2.
  unfold aiMove, aiSmooth. cbn.
  match goal with
  | |- context [hypot ?a ?b] =>
      replace a with 0 by lra; replace b with (- (55 / 100)) by lra
  end.
  rewrite (hypot_eq 0 (- (55 / 100)) (55 / 100)) by lra.
  rewrite orElse_nonzero by lra.
  unfold clampSpeed, panicMult. cfg. rcmp.
  match goal with
  | |- context [hypot ?a ?b] =>
      replace a with 0 by lra; replace b with (- (24 / 10)) by lra
  end.
  rewrite (hypot_eq 0 (- (24 / 10)) (24 / 10)) by lra.
  rewrite orElse_nonzero by lra. rcmp.
  unfold softBounce. cbn. rcmp. cbn.
  unfold t_on', ai_up', rng_at, set_lastSteer. cbn.
  repeat (f_equal; try lra).
Qed.

Ltac layers_off :=
  cbn -[aiSteerBase aiHeatmapBias aiApplyDispersion aiSectorBias aiApplyJuke
        aiApplyPatrol aiIntegrate heatmapTick aiPredictPlayer aiInit
        aiAssignSectors heat_at Rltb].

Lemma updateTargetAI_on (hpv el h : R) (sc : Z) (n : nat) :
  updateTargetAI env0 dt_c 1 (state_c hpv el h sc [t_near; t_on] n)
  = state_c hpv el (heatNext h) sc [t_near; t_on'] (S (S n)).
Proof.
  unfold updateTargetAI. layers_off.
  rewrite (aiInit_some t_on ai_up) by reflexivity. layers_off.
  rewrite aiAssignSectors_assigned by reflexivity. layers_off.
  rewrite heatmapTick_at, aiPredictPlayer_c, aiSteerBase_on.
  rewrite aiHeatmapBias_on.
  rewrite aiApplyDispersion_inner
    by (unfold nearEdge12; simpl; rcmp; reflexivity).
  layers_off. cfg. rcmp. layers_off.
  rewrite aiApplyJuke_idle by (simpl; unfold dt_c; lra).
  rewrite aiApplyPatrol_idle by (simpl; unfold dt_c; cfg; lra).
  rewrite aiIntegrate_on. reflexivity.
Qed.

(** The scene with an agent on the player: the steering sum of that agent
    points straight up, base steering 0.9 up and wander 0.35 down. *)
Lemma steerSum_on (hpv el h : R) (sc : Z) (n : nat) :
  steerSum env0 dt_c 1 (state_c hpv el h sc [t_near; t_on] n)
  = (0, - (55 / 100)).
Proof.
  unfold steerSum. layers_off.
  rewrite (aiInit_some t_on ai_up) by reflexivity. layers_off.
  rewrite aiAssignSectors_assigned by reflexivity. layers_off.
  rewrite heatmapTick_at, aiPredictPlayer_c, aiSteerBase_on.
  rewrite aiHeatmapBias_on.
  rewrite aiApplyDispersion_inner
    by (unfold nearEdge12; simpl; rcmp; reflexivity).
  layers_off. cfg. rcmp. layers_off.
  rewrite aiApplyJuke_idle by (simpl; unfold dt_c; lra).
  rewrite aiApplyPatrol_idle by (simpl; unfold dt_c; cfg; lra).
  unfold aiWander, dt_c. cbn. cfg. rcmp. cbn.
  rewrite cos_PI2, sin_PI2. f_equal; lra.
Qed.

(** In the scene the sum [(0, -0.55)] is normalized to [(0, -1)] and
    blended with the remembered zero: the agent on the player stores
    [(0, -0.4)] and is given 2.4 of speed upwards. *)
Lemma steering_is_normalized_then_smoothed_witness :
  steerSum env0 dt_c 1 state_pair = (0, - (55 / 100))
  /\ exists (t' p : Target),
       nth_error (targets (updateTargetAI env0 dt_c 1 state_pair)) 1
       = Some t'
       /\ prevSteer t' = (0, - (4 / 10))
       /\ steerLength t' <= 4 / 10
       /\ t' = softBounce env0 p
       /\ (t_vx p, t_vy p)
          = clampSpeed (speedCap (player state_pair) (keys state_pair) t_on)
              (t_vx t_on
               + fst (prevSteer t') * CFG.TARGET_MAX_ACCEL * dt_c)
              (t_vy t_on
               + snd (prevSteer t') * CFG.TARGET_MAX_ACCEL * dt_c).
Proof.
  pose proof (steerSum_on 100 31 0 0 0) as Sum.
  change (state_c 100 31 0 0 [t_near; t_on] 0) with state_pair in Sum.
  split; [exact Sum |].
  destruct (steering_is_normalized_then_smoothed env0 dt_c 1 state_pair
              t_on) as [(t' & p & Hn & H) _]; [reflexivity |].
  cbv zeta in H. rewrite Sum in H. cbn [fst snd] in H.
  destruct H as (_ & _ & _ & Hp & Hl & Hb & Hv).
  exists t', p. split; [exact Hn |].
  assert (N : unitOrZero 0 (- (55 / 100)) = (0, -1)).
  { unfold unitOrZero.
    rewrite (hypot_eq 0 (- (55 / 100)) (55 / 100)) by lra.
    rewrite orElse_nonzero by lra. f_equal; lra. }
  rewrite N in Hp. cbn [fst snd] in Hp.
  change (prevSteer t_on) with (0, 0) in Hp, Hl. cbn [fst snd] in Hp.
  unfold steerLength at 2 in Hl.
  change (prevSteer t_on) with (0, 0) in Hl. cbn [fst snd] in Hl.
  rewrite hypot_zero in Hl. revert Hp Hl. cfg. intros Hp Hl.
  split; [rewrite Hp; f_equal; lra |].
  split; [lra |]. split; [exact Hb | exact Hv].
Defined.

(** The agent below the player, alone in the array: it flees down and
    orbits. *)
Lemma aiSteerBase_near_alone :
  aiSteerBase env0 [t_near] 0 t_near pred_c
  = mkBase (- (85 / 130)) (1225 / 1300) 60 280 260.
Proof.
  unfold aiSteerBase, indexed, sepStep, aiNearEdges. simpl. cfg.
  rewrite (hypot_eq (280 - (268 + 24 / 2)) (200 - (248 + 24 / 2)) 60) by lra.
  rewrite orElse_nonzero by lra.
  unfold truthy2. rcmp. simpl.
  rewrite Rmax_right, Rmin_right by lra.
  f_equal; lra.
Qed.

(** The same agent with the collected one still in the array: separation
    pushes it further down. *)
Lemma aiSteerBase_near_paired :
  aiSteerBase env0 [t_near; t_on'] 0 t_near pred_c
  = mkBase (- (85 / 130)) (1225 / 1300 + 9 / 10) 60 280 260.
Proof.
  unfold aiSteerBase, indexed, sepStep, aiNearEdges. simpl. cfg.
  rewrite (hypot_eq (280 - (268 + 24 / 2)) (200 - (248 + 24 / 2)) 60) by lra.
  rewrite orElse_nonzero by lra.
  rewrite (hypot_eq (268 + 24 / 2 - (268 + 24 / 2))
             (248 + 24 / 2 - (188 - 24 / 1000 + 24 / 2)) (60024 / 1000))
    by lra.
  rcmp. simpl.
  match goal with
  | |- context [truthy2 ?a ?b] =>
      replace a with 0 by lra;
      replace b with (29976 / 90000) by lra
  end.
  unfold truthy2. rcmp. simpl.
  rewrite (hypot_eq 0 (29976 / 90000) (29976 / 90000)) by lra.
  rewrite orElse_nonzero by lra.
  rewrite Rmax_right, Rmin_right by lra.
  f_equal; lra.
Qed.

Lemma aiIntegrate_near (syb : R) (n : nat) :
  0 < syb ->
  aiIntegrate env0 t_near ai_rest (mkBase (- (85 / 130)) syb 60 280 260)
              dt_c (rng_at n)
  = (t_near_after syb, rng_at (S (S n))).
Proof.
  intros Hs.
  assert (Hh : hypot wanderedX syb <> 0).
  { intros E. apply hypot_eq_zero in E. lra. }
  pose proof (hypot_div_len wanderedX syb Hh) as U.
  rewrite (len_hypot _ _ Hh) in U.
  pose proof (Rabs_le_hypot_x (wanderedX / hypot wanderedX syb)
                (syb / hypot wanderedX syb)) as Bx.
  pose proof (Rabs_le_hypot_y (wanderedX / hypot wanderedX syb)
                (syb / hypot wanderedX syb)) as By.
  rewrite U in Bx, By. apply Rabs_le_between in Bx, By.
  unfold t_near_after.
  set (u := wanderedX / hypot wanderedX syb) in *.
  set (w := syb / hypot wanderedX syb) in *.
  unfold aiIntegrate, aiWander, dt_c. cbn. cfg. rcmp. cbn.
  rewrite cos_0, sin_0.
  unfold aiMove, aiSmooth. cbn.
  match goal with
  | |- context [hypot ?a ?b] =>
      replace a with wanderedX by (unfold wanderedX; lra);
      replace b with syb by lra
  end.
  rewrite orElse_nonzero by exact Hh. fold u w.
  unfold clampSpeed, panicMult. cfg. rcmp.
  match goal with
  | |- context [hypot ?a ?b] =>
      replace a with (u * (24 / 10)) by lra;
      replace b with (w * (24 / 10)) by lra
  end.
  rewrite hypot_scale, U by lra.
  rewrite orElse_nonzero by lra. rcmp.
  unfold softBounce. cbn. rcmp. cbn.
  unfold rng_at, set_lastSteer. cbn.
  repeat (f_equal; try lra).
Qed.

(** With the player near, the sector layer does nothing. *)
Lemma aiSectorBias_off (env : Env) (ts : list Target) (t : Target) (a : AI)
  (base : Base) :
  aiSectorBias env ts t a base false = base.
Proof. reflexivity. Qed.

Lemma updateTargetAI_near (hpv el h : R) (sc : Z) (n : nat)
  (rest : list Target) (syb : R) :
  0 < syb ->
  aiSteerBase env0 (t_near :: rest) 0 t_near pred_c
  = mkBase (- (85 / 130)) syb 60 280 260 ->
  updateTargetAI env0 dt_c 0 (state_c hpv el h sc (t_near :: rest) n)
  = state_c hpv el (heatNext h) sc (t_near_after syb :: rest)
            (S (S n)).
Proof.
  intros Hs Hb.
  unfold updateTargetAI. layers_off.
  rewrite (aiInit_some t_near ai_rest) by reflexivity. layers_off.
  rewrite aiAssignSectors_assigned by reflexivity. layers_off.
  rewrite heatmapTick_at, aiPredictPlayer_c, Hb.
  rewrite aiHeatmapBias_near.
  rewrite aiApplyDispersion_inner
    by (unfold nearEdge12; simpl; rcmp; reflexivity).
  layers_off. cfg. rcmp. layers_off.
  rewrite aiApplyJuke_idle by (simpl; unfold dt_c; lra).
  rewrite aiApplyPatrol_idle by (simpl; unfold dt_c; cfg; lra).
  rewrite aiSectorBias_off, (aiIntegrate_near syb n Hs). reflexivity.
Qed.

(** The agent below the player stays below it: it is not collected. *)
Lemma t_near_after_free (syb : R) :
  0 < syb ->
  rectsOverlap (rectP player_c) (rectT (t_near_after syb)) = false.
Proof.
  intros Hs.
  assert (Hh : hypot wanderedX syb <> 0).
  { intros E. apply hypot_eq_zero in E. lra. }
  pose proof (hypot_nonneg wanderedX syb) as Hn.
  assert (Hw : 0 < syb / hypot wanderedX syb)
    by (apply Rdiv_lt_0_compat; lra).
  unfold rectsOverlap, t_near_after. simpl.
  rewrite (Rltb_false (248 + _) (188 + 24)) by lra.
  now rewrite andb_false_r.
Qed.

Lemma t_on'_caught : rectsOverlap (rectP player_c) (rectT t_on') = true.
Proof. unfold rectsOverlap. simpl. rcmp. reflexivity. Qed.

(** The two frames differ in the velocity they leave. *)
Lemma t_near_after_differs (a b : R) :
  0 < a -> 0 < b -> a <> b ->
  t_vx (t_near_after a) <> t_vx (t_near_after b).
Proof.
  intros Ha Hb Hab E. unfold t_near_after in E. simpl in E.
  pose proof (hypot_nonneg wanderedX a) as Na.
  pose proof (hypot_nonneg wanderedX b) as Nb.
  pose proof (hypot_sqr wanderedX a) as Sa.
  pose proof (hypot_sqr wanderedX b) as Sb.
  assert (Za : hypot wanderedX a <> 0)
    by (intros Z; apply hypot_eq_zero in Z; lra).
  assert (Zb : hypot wanderedX b <> 0)
    by (intros Z; apply hypot_eq_zero in Z; lra).
  set (la := hypot wanderedX a) in *. set (lb := hypot wanderedX b) in *.
  assert (W : wanderedX <> 0) by (unfold wanderedX; lra).
  assert (I : / la = / lb).
  { apply (Rmult_eq_reg_l (wanderedX * (4 / 10) * 6)); [| lra].
    unfold Rdiv in E. lra. }
  assert (L : la = lb).
  { rewrite <- (Rinv_inv la), <- (Rinv_inv lb). now rewrite I. }
  rewrite L in Sa. nra.
Qed.

Lemma collectLoop_scene (hpv el h : R) (sc : Z) (n : nat) :
  collectLoop env0 dt_c 2 (state_c hpv el h sc [t_near; t_on] n)
  = state_c hpv el (heatNext (heatNext h))
            (sc + 1) [t_near_after (1225 / 1300)] (S (S (S (S n)))).
Proof.
  cbn [collectLoop]. unfold collectStep at 2.
  rewrite updateTargetAI_on.
  change (nth_error (targets (state_c hpv el (heatNext h) sc
                                [t_near; t_on'] (S (S n)))) 1)
    with (Some t_on').
  change (player (state_c hpv el (heatNext h) sc
                    [t_near; t_on'] (S (S n)))) with player_c.
  cbv iota beta. rewrite t_on'_caught.
  change (set_targets (add_score _) _)
    with (state_c hpv el (heatNext h) (sc + 1) [t_near]
            (S (S n))).
  unfold collectStep.
  rewrite (updateTargetAI_near _ _ _ _ _ [] (1225 / 1300))
    by (lra || apply aiSteerBase_near_alone).
  cbn [nth_error targets state_c player].
  rewrite t_near_after_free by lra. reflexivity.
Qed.

Lemma markThenCompact_scene (hpv el h : R) (sc : Z) (n : nat) :
  markThenCompact env0 dt_c (state_c hpv el h sc [t_near; t_on] n)
  = state_c hpv el (heatNext (heatNext h))
            (sc + 1) [t_near_after (1225 / 1300 + 9 / 10)]
            (S (S (S (S n)))).
Proof.
  unfold markThenCompact. cbn [length targets state_c updateAll].
  rewrite updateTargetAI_on.
  rewrite (updateTargetAI_near _ _ _ _ _ [t_on'] (1225 / 1300 + 9 / 10))
    by (lra || apply aiSteerBase_near_paired).
  unfold compact, caught. cbn [targets state_c player filter].
  rewrite t_near_after_free by lra. rewrite t_on'_caught.
  reflexivity.
Qed.

Lemma update_scene :
  update env0 dt_c state_pair
  = state_c (100 - 8 * (1 / 100)) (31 + 1 / 100)
            (heatNext (heatNext 0)) 1
            [t_near_after (1225 / 1300)] 4.
Proof.
  unfold update, dt_c. cbn [alive state_pair state_c negb hp]. cfg.
  rewrite clamp_inside by lra. rcmp.
  unfold capturePass. cbn [player keys state_c].
  rewrite movePlayer_idle by (simpl; lra).
  change (collectLoop env0 (1 / 100) _ _)
    with (collectLoop env0 dt_c 2
            (state_c (100 - 8 * (1 / 100)) (31 + 1 / 100) 0 0
                     [t_near; t_on] 0)).
  rewrite collectLoop_scene. reflexivity.
Qed.

Lemma updateDeferred_scene :
  updateDeferred env0 dt_c state_pair
  = state_c (100 - 8 * (1 / 100)) (31 + 1 / 100)
            (heatNext (heatNext 0)) 1
            [t_near_after (1225 / 1300 + 9 / 10)] 4.
Proof.
  unfold updateDeferred, dt_c. cbn [alive state_pair state_c negb hp]. cfg.
  rewrite clamp_inside by lra. rcmp.
  unfold capturePassDeferred. cbn [player keys state_c].
  rewrite movePlayer_idle by (simpl; lra).
  change (markThenCompact env0 (1 / 100) _)
    with (markThenCompact env0 dt_c
            (state_c (100 - 8 * (1 / 100)) (31 + 1 / 100) 0 0
                     [t_near; t_on] 0)).
  rewrite markThenCompact_scene. reflexivity.
Qed.

(** C9, as stated, fails: the collected agent is spliced out at once, so
    the agent updated after it no longer separates from it.  With two
    agents, one of them on the player, the frame of the code and the frame
    with mark-then-compact leave the surviving agent with different
    velocities. *)
Lemma removal_is_not_deferred :
  targets (update env0 dt_c state_pair) = [t_near_after (1225 / 1300)]
  /\ targets (updateDeferred env0 dt_c state_pair)
     = [t_near_after (1225 / 1300 + 9 / 10)]
  /\ map t_vx (targets (update env0 dt_c state_pair))
     <> map t_vx (targets (updateDeferred env0 dt_c state_pair))
  /\ update env0 dt_c state_pair <> updateDeferred env0 dt_c state_pair.
Proof.
  rewrite update_scene, updateDeferred_scene.
  assert (D : t_vx (t_near_after (1225 / 1300))
              <> t_vx (t_near_after (1225 / 1300 + 9 / 10)))
    by (apply t_near_after_differs; lra).
  assert (M : map t_vx [t_near_after (1225 / 1300)]
              <> map t_vx [t_near_after (1225 / 1300 + 9 / 10)])
    by (cbn [map]; intros [= E]; now apply D).
  split; [reflexivity |]. split; [reflexivity |]. split.
  - exact M.
  - intros E. apply M. apply (f_equal targets) in E.
    cbn [targets state_c] in E. now rewrite E.
Qed.

Section ImmediateSplice.

Variable env : Env.
Variable dt : R.

Lemma removeNth_below {A : Type} (i j : nat) (l : list A) :
  (j < i)%nat -> nth_error (removeNth i l) j = nth_error l j.
Proof.
  revert i j; induction l as [| a l IH]; intros [| i] [| j] H; simpl;
    try easy; try lia.
  apply IH; lia.
Qed.

Lemma removeNth_length {A : Type} (i : nat) (l : list A) :
  (length (removeNth i l) <= length l)%nat.
Proof.
  revert i; induction l as [| a l IH]; intros [| i]; simpl; auto.
  specialize (IH i). lia.
Qed.

Lemma removeNth_valid {A : Type} (i : nat) (l : list A) (a : A) :
  nth_error l i = Some a -> S (length (removeNth i l)) = length l.
Proof.
  revert i; induction l as [| b l IH]; intros [| i] H; simpl in *;
    try discriminate; [reflexivity |].
  f_equal. now apply IH.
Qed.

Lemma removeNth_above {A : Type} (i j : nat) (l : list A) :
  (i <= j)%nat -> nth_error (removeNth i l) j = nth_error l (S j).
Proof.
  revert i j; induction l as [| a l IH]; intros i j H.
  - destruct i, j; reflexivity.
  - destruct i as [| i]; [reflexivity |].
    destruct j as [| j]; [lia |]. simpl. apply IH. lia.
Qed.

Lemma updateAll_player (n : nat) (s : State) :
  player (updateAll env dt n s) = player s.
Proof.
  revert s; induction n as [| n IH]; intros s; simpl; [reflexivity |].
  rewrite IH. destruct (updateTargetAI_frame env dt n s) as (E & _).
  unfold session in E. now injection E.
Qed.

(** The agents at the indices a pass has yet to reach keep their
    rectangles. *)
Lemma updateAll_above (n : nat) (s : State) (k : nat) (t : Target) :
  (n <= k)%nat -> nth_error (targets s) k = Some t ->
  exists t', nth_error (targets (updateAll env dt n s)) k = Some t'
             /\ evolves t t'.
Proof.
  revert s t; induction n as [| n IH]; intros s t Hk Ht; simpl.
  - exists t; split; [exact Ht | apply evolves_refl].
  - destruct (nth_error (targets s) n) as [t0 |] eqn:Hn.
    + destruct (updateTargetAI_result env dt n s t0 Hn)
        as (u & a & base & ts1 & _ & _ & _ & F & _ & E & _).
      destruct (Forall2_nth_error evolves k t _ _ F Ht) as (t1 & H1 & E1).
      destruct (IH (updateTargetAI env dt n s) t1) as (t' & H' & E');
        [lia | rewrite E, nth_error_setNth_other by lia; exact H1 |].
      exists t'; split; [exact H' | eapply evolves_trans; eauto].
    + rewrite (updateTargetAI_out_of_range env dt n s Hn).
      apply IH; [lia | exact Ht].
Qed.

Lemma caught_evolves (s s' : State) (t t' : Target) :
  player s' = player s -> evolves t t' -> caught s' t' = caught s t.
Proof.
  intros Hp (K & _). unfold caught, rectT. rewrite Hp.
  unfold kin in K. injection K as -> -> -> -> _ _. reflexivity.
Qed.

(** A pass that collects nothing is a plain pass over all agents. *)
Lemma collectLoop_no_catch (n : nat) (s : State) :
  Forall (fun t => caught (updateAll env dt n s) t = false)
         (targets (updateAll env dt n s)) ->
  collectLoop env dt n s = updateAll env dt n s.
Proof.
  revert s; induction n as [| n IH]; intros s HF; simpl; [reflexivity |].
  simpl in HF.
  assert (Es : collectStep env dt n s = updateTargetAI env dt n s).
  { unfold collectStep.
    destruct (nth_error (targets (updateTargetAI env dt n s)) n)
      as [t |] eqn:Hn; [| reflexivity].
    destruct (updateAll_above n (updateTargetAI env dt n s) n t
                (le_n n) Hn) as (t' & H' & E').
    rewrite Forall_forall in HF.
    pose proof (HF t' (nth_error_In _ _ H')) as C.
    rewrite (caught_evolves (updateTargetAI env dt n s) _ t t'
               (updateAll_player n _) E') in C.
    unfold caught in C. now rewrite C. }
  rewrite Es. now apply IH.
Qed.

Lemma filter_none {A : Type} (f : A -> bool) (l : list A) :
  Forall (fun t => f t = false) l ->
  filter f l = [] /\ filter (fun t => negb (f t)) l = l.
Proof.
  induction 1 as [| t l Ht Hl [IH1 IH2]]; simpl; [now split |].
  rewrite Ht. simpl. split; [exact IH1 | now f_equal].
Qed.

Lemma compact_no_catch (s : State) :
  Forall (fun t => caught s t = false) (targets s) -> compact s = s.
Proof.
  intros HF. unfold compact.
  destruct (filter_none (caught s) (targets s) HF) as [-> ->].
  simpl. rewrite Z.add_0_r. now destruct s.
Qed.

End ImmediateSplice.

(** C9, amended.  The AI update of an agent neither removes nor inserts
    agents.  One turn of the pass updates the agent at index [i]; when the
    agent then touches the player, the turn at once adds one to the score
    and splices it out, so that the array is one shorter and the agents
    behind it move down by one; when it does not, the turn is the update
    and nothing else.  Either way the agents at lower indices, which the
    pass has yet to visit, stay where they are in the array, and nothing is
    inserted; the pass goes on from the array as the turn left it.  The
    pass equals mark-then-compact whenever mark-then-compact collects
    nothing. *)
Theorem removal_is_immediate (env : Env) (dt : R) :
  (forall i s,
     let s1 := updateTargetAI env dt i s in
     let s2 := collectStep env dt i s in
     length (targets s1) = length (targets s)
     /\ (forall t, nth_error (targets s1) i = Some t ->
           (caught s1 t = true ->
              s2 = set_targets (add_score s1) (removeNth i (targets s1))
              /\ score s2 = (score s + 1)%Z
              /\ S (length (targets s2)) = length (targets s)
              /\ (forall j, (i <= j)%nat ->
                    nth_error (targets s2) j
                    = nth_error (targets s1) (S j)))
           /\ (caught s1 t = false -> s2 = s1))
     /\ (nth_error (targets s1) i = None -> s2 = s1)
     /\ (forall j, (j < i)%nat ->
           nth_error (targets s2) j = nth_error (targets s1) j)
     /\ (length (targets s2) <= length (targets s))%nat)
  /\ (forall n s,
        collectLoop env dt (S n) s
        = collectLoop env dt n (collectStep env dt n s))
  /\ (forall s,
        let all := updateAll env dt (length (targets s)) s in
        Forall (fun t => caught all t = false) (targets all) ->
        collectLoop env dt (length (targets s)) s = markThenCompact env dt s).
Proof.
  split; [| split].
  - intros i s s1 s2.
    destruct (updateTargetAI_frame env dt i s) as (_ & Hc & _ & Hl).
    fold s1 in Hl, Hc. split; [exact Hl |].
    assert (E : s2 = match nth_error (targets s1) i with
                     | None => s1
                     | Some t =>
                         if caught s1 t
                         then set_targets (add_score s1)
                                (removeNth i (targets s1))
                         else s1
                     end) by reflexivity.
    split; [| split; [| split]].
    + intros t Hn. rewrite Hn in E. split; intros C; rewrite C in E.
      * split; [exact E |]. rewrite E. simpl.
        split; [now rewrite Hc |].
        split; [rewrite <- Hl; eapply removeNth_valid; eauto |].
        intros j Hj. now apply removeNth_above.
      * exact E.
    + intros Hn. now rewrite Hn in E.
    + intros j Hj. rewrite E.
      destruct (nth_error (targets s1) i) as [t |]; [| reflexivity].
      destruct (caught s1 t); [| reflexivity].
      simpl. now apply removeNth_below.
    + rewrite E.
      destruct (nth_error (targets s1) i) as [t |]; [| lia].
      destruct (caught s1 t); [| lia].
      simpl. rewrite <- Hl. apply removeNth_length.
  - reflexivity.
  - intros s all HF. unfold markThenCompact. fold all.
    rewrite (compact_no_catch all HF). now apply collectLoop_no_catch.
Qed.

(** In the scene the agent on the player is collected in its own turn: the
    score goes from 0 to 1 and the agent below the player is left alone
    in the array.  With one agent out of reach of the player, the pass is
    mark-then-compact. *)
Lemma removal_is_immediate_witness :
  (caught (updateTargetAI env0 dt_c 1 state_pair) t_on' = true
   /\ score (collectStep env0 dt_c 1 state_pair) = 1%Z
   /\ targets (collectStep env0 dt_c 1 state_pair) = [t_near]
   /\ nth_error (targets (collectStep env0 dt_c 1 state_pair)) 0
      = nth_error (targets (updateTargetAI env0 dt_c 1 state_pair)) 0)
  /\ collectLoop env0 (1 / 100) 1 state1
     = markThenCompact env0 (1 / 100) state1.
Proof.
  split.
  - destruct (removal_is_immediate env0 dt_c) as (H & _ & _).
    destruct (H 1%nat state_pair) as (_ & Hc & _ & Hb & _).
    cbv zeta in Hc, Hb.
    assert (U : updateTargetAI env0 dt_c 1 state_pair
                = state_c 100 31 (heatNext 0) 0 [t_near; t_on'] 2)
      by (apply updateTargetAI_on).
    assert (C : caught (updateTargetAI env0 dt_c 1 state_pair) t_on' = true)
      by (rewrite U; apply t_on'_caught).
    destruct (Hc t_on') as [Hcaught _]; [now rewrite U |].
    destruct (Hcaught C) as (E & Hs & _ & _).
    split; [exact C |]. split; [exact Hs |].
    split; [rewrite E, U; reflexivity |].
    apply Hb. lia.
  - destruct (removal_is_immediate env0 (1 / 100)) as (_ & _ & H).
    apply (H state1).
    change (length (targets state1)) with 1%nat. cbn [updateAll].
    destruct (updateTargetAI_reach env0 (1 / 100) 0 state1 target0)
      as (t' & Hn & Ew & Eh & Hx & Hy);
      [reflexivity | unfold inArena; simpl; lra |].
    destruct (updateTargetAI_frame env0 (1 / 100) 0 state1)
      as (Hs & _ & _ & Hl).
    set (s2 := updateTargetAI env0 (1 / 100) 0 state1) in *.
    assert (Hp : player s2 = player0)
      by (unfold session in Hs; now injection Hs).
    destruct (targets s2) as [| a [| b l]]; simpl in *; try discriminate.
    injection Hn as ->. constructor; [| constructor].
    unfold caught. rewrite Hp. unfold rectsOverlap, reach in *. simpl in *.
    rewrite Ew, Eh. cfg. rewrite Rabs_pos_eq in Hx, Hy by lra.
    rewrite (Rltb_false (t_x t') (120 + 24)) by lra.
    rewrite ?andb_false_r. reflexivity.
Defined.

(** ** The first revision: speed cap and bounce *)

Section FirstRevision.

Variable player : Player.
Variable score : Z.
Variable now : R.

Lemma Rev1_capSpeed_bound (cap vx vy : R) :
  0 <= cap ->
  hypot (fst (Rev1.capSpeed cap vx vy)) (snd (Rev1.capSpeed cap vx vy)) <= cap.
Proof. intros H. exact (clampSpeed_bound cap vx vy H). Qed.

Lemma Rev1_stayInside_speed (t : Rev1.Target) :
  hypot (Rev1.vx (Rev1.stayInside t)) (Rev1.vy (Rev1.stayInside t))
  <= hypot (Rev1.vx t) (Rev1.vy t).
Proof.
  apply hypot_mono; unfold Rev1.stayInside; rdec; simpl; rabs.
Qed.

Lemma Rev1_wantSpeed_nonneg (t : Rev1.Target) :
  0 <= Rev1.baseSpeed t -> (0 <= score)%Z -> 0 <= Rev1.wantSpeed score t.
Proof.
  intros Hb Hs. unfold Rev1.wantSpeed.
  assert (0 <= Rmin 1 (IZR score * Rev1.CFG.SCORE_SPEED_BOOST)).
  { apply Rmin_glb; [lra |]. apply IZR_le in Hs.
    unfold Rev1.CFG.SCORE_SPEED_BOOST. nra. }
  nra.
Qed.

(** In the first revision too the velocity that an agent update leaves is
    within the cap of the frame, [min(maxSpeed, wantSpeed * dashMult)], and
    so within the maximum speed of the agent. *)
Lemma Rev1_velocity_within_cap (t : Rev1.Target) (dt : R) (g : Rng) :
  0 <= Rev1.maxSpeed t -> 0 <= Rev1.baseSpeed t -> (0 <= score)%Z ->
  let t' := fst (Rev1.updateTargetAI player score now t dt g) in
  hypot (Rev1.vx t') (Rev1.vy t') <= Rev1.maxSpeed t
  /\ hypot (Rev1.vx t') (Rev1.vy t')
     <= Rev1.wantSpeed score t * (18 / 10).
Proof.
  intros Hm Hb Hs.
  pose proof (Rev1_wantSpeed_nonneg t Hb Hs) as Hw.
  unfold Rev1.updateTargetAI. split_lets. simpl fst.
  match goal with
  | H : Rev1.capSpeed ?c ?a ?b = (?v1, ?v2) |- _ =>
      assert (Hc : 0 <= c /\ c <= Rev1.maxSpeed t
                   /\ c <= Rev1.wantSpeed score t * (18 / 10));
      [| destruct Hc as (Hc & C1 & C2);
         pose proof (Rev1_capSpeed_bound c a b Hc) as B;
         rewrite H in B; simpl in B]
  end.
  - match goal with
    | |- context [if ?c then 18 / 10 else 1] =>
        set (dashMult := if c then 18 / 10 else 1);
        assert (Hd : 1 <= dashMult <= 18 / 10)
          by (subst dashMult; destruct c; lra)
    end.
    split; [apply Rmin_glb; nra |]. split; [apply Rmin_l |].
    eapply Rle_trans; [apply Rmin_r | nra].
  - match goal with
    | |- context [Rev1.stayInside ?u] =>
        pose proof (Rev1_stayInside_speed u) as S; simpl in S
    end.
    split; lra.
Qed.

(** The bounce of the first revision is the bounce of the last one. *)
Lemma Rev1_bounce_left (t : Rev1.Target) :
  Rev1.w t <= Rev1.CFG.CANVAS_W -> Rev1.x t < 0 ->
  Rev1.x (Rev1.stayInside t) = 0
  /\ Rev1.vx (Rev1.stayInside t) = Rabs (Rev1.vx t) * (7 / 10).
Proof.
  intros Hw Hx. unfold Rev1.stayInside; rdec; simpl; split; lra.
Qed.

End FirstRevision.

(** ** Booting the concrete session *)

Lemma spawnToCap_below (env : Env) (cap : Z) (s : State) :
  (Z.of_nat (length (targets s)) < cap)%Z ->
  spawnToCap env cap s = spawnToCap env cap (push_spawn env s).
Proof.
  intros H. funelim (spawnToCap env cap s); [reflexivity | lia].
Qed.

Lemma spawn_first_try :
  spawnAvoidingPlayer env0 player0 rng_half = (target0, rng_at 2).
Proof.
  unfold spawnAvoidingPlayer. rewrite spawnAttempts_S.
  unfold makeTarget, rectsOverlap. cbn -[spawnAttempts]. cfg. rcmp. cbn -[spawnAttempts].
  unfold target0, rng_at. repeat (f_equal; try lra).
Qed.

(** [boot] with the oracle at one half leaves the first wave. *)
Lemma boot_state : restart env0 state0 = state1.
Proof.
  unfold restart.
  assert (C : forall s, elapsed s = 0 -> targetCap s = 1%Z).
  { intros s E. unfold targetCap. rewrite E. apply capAt_zero.
    unfold CFG.TIME_STEP_SEC. lra. }
  rewrite C by reflexivity.
  rewrite spawnToCap_below by (cbn [targets length]; lia).
  unfold push_spawn. cbn [player rng state0].
  rewrite spawn_first_try.
  rewrite spawnToCap_full by (cbn [targets set_rng set_targets length app]; lia).
  reflexivity.
Qed.

(** * Further properties of the code *)

(** ** Key listeners *)

Lemma Key_eqb_eq (a b : Key) : Key_eqb a b = true <-> a = b.
Proof. destruct a, b; simpl; split; intros H; try reflexivity; discriminate. Qed.

Lemma Key_eqb_refl (a : Key) : Key_eqb a a = true.
Proof. now destruct a. Qed.

Lemma Key_eqb_neq (a b : Key) : a <> b -> Key_eqb a b = false.
Proof.
  intros N. destruct (Key_eqb a b) eqn:E; [| reflexivity].
  apply Key_eqb_eq in E. contradiction.
Qed.

Lemma has_app (ks ks' : list Key) (k : Key) :
  has (ks ++ ks') k = has ks k || has ks' k.
Proof. unfold has. apply existsb_app. Qed.

Lemma has_add (ks : list Key) (k k' : Key) :
  has (keys_add ks k) k' = Key_eqb k' k || has ks k'.
Proof.
  unfold keys_add. destruct (has ks k) eqn:E.
  - destruct (Key_eqb k' k) eqn:K; [| reflexivity].
    apply Key_eqb_eq in K. subst. now rewrite E.
  - rewrite has_app. simpl. rewrite orb_false_r. apply orb_comm.
Qed.

Lemma has_delete (ks : list Key) (k k' : Key) :
  has (keys_delete ks k) k' = negb (Key_eqb k' k) && has ks k'.
Proof.
  unfold keys_delete, has. induction ks as [| a ks IH]; simpl.
  - now rewrite andb_false_r.
  - destruct (Key_eqb k a) eqn:E; simpl.
    + apply Key_eqb_eq in E. subst a. rewrite IH.
      destruct (Key_eqb k' k); reflexivity.
    + rewrite IH. destruct (Key_eqb k' a) eqn:E'; simpl.
      * apply Key_eqb_eq in E'. subst a.
        destruct (Key_eqb k' k) eqn:E2; [| reflexivity].
        apply Key_eqb_eq in E2. subst. now rewrite Key_eqb_refl in E.
      * reflexivity.
Qed.

(** The key listeners keep a set of held directions.  A code the game
    maps makes its key held on [keydown] and not held on [keyup], and
    changes no other key; a code it does not map changes nothing. *)
Lemma key_listeners_set (code : string) (ks : list Key) :
  match mapKey code with
  | Some k =>
      has (keydown code ks) k = true
      /\ has (keyup code ks) k = false
      /\ (forall k', k' <> k ->
            has (keydown code ks) k' = has ks k'
            /\ has (keyup code ks) k' = has ks k')
      /\ keydown code (keydown code ks) = keydown code ks
  | None => keydown code ks = ks /\ keyup code ks = ks
  end.
Proof.
  unfold keydown, keyup. destruct (mapKey code) as [k |]; [| now split].
  split; [| split; [| split]].
  - now rewrite has_add, Key_eqb_refl.
  - now rewrite has_delete, Key_eqb_refl.
  - intros k' N. rewrite has_add, has_delete, (Key_eqb_neq k' k N).
    now split.
  - unfold keys_add at 1. now rewrite has_add, Key_eqb_refl.
Qed.

(** X1.  Two codes of one key are not counted: when both are down, letting go
    of either one releases the key, and the direction with it.  The other
    keys are held or not as they were. *)
Theorem releasing_one_alias_releases_the_key (c1 c2 : string)
  (k : Key) (ks : list Key) :
  mapKey c1 = Some k -> mapKey c2 = Some k ->
  has (keydown c2 (keydown c1 ks)) k = true
  /\ has (keyup c1 (keydown c2 (keydown c1 ks))) k = false
  /\ has (keyup c2 (keydown c2 (keydown c1 ks))) k = false
  /\ (forall k', k' <> k ->
        has (keyup c1 (keydown c2 (keydown c1 ks))) k' = has ks k').
Proof.
  intros H1 H2. unfold keydown, keyup. rewrite H1, H2.
  rewrite !has_delete, !has_add, Key_eqb_refl.
  split; [reflexivity |]. split; [reflexivity |]. split; [reflexivity |].
  intros k' N. rewrite has_delete, !has_add, (Key_eqb_neq k' k N).
  reflexivity.
Qed.

Lemma releasing_one_alias_releases_the_key_witness :
  has (keydown "ArrowUp" (keydown "KeyW" [])) up_key = true
  /\ readInput (keyup "KeyW" (keydown "ArrowUp" (keydown "KeyW" [])))
     = (0, 0).
Proof.
  destruct (releasing_one_alias_releases_the_key "KeyW" "ArrowUp" up_key []
              eq_refl eq_refl) as (H1 & H2 & _ & _).
  split; [exact H1 |]. apply readInput_idle.
Defined.

(** ** Input, overlap and the movement of the player *)

Lemma truthy2_false (a b : R) : truthy2 a b = false -> a = 0 /\ b = 0.
Proof.
  unfold truthy2, Reqb.
  destruct (Req_dec_T a 0), (Req_dec_T b 0); simpl; intros H;
    try discriminate; now split.
Qed.

Lemma truthy2_true (a b : R) : truthy2 a b = true -> hypot a b <> 0.
Proof.
  unfold truthy2, Reqb. intros H E.
  destruct (hypot_eq_zero _ _ E) as [-> ->].
  destruct (Req_dec_T 0 0); [discriminate | contradiction].
Qed.

Lemma div_pos_zero (a l : R) : 0 < l -> (a / l = 0 <-> a = 0).
Proof.
  intros Hl. split; intros H.
  - apply (Rmult_eq_reg_r (/ l)); [| apply Rinv_neq_0_compat; lra].
    unfold Rdiv in H. lra.
  - subst. unfold Rdiv. ring.
Qed.

Lemma div_pos_neg (a l : R) : 0 < l -> (a / l < 0 <-> a < 0).
Proof.
  intros Hl. pose proof (Rinv_0_lt_compat l Hl) as Hi. unfold Rdiv.
  split; intros H; nra.
Qed.

Lemma normalized_input (dx dy : R) :
  let r := if truthy2 dx dy
           then let l := orElse (hypot dx dy) 1 in (dx / l, dy / l)
           else (dx, dy) in
  (hypot (fst r) (snd r) = 0 \/ hypot (fst r) (snd r) = 1)
  /\ (fst r = 0 <-> dx = 0) /\ (snd r = 0 <-> dy = 0)
  /\ (fst r < 0 <-> dx < 0) /\ (snd r < 0 <-> dy < 0).
Proof.
  destruct (truthy2 dx dy) eqn:T; cbv zeta.
  - pose proof (truthy2_true _ _ T) as N.
    fold (len dx dy). pose proof (len_pos dx dy) as L. simpl.
    split; [right; now apply hypot_div_len |].
    split; [now apply div_pos_zero |]. split; [now apply div_pos_zero |].
    split; now apply div_pos_neg.
  - destruct (truthy2_false _ _ T) as [-> ->]. simpl.
    split; [left; apply hypot_zero |]. repeat split; auto.
Qed.

Lemma readInput_shape (ks : list Key) :
  let dx := fst (readInput ks) in
  let dy := snd (readInput ks) in
  (hypot dx dy = 0 \/ hypot dx dy = 1)
  /\ (dx = 0 <-> has ks left_key = has ks right_key)
  /\ (dy = 0 <-> has ks up_key = has ks down_key)
  /\ (dx < 0 <-> has ks left_key = true /\ has ks right_key = false)
  /\ (dy < 0 <-> has ks up_key = true /\ has ks down_key = false).
Proof.
  unfold readInput. cbv zeta.
  match goal with
  | |- context [truthy2 ?a ?b] =>
      destruct (normalized_input a b) as (H0 & H1 & H2 & H3 & H4)
  end.
  cbv zeta in H0, H1, H2, H3, H4.
  split; [exact H0 |].
  rewrite H1, H2, H3, H4.
  destruct (has ks up_key), (has ks down_key), (has ks left_key),
    (has ks right_key);
    repeat split; intros; try lra; try discriminate; try tauto;
    try reflexivity;
    try (match goal with H : _ /\ _ |- _ => destruct H; discriminate end).
Qed.

(** X2.  [readInput] returns the zero vector or a unit vector: a diagonal is no
    faster than a straight line.  Opposite keys cancel, and the sign of
    each component is that of the key held alone. *)
Theorem readInput_is_zero_or_unit (ks : list Key) :
  let dx := fst (readInput ks) in
  let dy := snd (readInput ks) in
  (hypot dx dy = 0 \/ hypot dx dy = 1)
  /\ (dx = 0 <-> has ks left_key = has ks right_key)
  /\ (dy = 0 <-> has ks up_key = has ks down_key)
  /\ (dx < 0 <-> has ks left_key = true /\ has ks right_key = false)
  /\ (dy < 0 <-> has ks up_key = true /\ has ks down_key = false).
Proof. exact (readInput_shape ks). Qed.

Lemma readInput_bounds (ks : list Key) :
  Rabs (fst (readInput ks)) <= 1 /\ Rabs (snd (readInput ks)) <= 1.
Proof.
  pose proof (readInput_shape ks) as (U & _). cbv zeta in U.
  pose proof (Rabs_le_hypot_x (fst (readInput ks)) (snd (readInput ks))).
  pose proof (Rabs_le_hypot_y (fst (readInput ks)) (snd (readInput ks))).
  destruct U as [U | U]; rewrite U in *; split; lra.
Qed.

(** ** clamp *)

Lemma clamp_cases (v lo hi : R) :
  lo <= hi ->
  lo <= clamp v lo hi <= hi
  /\ (lo <= v <= hi -> clamp v lo hi = v)
  /\ (v <= lo -> clamp v lo hi = lo)
  /\ (hi <= v -> clamp v lo hi = hi).
Proof.
  intros H. unfold clamp, Rmax, Rmin.
  destruct (Rle_dec hi v); destruct (Rle_dec lo _);
    repeat split; intros; lra.
Qed.

(** ** rectsOverlap *)

(** X3.  The overlap test is symmetric and strict: rectangles that only share
    an edge do not overlap, and a rectangle overlaps itself exactly when
    it has positive width and height. *)
Theorem rectsOverlap_symmetric_and_strict (a b : Rect) :
  rectsOverlap a b = rectsOverlap b a
  /\ (rectsOverlap a b = true <->
      r_x a < r_x b + r_w b /\ r_x b < r_x a + r_w a
      /\ r_y a < r_y b + r_h b /\ r_y b < r_y a + r_h a)
  /\ (r_x a + r_w a = r_x b \/ r_x b + r_w b = r_x a
      \/ r_y a + r_h a = r_y b \/ r_y b + r_h b = r_y a ->
      rectsOverlap a b = false)
  /\ (rectsOverlap a a = true <-> 0 < r_w a /\ 0 < r_h a).
Proof.
  assert (Iff : forall a b, rectsOverlap a b = true <->
      r_x a < r_x b + r_w b /\ r_x b < r_x a + r_w a
      /\ r_y a < r_y b + r_h b /\ r_y b < r_y a + r_h a).
  { intros u v. unfold rectsOverlap. rewrite !andb_true_iff, !Rltb_lt.
    tauto. }
  split; [| split; [| split]].
  - destruct (rectsOverlap a b) eqn:E1, (rectsOverlap b a) eqn:E2;
      try reflexivity.
    + apply Iff in E1. assert (E : rectsOverlap b a = true)
        by (apply Iff; tauto). congruence.
    + apply Iff in E2. assert (E : rectsOverlap a b = true)
        by (apply Iff; tauto). congruence.
  - apply Iff.
  - intros H. destruct (rectsOverlap a b) eqn:E; [| reflexivity].
    apply Iff in E. lra.
  - rewrite Iff. lra.
Qed.

Lemma rectsOverlap_symmetric_and_strict_witness :
  rectsOverlap (mkRect 0 0 24 24) (mkRect 24 0 24 24) = false
  /\ rectsOverlap (mkRect 0 0 24 24) (mkRect 23 0 24 24) = true.
Proof.
  destruct (rectsOverlap_symmetric_and_strict (mkRect 0 0 24 24)
              (mkRect 24 0 24 24)) as (_ & _ & T & _).
  destruct (rectsOverlap_symmetric_and_strict (mkRect 0 0 24 24)
              (mkRect 23 0 24 24)) as (_ & I & _ & _).
  split; [apply T; left; simpl; lra | apply I; simpl; lra].
Defined.

(** ** Player movement *)

Lemma movePlayer_shape (env : Env) (dt : R) (p : Player)
  (ks : list Key) :
  p_w p <= canvas_width env -> p_h p <= canvas_height env ->
  let p' := movePlayer env dt p ks in
  0 <= p_x p' <= canvas_width env - p_w p'
  /\ 0 <= p_y p' <= canvas_height env - p_h p'
  /\ p_w p' = p_w p /\ p_h p' = p_h p /\ p_speed p' = p_speed p
  /\ (0 <= p_x p <= canvas_width env - p_w p ->
      Rabs (p_x p' - p_x p) <= Rabs (p_speed p * dt))
  /\ (0 <= p_y p <= canvas_height env - p_h p ->
      Rabs (p_y p' - p_y p) <= Rabs (p_speed p * dt)).
Proof.
  intros Hw Hh p'.
  pose proof (readInput_bounds ks) as B.
  unfold p', movePlayer. destruct (readInput ks) as [dx dy]. simpl in *.
  destruct B as [Bx By].
  destruct (clamp_cases (p_x p + dx * p_speed p * dt) 0
              (canvas_width env - p_w p) ltac:(lra)) as (Cx & Ix & Lx & Hx).
  destruct (clamp_cases (p_y p + dy * p_speed p * dt) 0
              (canvas_height env - p_h p) ltac:(lra)) as (Cy & Iy & Ly & Hy).
  split; [exact Cx |]. split; [exact Cy |].
  split; [reflexivity |]. split; [reflexivity |]. split; [reflexivity |].
  assert (M : forall d, Rabs d <= 1 ->
                Rabs (d * p_speed p * dt) <= Rabs (p_speed p * dt)).
  { intros d Hd. replace (d * p_speed p * dt) with (d * (p_speed p * dt)) by ring.
    rewrite Rabs_mult. pose proof (Rabs_pos (p_speed p * dt)). nra. }
  split.
  - intros Hin. pose proof (M dx Bx) as Mx.
    set (q := p_x p + dx * p_speed p * dt) in *.
    assert (Dq : q - p_x p = dx * p_speed p * dt) by (unfold q; ring).
    rewrite <- Dq in Mx.
    destruct (Rle_dec q 0) as [L0 |]; [rewrite (Lx L0) |
      destruct (Rle_dec (canvas_width env - p_w p) q) as [H1 |];
        [rewrite (Hx H1) | rewrite Ix by lra; exact Mx]];
      revert Mx; unfold Rabs;
      repeat match goal with
             | |- context [Rcase_abs ?a] => destruct (Rcase_abs a)
             end; lra.
  - intros Hin. pose proof (M dy By) as My.
    set (q := p_y p + dy * p_speed p * dt) in *.
    assert (Dq : q - p_y p = dy * p_speed p * dt) by (unfold q; ring).
    rewrite <- Dq in My.
    destruct (Rle_dec q 0) as [L0 |]; [rewrite (Ly L0) |
      destruct (Rle_dec (canvas_height env - p_h p) q) as [H1 |];
        [rewrite (Hy H1) | rewrite Iy by lra; exact My]];
      revert My; unfold Rabs;
      repeat match goal with
             | |- context [Rcase_abs ?a] => destruct (Rcase_abs a)
             end; lra.
Qed.

(** X4.  The movement of the player in a tick: on a canvas no smaller than the
    player it ends inside the canvas, wherever it started; it keeps its
    size and speed; from inside the canvas it moves by at most
    [speed * |dt|] along each axis, and not at all with no direction
    held. *)
Theorem player_stays_on_canvas (env : Env) (dt : R) (p : Player)
  (ks : list Key) :
  p_w p <= canvas_width env -> p_h p <= canvas_height env ->
  let p' := movePlayer env dt p ks in
  0 <= p_x p' <= canvas_width env - p_w p'
  /\ 0 <= p_y p' <= canvas_height env - p_h p'
  /\ p_w p' = p_w p /\ p_h p' = p_h p /\ p_speed p' = p_speed p
  /\ (0 <= p_x p <= canvas_width env - p_w p ->
      Rabs (p_x p' - p_x p) <= Rabs (p_speed p * dt))
  /\ (0 <= p_y p <= canvas_height env - p_h p ->
      Rabs (p_y p' - p_y p) <= Rabs (p_speed p * dt)).
Proof. exact (movePlayer_shape env dt p ks). Qed.

Lemma player_stays_on_canvas_witness :
  0 <= p_x (movePlayer env0 (1 / 100) player0 [left_key])
  <= canvas_width env0 - p_w (movePlayer env0 (1 / 100) player0 [left_key]).
Proof.
  destruct (player_stays_on_canvas env0 (1 / 100) player0 [left_key])
    as (H & _); [simpl; cfg; lra | simpl; cfg; lra |].
  exact H.
Defined.

(** ** Health, score and waves *)

Section Frames2.

Variable env : Env.

Lemma push_spawn_rest (s : State) :
  heat (push_spawn env s) = heat s
  /\ sect_assigned (push_spawn env s) = sect_assigned s.
Proof. unfold push_spawn; split_lets; split; reflexivity. Qed.

Lemma spawnToCap_rest (cap : Z) (s : State) :
  heat (spawnToCap env cap s) = heat s
  /\ sect_assigned (spawnToCap env cap s) = sect_assigned s.
Proof.
  apply (spawnToCap_invariant env
           (fun s' => heat s' = heat s
                      /\ sect_assigned s' = sect_assigned s));
    [| now split].
  intros s' [H1 H2]. destruct (push_spawn_rest s') as [-> ->]. now split.
Qed.

Lemma collectStep_count (dt : R) (i : nat) (s : State) :
  (score (collectStep env dt i s)
   + Z.of_nat (length (targets (collectStep env dt i s)))
   = score s + Z.of_nat (length (targets s)))%Z.
Proof.
  unfold collectStep.
  destruct (updateTargetAI_frame env dt i s) as (_ & Hc & _ & Hl).
  destruct (nth_error _ i) as [t |] eqn:Hn; [| lia].
  destruct (rectsOverlap _ _); [| lia].
  simpl. pose proof (removeNth_valid _ _ _ Hn). lia.
Qed.

Lemma collectLoop_count (dt : R) (n : nat) (s : State) :
  (score (collectLoop env dt n s)
   + Z.of_nat (length (targets (collectLoop env dt n s)))
   = score s + Z.of_nat (length (targets s)))%Z.
Proof.
  revert s; induction n as [| n IH]; intros s; simpl; [reflexivity |].
  rewrite IH. apply collectStep_count.
Qed.

Lemma collectStep_score (dt : R) (i : nat) (s : State) :
  (score s <= score (collectStep env dt i s))%Z.
Proof.
  unfold collectStep.
  destruct (updateTargetAI_frame env dt i s) as (_ & Hc & _ & Hl).
  destruct (nth_error _ i) as [t |] eqn:Hn; [| lia].
  destruct (rectsOverlap _ _); simpl; lia.
Qed.

Lemma collectLoop_score (dt : R) (n : nat) (s : State) :
  (score s <= score (collectLoop env dt n s))%Z.
Proof.
  revert s; induction n as [| n IH]; intros s; simpl; [lia |].
  pose proof (IH (collectStep env dt n s)).
  pose proof (collectStep_score dt n s). lia.
Qed.

Lemma refillOnClear_score (s : State) :
  score (refillOnClear env s) = score s.
Proof.
  unfold refillOnClear. destruct (targets s); [| reflexivity].
  now rewrite spawnToCap_score.
Qed.

Lemma drained_range (s : State) (dt : R) :
  0 <= drained s dt <= CFG.HEALTH_MAX.
Proof.
  unfold drained.
  destruct (clamp_cases (hp s - CFG.HEALTH_DECAY_PER_SEC * dt) 0
              CFG.HEALTH_MAX) as (H & _); [cfg; lra | exact H].
Qed.

Lemma refillOnClear_hp (s : State) :
  0 < hp s <= CFG.HEALTH_MAX ->
  hp (refillOnClear env s)
  = match targets s with [] => CFG.HEALTH_MAX | _ :: _ => hp s end.
Proof.
  intros H. unfold refillOnClear. destruct (targets s); [| reflexivity].
  match goal with
  | |- context [spawnToCap env ?c ?s1] =>
      pose proof (spawnToCap_session env c s1) as E
  end.
  unfold session in E. injection E as _ _ -> _ _. simpl.
  destruct (clamp_cases (hp s + CFG.HEALTH_REFILL_ON_CLEAR) 0
              CFG.HEALTH_MAX) as (_ & _ & _ & Hi); [cfg; lra |].
  apply Hi. cfg; lra.
Qed.

End Frames2.

Lemma update_health (env : Env) (dt : R) (s : State) :
  alive s = true ->
  let s' := update env dt s in
  0 <= hp s' <= CFG.HEALTH_MAX
  /\ (alive s' = false <-> drained s dt = 0)
  /\ (alive s' = false <-> hp s' = 0)
  /\ (drained s dt = 0 ->
      s' = mkState (player s) (keys s) (score s) 0 false (elapsed s + dt)
                   (targets s) (heat s) (sect_assigned s) (rng s))
  /\ (0 < drained s dt ->
      hp s' = match targets (capturePass env dt s (drained s dt)) with
              | [] => CFG.HEALTH_MAX
              | _ :: _ => drained s dt
              end).
Proof.
  intros Ha s'. pose proof (drained_range s dt) as Hr.
  unfold s', update. rewrite Ha. cbn [negb]. fold (drained s dt).
  destruct (Rle_dec (drained s dt) 0) as [Z | P].
  - assert (E : drained s dt = 0) by lra.
    rewrite (Rleb_true _ _ Z). simpl. rewrite E.
    split; [cfg; lra |]. repeat split; auto; lra.
  - assert (Pos : 0 < drained s dt) by lra.
    rewrite (Rleb_false _ _ Pos).
    set (mid := capturePass env dt s (drained s dt)).
    destruct (capturePass_frame env dt s (drained s dt)) as [Hm _].
    fold mid in Hm. unfold session in Hm. injection Hm as _ _ Hhp Hal _.
    destruct (refillOnClear_session env mid) as (_ & _ & Hal' & _).
    assert (Hh : hp (refillOnClear env mid)
                 = match targets mid with
                   | [] => CFG.HEALTH_MAX | _ :: _ => hp mid end)
      by (apply refillOnClear_hp; rewrite Hhp; lra).
    assert (Hpos : 0 < hp (refillOnClear env mid) <= CFG.HEALTH_MAX).
    { rewrite Hh. destruct (targets mid); [cfg; lra | rewrite Hhp; lra]. }
    split; [lra |]. rewrite Hal', Hal, Ha.
    split; [split; [discriminate | lra] |].
    split; [split; [discriminate | lra] |].
    split; [lra |]. intros _. rewrite Hh.
    destruct (targets mid); [reflexivity | exact Hhp].
Qed.

(** X5.  Health.  A tick of a live session leaves the health between 0 and the
    maximum.  The session ends exactly when the drained health is zero; on
    that tick nothing else happens: the player and the agents stay where
    they are and nothing is collected, but the elapsed time still
    advances.  Otherwise the health is the drained health, or the maximum
    when the tick cleared the wave. *)
Theorem health_drains_and_ends_the_session (env : Env) (dt : R) (s : State) :
  alive s = true ->
  let s' := update env dt s in
  0 <= hp s' <= CFG.HEALTH_MAX
  /\ (alive s' = false <-> drained s dt = 0)
  /\ (alive s' = false <-> hp s' = 0)
  /\ (drained s dt = 0 ->
      s' = mkState (player s) (keys s) (score s) 0 false (elapsed s + dt)
                   (targets s) (heat s) (sect_assigned s) (rng s))
  /\ (0 < drained s dt ->
      hp s' = match targets (capturePass env dt s (drained s dt)) with
              | [] => CFG.HEALTH_MAX
              | _ :: _ => drained s dt
              end).
Proof. exact (update_health env dt s). Qed.

Lemma health_drains_and_ends_the_session_witness :
  0 <= hp (update env0 (1 / 100) state1) <= CFG.HEALTH_MAX.
Proof.
  destruct (health_drains_and_ends_the_session env0 (1 / 100) state1 eq_refl)
    as (H & _).
  exact H.
Defined.

Lemma update_live (env : Env) (dt : R) (s : State) :
  alive s = true -> 0 < drained s dt ->
  update env dt s
  = refillOnClear env (capturePass env dt s (drained s dt)).
Proof.
  intros Ha Hp. unfold update. rewrite Ha. cbn [negb].
  fold (drained s dt). now rewrite (Rleb_false _ _ Hp).
Qed.

Lemma capturePass_count (env : Env) (dt : R) (s : State) (hp' : R) :
  let pass := capturePass env dt s hp' in
  (score pass + Z.of_nat (length (targets pass))
   = score s + Z.of_nat (length (targets s)))%Z
  /\ (score s <= score pass)%Z.
Proof.
  unfold capturePass. cbv zeta. split.
  - now rewrite collectLoop_count.
  - match goal with
    | |- context [collectLoop env dt ?n ?s1] =>
        pose proof (collectLoop_score env dt n s1) as M
    end. exact M.
Qed.

(** X6.  Score.  In a tick that goes on to the pass, the score grows by
    exactly the number of agents the pass removes, and the pass removes
    agents only; the refill changes no score. *)
Theorem score_counts_the_collected_agents (env : Env) (dt : R) (s : State) :
  alive s = true -> 0 < drained s dt ->
  let pass := capturePass env dt s (drained s dt) in
  (length (targets pass) <= length (targets s))%nat
  /\ (score (update env dt s)
      = score s + (Z.of_nat (length (targets s))
                   - Z.of_nat (length (targets pass))))%Z
  /\ (score s <= score (update env dt s)
      <= score s + Z.of_nat (length (targets s)))%Z.
Proof.
  intros Ha Hp pass.
  rewrite (update_live env dt s Ha Hp), refillOnClear_score. fold pass.
  destruct (capturePass_count env dt s (drained s dt)) as [C M].
  fold pass in C, M. lia.
Qed.

Lemma score_counts_the_collected_agents_witness :
  (score (update env0 (1 / 100) state_caught) = 0 + (1 - 0))%Z.
Proof.
  assert (Hp : 0 < drained state_caught (1 / 100)).
  { unfold drained. rewrite clamp_inside; simpl; cfg; lra. }
  destruct (score_counts_the_collected_agents env0 (1 / 100) state_caught
              eq_refl Hp) as (_ & H & _).
  unfold drained in H. rewrite state_caught_cleared in H. exact H.
Defined.

(** X7.  No respawn in the middle of a wave.  When the pass of a tick leaves at
    least one agent, the tick ends there: nothing is spawned and the health
    is not refilled, whatever the cap has grown to.  The number of agents
    only goes down until the wave is cleared. *)
Theorem no_respawn_before_the_wave_is_cleared (env : Env) (dt : R)
  (s : State) :
  alive s = true -> 0 < drained s dt ->
  targets (capturePass env dt s (drained s dt)) <> [] ->
  update env dt s = capturePass env dt s (drained s dt)
  /\ hp (update env dt s) = drained s dt
  /\ (length (targets (update env dt s)) <= length (targets s))%nat.
Proof.
  intros Ha Hp Hne.
  destruct (capturePass_count env dt s (drained s dt)) as [C M].
  cbv zeta in C, M.
  assert (Hl : (length (targets (capturePass env dt s (drained s dt)))
                <= length (targets s))%nat) by lia.
  assert (E : update env dt s = capturePass env dt s (drained s dt)).
  { rewrite (update_live env dt s Ha Hp). unfold refillOnClear.
    destruct (targets (capturePass env dt s (drained s dt)));
      [contradiction | reflexivity]. }
  rewrite E. split; [reflexivity |]. split; [| exact Hl].
  destruct (capturePass_frame env dt s (drained s dt)) as [Hm _].
  unfold session in Hm. now injection Hm.
Qed.

Lemma state_late_not_caught :
  exists t, targets (capturePass env0 (1 / 100) state_late
                       (drained state_late (1 / 100))) = [t].
Proof.
  unfold capturePass.
  rewrite movePlayer_idle by (simpl; cfg; lra).
  set (s1 := mkState _ _ _ _ _ _ _ _ _ _).
  change (length (targets s1)) with 1%nat. cbn [collectLoop].
  unfold collectStep.
  destruct (updateTargetAI_reach env0 (1 / 100) 0 s1 target0)
    as (t' & Hn & Ew & Eh & Hx & Hy);
    [reflexivity | unfold inArena; simpl; lra |].
  destruct (updateTargetAI_frame env0 (1 / 100) 0 s1) as (Hs & _ & _ & Hl).
  set (s2 := updateTargetAI env0 (1 / 100) 0 s1) in *.
  rewrite Hn.
  assert (Hp : player s2 = player0)
    by (unfold session in Hs; now injection Hs).
  assert (Ov : rectsOverlap (rectP (player s2)) (rectT t') = false).
  { rewrite Hp. unfold rectsOverlap, reach in *. simpl in *.
    rewrite Ew, Eh. cfg. rewrite Rabs_pos_eq in Hx, Hy by lra.
    rewrite (Rltb_false (t_x t') (120 + 24)) by lra.
    now rewrite ?andb_false_r. }
  rewrite Ov. exists t'.
  destruct (targets s2) as [| a [| b l]]; simpl in *; try discriminate.
  now injection Hn as ->.
Qed.

Lemma no_respawn_before_the_wave_is_cleared_witness :
  length (targets (update env0 (1 / 100) state_late)) = 1%nat
  /\ targetCap (update env0 (1 / 100) state_late) = 2%Z.
Proof.
  destruct state_late_not_caught as (t & Ht).
  assert (Hp : 0 < drained state_late (1 / 100))
    by (unfold drained; rewrite clamp_inside; simpl; cfg; lra).
  destruct (no_respawn_before_the_wave_is_cleared env0 (1 / 100) state_late
              eq_refl Hp) as (E & _ & _).
  { rewrite Ht. discriminate. }
  rewrite E. split; [now rewrite Ht |].
  destruct (capturePass_frame env0 (1 / 100) state_late
              (drained state_late (1 / 100))) as [Hm _].
  unfold session in Hm. injection Hm as _ _ _ _ He.
  unfold targetCap. rewrite He. simpl. unfold capAt. cfg.
  replace ((2999 / 100 + 5 / 1000 + 1 / 100) / 30)
    with (1 + 5 / 30000) by field.
  rewrite (Zfloor_eq 1); [reflexivity | simpl; lra].
Defined.

Lemma restart_wave (env : Env) (s : State) :
  let s' := restart env s in
  length (targets s') = 1%nat
  /\ keys s' = keys s /\ heat s' = heat s
  /\ sect_assigned s' = sect_assigned s
  /\ Forall (fun t => t_ai t = None /\ t_vx t = 0 /\ t_vy t = 0
                      /\ t_w t = CFG.TARGET_SIZE /\ t_h t = CFG.TARGET_SIZE)
            (targets s').
Proof.
  unfold restart. cbv zeta.
  set (s0 := mkState _ _ _ _ _ _ _ _ _ _) in *.
  pose proof (spawnToCap_session env (targetCap s0) s0) as Hses.
  unfold session in Hses. injection Hses as _ Hks _ _ _.
  destruct (spawnToCap_rest env (targetCap s0) s0) as [Hheat Hsec].
  assert (Hcap : targetCap s0 = 1%Z).
  { unfold targetCap. simpl. apply capAt_zero. cfg; lra. }
  split; [| split; [exact Hks | split; [exact Hheat | split; [exact Hsec |]]]].
  - apply Nat2Z.inj. rewrite spawnToCap_length; [now rewrite Hcap |].
    simpl. rewrite Hcap. lia.
  - destruct (spawnToCap_appends env
                (fun t => t_ai t = None /\ t_vx t = 0 /\ t_vy t = 0
                          /\ t_w t = CFG.TARGET_SIZE
                          /\ t_h t = CFG.TARGET_SIZE) (targetCap s0) s0)
      as (_ & new & -> & HF); [| exact HF].
    intros g _. unfold spawnAvoidingPlayer.
    destruct (spawnAttempts_spec env 20 (player s0) g)
      as [(k & _ & _ & _ & ->) | (_ & ->)].
    + unfold attempt, makeTarget. simpl. repeat split.
    + unfold spawnFallback. simpl. repeat split.
Qed.

(** X8.  Restart.  In a session that is over, a tick with the space bar held
    starts a new one: score 0, full health, elapsed time 0 and a first wave
    of exactly one fresh agent.  The player stays where it was, and neither
    the heat field nor the sector assignment is reset. *)
Theorem space_restarts_a_finished_session (env : Env) (dt : R) (s : State) :
  alive s = false -> has (keys s) space_key = true ->
  let s' := update env dt s in
  score s' = 0%Z /\ hp s' = CFG.HEALTH_MAX /\ alive s' = true
  /\ elapsed s' = 0 /\ length (targets s') = 1%nat
  /\ player s' = player s /\ keys s' = keys s
  /\ heat s' = heat s /\ sect_assigned s' = sect_assigned s
  /\ Forall (fun t => t_ai t = None /\ t_vx t = 0 /\ t_vy t = 0
                      /\ t_w t = CFG.TARGET_SIZE /\ t_h t = CFG.TARGET_SIZE)
            (targets s').
Proof.
  intros Ha Hk s'.
  assert (E : s' = restart env s)
    by (unfold s', update; now rewrite Ha, Hk).
  rewrite E. destruct (restart_session env s) as (He & Hal & Hh & Hs & Hp).
  destruct (restart_wave env s) as (L & K & Hheat & Hsec & F).
  repeat split; assumption.
Qed.

Lemma space_restarts_a_finished_session_witness :
  score (update env0 (1 / 100) state_again) = 0%Z
  /\ length (targets (update env0 (1 / 100) state_again)) = 1%nat.
Proof.
  destruct (space_restarts_a_finished_session env0 (1 / 100) state_again
              eq_refl eq_refl) as (H1 & _ & _ & _ & H2 & _).
  split; [exact H1 | exact H2].
Defined.

(** ** Sector assignment *)

Section Sectors.

Variable env : Env.

Lemma aiInit_sector (t : Target) (g : Rng) :
  sectorOf (fst (aiInit t g)) = sectorOf t.
Proof.
  unfold aiInit, sectorOf. destruct (t_ai t) eqn:E; simpl;
    [now rewrite E | reflexivity].
Qed.

Lemma aiInit_ai (t : Target) (g : Rng) : t_ai (fst (aiInit t g)) <> None.
Proof. apply aiInit_evolves. Qed.

Lemma assignFrom_length (k : nat) (ts : list Target) (g : Rng) :
  length (fst (assignFrom k ts g)) = length ts.
Proof.
  revert k g; induction ts as [| t ts IH]; intros k g; simpl; [reflexivity |].
  destruct (aiInit t g) as [t1 g1].
  specialize (IH (S k) g1). destruct (assignFrom (S k) ts g1) as [rest g2].
  simpl in *. now rewrite IH.
Qed.

Lemma assignFrom_sector (k : nat) (ts : list Target) (g : Rng) (j : nat)
  (t : Target) :
  nth_error (fst (assignFrom k ts g)) j = Some t ->
  sectorOf t = Some (k + j)%nat.
Proof.
  revert k g j; induction ts as [| u ts IH]; intros k g j; simpl.
  - destruct j; discriminate.
  - pose proof (aiInit_ai u g) as Hai.
    destruct (aiInit u g) as [t1 g1]. simpl in Hai.
    specialize (IH (S k) g1).
    destruct (assignFrom (S k) ts g1) as [rest g2]. simpl in *.
    destruct j as [| j]; simpl.
    + intros [= <-]. destruct (t_ai t1) as [a |]; [| contradiction].
      unfold sectorOf. simpl. f_equal. lia.
    + intros H. rewrite (IH j H). f_equal. lia.
Qed.

Lemma aiApplyJuke_sector (p : Player) (a : AI) (base : Base) (pred : Pred)
  (dt : R) (g : Rng) :
  sectorIndex (fst (fst (aiApplyJuke p a base pred dt g))) = sectorIndex a.
Proof. unfold aiApplyJuke; split_ifs; reflexivity. Qed.

Lemma aiApplyPatrol_sector (t : Target) (a : AI) (base : Base) (pred : Pred)
  (dt : R) (g : Rng) :
  sectorIndex (fst (fst (aiApplyPatrol env t a base pred dt g)))
  = sectorIndex a.
Proof. unfold aiApplyPatrol; split_ifs; reflexivity. Qed.

Lemma aiWander_sector (a : AI) (base : Base) (dt : R) (g : Rng) :
  sectorIndex (fst (fst (aiWander a base dt g))) = sectorIndex a.
Proof. unfold aiWander; split_ifs; simpl; reflexivity. Qed.

Lemma softBounce_ai (t : Target) : t_ai (softBounce env t) = t_ai t.
Proof. unfold softBounce; split_lets; reflexivity. Qed.

Lemma aiMove_sector (t : Target) (a : AI) (base : Base) (dt : R) :
  sectorOf (aiMove t a base dt) = sectorIndex a.
Proof. unfold aiMove, sectorOf; split_lets; reflexivity. Qed.

Lemma aiIntegrate_sector (t : Target) (a : AI) (base : Base) (dt : R)
  (g : Rng) :
  sectorOf (fst (aiIntegrate env t a base dt g)) = sectorIndex a.
Proof.
  unfold aiIntegrate. pose proof (aiWander_sector a base dt g) as W.
  destruct (aiWander a base dt g) as [[a' b'] g']. simpl in *.
  unfold sectorOf. rewrite softBounce_ai.
  fold (sectorOf (aiMove t a' b' dt)). now rewrite aiMove_sector.
Qed.

End Sectors.

Section Anatomy.

Variable env : Env.
Variable dt : R.

Lemma Reqb_eq (a b : R) : (a =? b) = true -> a = b.
Proof. unfold Reqb. destruct (Req_dec_T a b); [auto | discriminate]. Qed.

Lemma heatmapInit_sized (hm : Heat) :
  lastW (heatmapInit env hm) = canvas_width env
  /\ lastH (heatmapInit env hm) = canvas_height env.
Proof. unfold heatmapInit. simpl. now split. Qed.

Lemma heatmapEnsure_sized (hm : Heat) (g : list R) :
  grid (heatmapEnsure env hm) = Some g ->
  lastW (heatmapEnsure env hm) = canvas_width env
  /\ lastH (heatmapEnsure env hm) = canvas_height env.
Proof.
  unfold heatmapEnsure. destruct (grid hm) eqn:G.
  - destruct (negb (lastW hm =? canvas_width env)
              || negb (lastH hm =? canvas_height env)) eqn:C.
    + intros _. apply heatmapInit_sized.
    + intros _. apply orb_false_elim in C. destruct C as [C1 C2].
      apply negb_false_iff in C1, C2. split; now apply Reqb_eq.
  - intros _. apply heatmapInit_sized.
Qed.

Lemma heatmapEnsure_fixed (hm : Heat) (g : list R) :
  grid hm = Some g -> lastW hm = canvas_width env ->
  lastH hm = canvas_height env -> heatmapEnsure env hm = hm.
Proof.
  intros G W H. unfold heatmapEnsure. rewrite G, W, H.
  now rewrite !Reqb_true.
Qed.

Lemma heatmapTick_ensured (p : Player) (hm : Heat) :
  heatmapEnsure env (heatmapTick env p hm) = heatmapTick env p hm.
Proof.
  unfold heatmapTick.
  destruct (grid (heatmapEnsure env hm)) as [g |] eqn:G.
  - destruct (heatmapEnsure_sized hm g G) as [W H].
    eapply heatmapEnsure_fixed; simpl; eauto.
  - apply heatmapEnsure_idem.
Qed.

Lemma aiHeatmapBias_heat (hm : Heat) (t : Target) (base : Base) :
  heatmapEnsure env hm = hm -> snd (aiHeatmapBias env hm t base) = hm.
Proof.
  intros F. unfold aiHeatmapBias. destruct (grid hm); [| reflexivity].
  repeat match goal with
         | |- context [heatmapSample env ?h ?x ?y] =>
             let E := fresh "E" in
             let H := fresh "H" in
             pose proof (heatmapSample_ensured env h x y) as [H _];
             destruct (heatmapSample env h x y) as [? ?] eqn:E;
             simpl in H; rewrite ?F in H; subst
         end.
  reflexivity.
Qed.

Lemma setNth_setNth {A : Type} (i : nat) (a b : A) (l : list A) :
  setNth i a (setNth i b l) = setNth i a l.
Proof.
  revert i; induction l as [| c l IH]; intros [| i]; simpl; auto.
  now rewrite IH.
Qed.

Lemma updateTargetAI_anatomy (i : nat) (s : State) (t0 : Target) :
  nth_error (targets s) i = Some t0 ->
  sect_assigned (updateTargetAI env dt i s) = true
  /\ heat (updateTargetAI env dt i s) = heatmapTick env (player s) (heat s)
  /\ (sect_assigned s = true ->
      exists t', targets (updateTargetAI env dt i s)
                 = setNth i t' (targets s)
                 /\ sectorOf t' = sectorOf t0)
  /\ (sect_assigned s = false ->
      forall j t,
        nth_error (targets (updateTargetAI env dt i s)) j = Some t ->
        sectorOf t = Some j).
Proof.
  intros Hi. unfold updateTargetAI. rewrite Hi.
  pose proof (aiInit_sector t0 (rng s)) as S0.
  pose proof (aiInit_ai t0 (rng s)) as A0.
  destruct (aiInit t0 (rng s)) as [t1 g1]. simpl in S0, A0.
  set (s1 := set_rng (set_targets s (setNth i t1 (targets s))) g1).
  assert (E1 : nth_error (targets s1) i = Some t1)
    by (simpl; eapply nth_error_setNth; eauto).
  destruct (aiAssignSectors_frame s1) as (Q1 & _ & Q3 & _).
  pose proof (aiAssignSectors_evolves s1) as F2.
  assert (SA2 : sect_assigned (aiAssignSectors s1) = true).
  { unfold aiAssignSectors. destruct (sect_assigned s1) eqn:E; [exact E |].
    now destruct (assignFrom 0 (targets s1) (rng s1)). }
  assert (Sec : (sect_assigned s = true -> aiAssignSectors s1 = s1)
                /\ (sect_assigned s = false ->
                    forall j t, nth_error (targets (aiAssignSectors s1)) j
                                = Some t -> sectorOf t = Some j)).
  { unfold aiAssignSectors. change (sect_assigned s1) with (sect_assigned s).
    split; intros SA; rewrite SA; [reflexivity |].
    intros j t. pose proof (assignFrom_sector 0 (targets s1) (rng s1) j t).
    destruct (assignFrom 0 (targets s1) (rng s1)). simpl in *. auto. }
  set (s2 := aiAssignSectors s1) in *.
  set (s3 := set_heat s2 (heatmapTick env (player s2) (heat s2))).
  destruct (Forall2_nth_error evolves i t1 _ _ F2 E1)
    as (t & Ht & (_ & _ & Hk)).
  change (targets s3) with (targets s2). rewrite Ht.
  destruct (t_ai t) as [a0 |] eqn:Ea; [| now elim Hk].
  set (pred := aiPredictPlayer (player s3) (keys s3)).
  set (b0 := aiSteerBase env (targets s2) i t pred).
  assert (HH : heatmapEnsure env (heat s3) = heat s3)
    by (apply heatmapTick_ensured).
  pose proof (aiHeatmapBias_heat (heat s3) t b0 HH) as D1.
  destruct (aiHeatmapBias env (heat s3) t b0) as [b1 hm1].
  destruct (aiApplyDispersion env (targets s2) i t b1 (rng s3)) as [b2 g2].
  set (b3 := aiSectorBias env (targets s2) t a0 b2 _).
  pose proof (aiApplyJuke_sector (player s3) a0 b3 pred dt g2) as K4.
  destruct (aiApplyJuke (player s3) a0 b3 pred dt g2) as [[a4 b4] g4].
  pose proof (aiApplyPatrol_sector env t a4 b4 pred dt g4) as K5.
  destruct (aiApplyPatrol env t a4 b4 pred dt g4) as [[a5 b5] g5].
  pose proof (aiIntegrate_sector env t a5 b5 dt g5) as K6.
  destruct (aiIntegrate env t a5 b5 dt g5) as [t' g6].
  simpl in D1, K4, K5, K6. simpl.
  assert (St' : sectorOf t' = sectorOf t).
  { rewrite K6, K5, K4. unfold sectorOf. now rewrite Ea. }
  split; [exact SA2 |]. split.
  - rewrite D1. unfold s3. simpl. rewrite Q3.
    unfold session in Q1. injection Q1 as -> _ _ _ _. reflexivity.
  - split.
    + intros SA. destruct Sec as [Sec _]. specialize (Sec SA).
      exists t'. unfold s2 in *. rewrite Sec in *. simpl.
      rewrite setNth_setNth. split; [reflexivity |].
      rewrite Ht in E1. injection E1 as ->. congruence.
    + intros SA j u Hu. destruct Sec as [_ Sec]. specialize (Sec SA).
      destruct (Nat.eq_dec j i) as [-> | N].
      * rewrite (nth_error_setNth i t' t _ Ht) in Hu. injection Hu as <-.
        rewrite St'. now apply Sec.
      * rewrite nth_error_setNth_other in Hu by auto. now apply Sec.
Qed.

End Anatomy.

(** ** Sectors *)

(** X9.  [aiAssignSectors] runs once: it marks the sectors assigned, creates the
    AI memory of every agent in the array and gives the agent at index [j]
    the sector index [j]; once the sectors are marked assigned it changes
    nothing, so agents pushed later get no index from it. *)
Theorem sectors_are_assigned_once (s : State) :
  let s' := aiAssignSectors s in
  sect_assigned s' = true
  /\ aiAssignSectors s' = s'
  /\ length (targets s') = length (targets s)
  /\ (sect_assigned s = true -> s' = s)
  /\ (sect_assigned s = false ->
      forall j t, nth_error (targets s') j = Some t ->
                  t_ai t <> None /\ sectorOf t = Some j).
Proof.
  cbv zeta. destruct (sect_assigned s) eqn:SA.
  - rewrite !(aiAssignSectors_assigned s SA).
    repeat split; auto; discriminate.
  - assert (E : aiAssignSectors s
                = mkState (player s) (keys s) (score s) (hp s) (alive s)
                    (elapsed s) (fst (assignFrom 0 (targets s) (rng s)))
                    (heat s) true (snd (assignFrom 0 (targets s) (rng s)))).
    { unfold aiAssignSectors. rewrite SA.
      now destruct (assignFrom 0 (targets s) (rng s)). }
    rewrite E. simpl.
    split; [reflexivity |].
    split; [now apply aiAssignSectors_assigned |].
    split; [apply assignFrom_length |].
    split; [discriminate |]. intros _ j t Hj.
    pose proof (assignFrom_sector 0 (targets s) (rng s) j t Hj) as S.
    split; [| exact S].
    unfold sectorOf in S. destruct (t_ai t); discriminate.
Qed.

Lemma sectors_are_assigned_once_witness :
  sect_assigned (aiAssignSectors state1) = true
  /\ forall t, nth_error (targets (aiAssignSectors state1)) 0 = Some t ->
               sectorOf t = Some 0%nat.
Proof.
  destruct (sectors_are_assigned_once state1) as (A & _ & _ & _ & F).
  split; [exact A |]. intros t Ht. now apply (F eq_refl 0%nat t Ht).
Defined.

Section SectorInvariant.

Variable env : Env.

Lemma collectStep_sectors (dt : R) (i : nat) (s : State) :
  sectorInv s ->
  sectorInv (collectStep env dt i s)
  /\ (sect_assigned s = true -> sect_assigned (collectStep env dt i s) = true)
  /\ ((i < length (targets s))%nat ->
      sect_assigned (collectStep env dt i s) = true).
Proof.
  intros [I1 I2].
  assert (U : sectorInv (updateTargetAI env dt i s)
              /\ (sect_assigned s = true ->
                  sect_assigned (updateTargetAI env dt i s) = true)
              /\ ((i < length (targets s))%nat ->
                  sect_assigned (updateTargetAI env dt i s) = true)).
  { destruct (nth_error (targets s) i) as [t0 |] eqn:Hi.
    - destruct (updateTargetAI_anatomy env dt i s t0 Hi)
        as (A & _ & ST & SF).
      split; [| now split]. split; [rewrite A; discriminate |].
      destruct (sect_assigned s) eqn:SA.
      + destruct (ST eq_refl) as (t' & -> & Ht').
        apply setNth_Forall; [exact I2 |].
        rewrite Forall_forall in I2. unfold oneSector. rewrite Ht'.
        apply I2. eapply nth_error_In; eauto.
      + specialize (I1 eq_refl). specialize (SF eq_refl).
        destruct (updateTargetAI_frame env dt i s) as (_ & _ & _ & Hl).
        rewrite I1 in Hl. apply Forall_forall. intros u Hu.
        destruct (In_nth_error _ _ Hu) as (j & Hj).
        assert (j < 1)%nat
          by (rewrite <- Hl; apply nth_error_Some; congruence).
        right. replace 0%nat with j by lia. now apply SF.
    - rewrite (updateTargetAI_out_of_range env dt i s Hi).
      split; [now split |]. split; [auto |].
      intros L. apply nth_error_None in Hi. lia. }
  destruct U as ([U1 U2] & U3 & U4). unfold collectStep.
  set (u := updateTargetAI env dt i s) in *.
  destruct (nth_error _ i) as [t |] eqn:Hn; [| now repeat split].
  destruct (rectsOverlap _ _); [| now repeat split].
  assert (A : sect_assigned u = true).
  { apply U4. destruct (updateTargetAI_frame env dt i s) as (_ & _ & _ & Hl).
    rewrite <- Hl. apply nth_error_Some. fold u. congruence. }
  split; [| now split]. split.
  - change (sect_assigned (set_targets (add_score u)
                             (removeNth i (targets u))))
      with (sect_assigned u).
    rewrite A. discriminate.
  - change (targets (set_targets (add_score u) (removeNth i (targets u))))
      with (removeNth i (targets u)).
    now apply removeNth_Forall.
Qed.

Lemma collectLoop_sectors (dt : R) (n : nat) (s : State) :
  sectorInv s ->
  sectorInv (collectLoop env dt n s)
  /\ (sect_assigned s = true ->
      sect_assigned (collectLoop env dt n s) = true).
Proof.
  revert s; induction n as [| n IH]; intros s I; simpl; [now split |].
  destruct (collectStep_sectors dt n s I) as (I' & M & _).
  destruct (IH _ I') as [I'' M']. split; auto.
Qed.

Lemma capturePass_sectors (dt : R) (s : State) (hp' : R) :
  sectorInv s ->
  sectorInv (capturePass env dt s hp')
  /\ sect_assigned (capturePass env dt s hp') = true.
Proof.
  intros [I1 I2]. unfold capturePass. cbv zeta.
  set (s1 := mkState _ _ _ _ _ _ _ _ _ _).
  assert (J : sectorInv s1) by (split; [exact I1 | exact I2]).
  change (targets s1) with (targets s).
  destruct (sect_assigned s) eqn:SA.
  - destruct (collectLoop_sectors dt (length (targets s)) s1 J) as [K M].
    split; [exact K | now apply M].
  - rewrite (I1 eq_refl). cbn [collectLoop].
    destruct (collectStep_sectors dt 0 s1 J) as (K & _ & A).
    split; [exact K |]. apply A.
    change (targets s1) with (targets s). rewrite (I1 eq_refl). lia.
Qed.

Lemma spawn_fresh (p : Player) (g : Rng) :
  t_ai (fst (spawnAvoidingPlayer env p g)) = None.
Proof.
  unfold spawnAvoidingPlayer.
  destruct (spawnAttempts_spec env 20 p g)
    as [(k & _ & _ & _ & ->) | (_ & ->)]; reflexivity.
Qed.

Lemma spawnToCap_sectors (cap : Z) (s : State) :
  Forall oneSector (targets s) ->
  Forall oneSector (targets (spawnToCap env cap s)).
Proof.
  intros F.
  destruct (spawnToCap_appends env oneSector cap s) as (_ & new & -> & N).
  - intros g _. left. unfold sectorOf. now rewrite spawn_fresh.
  - apply Forall_app. now split.
Qed.

Lemma restart_sectors (s : State) : sectorInv (restart env s).
Proof.
  destruct (restart_wave env s) as (L & _). split.
  - intros _. exact L.
  - unfold restart. apply spawnToCap_sectors. constructor.
Qed.

Lemma update_sectors (dt : R) (s : State) :
  sectorInv s -> sectorInv (update env dt s).
Proof.
  intros I. unfold update. destruct (negb (alive s)).
  - destruct (has (keys s) space_key); [apply restart_sectors | exact I].
  - destruct (_ <=? 0); [exact I |].
    match goal with
    | |- context [capturePass env dt s ?h] =>
        destruct (capturePass_sectors dt s h I) as [[_ K] A];
        set (mid := capturePass env dt s h) in *
    end.
    unfold refillOnClear. destruct (targets mid) eqn:E;
      [| split; [rewrite A; discriminate | now rewrite E]].
    match goal with
    | |- sectorInv (spawnToCap env ?c ?s1) =>
        destruct (spawnToCap_rest env c s1) as [_ R];
        pose proof (spawnToCap_sectors c s1) as F
    end.
    split; [rewrite R; simpl; rewrite A; discriminate |].
    apply F. simpl. constructor.
Qed.

End SectorInvariant.

Lemma reachable_sectors (W H : R) (s : State) :
  reachable W H s -> sectorInv s.
Proof.
  induction 1 as [s0 now Hf | s dt now Hr IH | s ks Hr IH].
  - apply restart_sectors.
  - now apply update_sectors.
  - exact IH.
Qed.

(** X10.  In a session every agent carries sector index 0 or none, which
    [aiSectorPointFor] reads as 0: the sectors are assigned once, while the
    first wave has its single agent, and never again.  So all agents steer
    toward the same rotating anchor, whatever their number. *)
Theorem all_agents_share_one_sector_anchor (W H : R) (s : State) :
  reachable W H s ->
  Forall (fun t => sectorOf t = None \/ sectorOf t = Some 0%nat) (targets s)
  /\ forall env time t a,
       In t (targets s) -> t_ai t = Some a ->
       aiSectorPointFor env (targets s) a time
       = (canvas_width env * (5 / 10)
          + cos (time * AI_PROFILE.SECTOR_ROT_SPEED)
            * (Rmin (canvas_width env) (canvas_height env)
               * AI_PROFILE.SECTOR_RING_RATIO),
          canvas_height env * (5 / 10)
          + sin (time * AI_PROFILE.SECTOR_ROT_SPEED)
            * (Rmin (canvas_width env) (canvas_height env)
               * AI_PROFILE.SECTOR_RING_RATIO)).
Proof.
  intros Hr. destruct (reachable_sectors W H s Hr) as [_ F].
  split; [exact F |]. intros env time t a Hin Ha.
  rewrite Forall_forall in F. specialize (F t Hin).
  unfold oneSector, sectorOf in F. rewrite Ha in F.
  unfold aiSectorPointFor.
  assert (E : match sectorIndex a with Some i => INR i | None => 0 end = 0)
    by (destruct F as [-> | ->]; reflexivity).
  rewrite E. cbv zeta.
  replace (0 / Rmax 1 (INR (length (targets s))) * PI * 2
           + time * AI_PROFILE.SECTOR_ROT_SPEED)
    with (time * AI_PROFILE.SECTOR_ROT_SPEED)
    by (unfold Rdiv; ring).
  reflexivity.
Qed.

Lemma all_agents_share_one_sector_anchor_witness :
  Forall (fun t => sectorOf t = None \/ sectorOf t = Some 0%nat)
         (targets (update env0 (1 / 100) (restart env0 state0))).
Proof.
  apply (all_agents_share_one_sector_anchor 640 480
           (update (mkEnv 640 480 0) (1 / 100)
                   (restart (mkEnv 640 480 0) state0))).
  apply reach_tick. apply reach_boot. exact fair_rng_half.
Defined.

(** X11.  The anchor of a sector lies on the ring around the centre of the
    canvas whose radius is 0.34 of the smaller side, and so inside the
    canvas, at least 0.16 of each side away from the walls. *)
Theorem sector_anchor_is_on_the_ring (env : Env) (ts : list Target) (a : AI)
  (time : R) :
  0 <= canvas_width env -> 0 <= canvas_height env ->
  let q := aiSectorPointFor env ts a time in
  let ring := Rmin (canvas_width env) (canvas_height env)
              * AI_PROFILE.SECTOR_RING_RATIO in
  (fst q - canvas_width env / 2) * (fst q - canvas_width env / 2)
  + (snd q - canvas_height env / 2) * (snd q - canvas_height env / 2)
  = ring * ring
  /\ 16 / 100 * canvas_width env <= fst q <= 84 / 100 * canvas_width env
  /\ 16 / 100 * canvas_height env <= snd q <= 84 / 100 * canvas_height env.
Proof.
  intros HW HH q ring. unfold q, aiSectorPointFor. cbv zeta. simpl.
  set (rot := _ + time * AI_PROFILE.SECTOR_ROT_SPEED).
  fold ring.
  pose proof (sin2_cos2 rot) as SC. unfold Rsqr in SC.
  pose proof (COS_bound rot) as [C1 C2].
  pose proof (SIN_bound rot) as [S1 S2].
  assert (R0 : 0 <= ring).
  { unfold ring. cfg. unfold Rmin. destruct (Rle_dec _ _); lra. }
  assert (RW : ring <= 34 / 100 * canvas_width env).
  { unfold ring. cfg. pose proof (Rmin_l (canvas_width env) (canvas_height env)).
    lra. }
  assert (RH : ring <= 34 / 100 * canvas_height env).
  { unfold ring. cfg. pose proof (Rmin_r (canvas_width env) (canvas_height env)).
    lra. }
  split; [| split]; nra.
Qed.

Lemma sector_anchor_is_on_the_ring_witness :
  16 / 100 * 640 <= fst (aiSectorPointFor env0 [target0] ai_rest 0)
  <= 84 / 100 * 640.
Proof.
  destruct (sector_anchor_is_on_the_ring env0 [target0] ai_rest 0)
    as (_ & H & _); [simpl; lra | simpl; lra |].
  exact H.
Defined.

(** ** The heat field *)

Section HeatGrid.

Variable env : Env.

Lemma Zceil_pos (x : R) : 0 < x -> (1 <= Zceil x)%Z.
Proof.
  intros H. destruct (Zceil_bound x) as [_ B].
  assert (0 < IZR (Zceil x)) by lra.
  apply lt_IZR in H0. lia.
Qed.

Lemma heatmapInit_ready (hm : Heat) :
  0 < canvas_width env -> 0 < canvas_height env ->
  heatReady env (heatmapInit env hm)
  /\ Forall (fun v => v = 0) (heatCells (heatmapInit env hm))
  /\ cols (heatmapInit env hm) = Zceil (canvas_width env / 80)
  /\ rows (heatmapInit env hm) = Zceil (canvas_height env / 80).
Proof.
  intros HW HH. unfold heatmapInit, heatReady, heatCells. simpl. cfg.
  assert (C : (1 <= Zceil (canvas_width env / 80))%Z)
    by (apply Zceil_pos; lra).
  assert (D : (1 <= Zceil (canvas_height env / 80))%Z)
    by (apply Zceil_pos; lra).
  split; [| split; [| split; reflexivity]].
  - eexists. split; [reflexivity |]. repeat split; auto.
    rewrite repeat_length. rewrite Z2Nat.id; nia.
  - apply Forall_forall. intros v Hv. now apply repeat_spec in Hv.
Qed.

Lemma heatReady_ensure (hm : Heat) :
  heatReady env hm -> heatmapEnsure env hm = hm.
Proof.
  intros (g & G & _ & _ & _ & W & H). eapply heatmapEnsure_fixed; eauto.
Qed.

Lemma heatmapIdx_range (hm : Heat) (x y : R) :
  (1 <= cols hm)%Z -> (1 <= rows hm)%Z ->
  (0 <= heatmapIdx hm x y < cols hm * rows hm)%Z.
Proof. intros C R_. unfold heatmapIdx. cbv zeta. nia. Qed.

Lemma addNth_length (g : list R) (n : nat) (v : R) :
  length (addNth g n v) = length g.
Proof.
  revert n; induction g as [| a g IH]; intros [| n]; simpl; auto.
Qed.

Lemma addAt_length (g : list R) (idx : Z) (v : R) :
  length (addAt g idx v) = length g.
Proof. unfold addAt. destruct (_ <? _)%Z; auto using addNth_length. Qed.

Lemma addNth_Forall (P Q : R -> Prop) (g : list R) (n : nat) (v : R) :
  (forall u, P u -> Q u) -> (forall u, P u -> Q (fround (u + v))) ->
  Forall P g -> Forall Q (addNth g n v).
Proof.
  intros H1 H2 F. revert n. induction F as [| a g Ha Hg IH]; intros [| n];
    simpl; constructor; auto.
  eapply Forall_impl; eauto.
Qed.

Lemma addAt_Forall (P Q : R -> Prop) (g : list R) (idx : Z) (v : R) :
  (forall u, P u -> Q u) -> (forall u, P u -> Q (fround (u + v))) ->
  Forall P g -> Forall Q (addAt g idx v).
Proof.
  intros H1 H2 F. unfold addAt. destruct (_ <? _)%Z.
  - eapply Forall_impl; eauto.
  - now apply addNth_Forall with (P := P).
Qed.

Lemma nth_error_addNth (g : list R) (n : nat) (v a : R) :
  nth_error g n = Some a ->
  nth_error (addNth g n v) n = Some (fround (a + v)).
Proof.
  revert n; induction g as [| b g IH]; intros [| n]; simpl;
    try discriminate.
  - now intros [= ->].
  - apply IH.
Qed.

Lemma heatmapTick_ready (p : Player) (hm : Heat) :
  heatReady env hm ->
  heatReady env (heatmapTick env p hm)
  /\ cols (heatmapTick env p hm) = cols hm
  /\ rows (heatmapTick env p hm) = rows hm
  /\ heatCells (heatmapTick env p hm)
     = addAt (map (fun v => fround (v * AI_PROFILE.HEATMAP_DECAY))
                  (heatCells hm))
             (heatmapIdx hm (p_x p + p_w p / 2) (p_y p + p_h p / 2))
             AI_PROFILE.HEATMAP_PLAYER_STAMP.
Proof.
  intros Hr. pose proof (heatReady_ensure hm Hr) as E.
  destruct Hr as (g & G & C & R_ & L & W & H).
  unfold heatmapTick. rewrite E, G. unfold heatReady, heatCells. simpl.
  rewrite G. split; [| repeat split].
  eexists. split; [reflexivity |]. repeat split; auto.
  now rewrite addAt_length, length_map.
Qed.

(** A decayed cell is stored at a value that is still in the range, with
    room left for a stamp. *)
Lemma decay_in_range (v : R) :
  0 <= v <= heatLimit ->
  0 <= fround (v * AI_PROFILE.HEATMAP_DECAY) <= 2617 / 64.
Proof.
  unfold heatLimit. cfg. intros H. split.
  - rewrite <- fround_zero. apply fround_mono. lra.
  - rewrite <- fround_decayed. apply fround_mono. lra.
Qed.

Lemma stamp_in_range (u : R) :
  0 <= u <= 2617 / 64 ->
  fround AI_PROFILE.HEATMAP_PLAYER_STAMP
  <= fround (u + AI_PROFILE.HEATMAP_PLAYER_STAMP) <= heatLimit.
Proof.
  unfold heatLimit. cfg. intros H. split.
  - apply fround_mono. lra.
  - rewrite <- fround_ceiling. apply fround_mono. lra.
Qed.

End HeatGrid.

(** X12.  A sample of a laid-out heat field always reads a cell of the grid,
    wherever the point is: the column and the row are clamped to the grid,
    so a point off the canvas reads the nearest border cell, and the field
    is left as it was. *)
Theorem heat_sample_reads_a_cell (env : Env) (hm : Heat) (x y : R) :
  heatReady env hm ->
  (0 <= heatmapIdx hm x y < cols hm * rows hm)%Z
  /\ (exists v, nth_error (heatCells hm) (Z.to_nat (heatmapIdx hm x y))
                = Some v
                /\ heatmapSample env hm x y = (v, hm))
  /\ (x < 0 -> y < 0 -> heatmapIdx hm x y = 0%Z).
Proof.
  intros Hr. pose proof (heatReady_ensure env hm Hr) as E.
  destruct Hr as (g & G & C & R_ & L & W & H).
  pose proof (heatmapIdx_range hm x y C R_) as I.
  split; [exact I |]. split.
  - unfold heatmapSample, heatCells. rewrite E, G.
    destruct (nth_error g (Z.to_nat (heatmapIdx hm x y))) as [v |] eqn:N.
    + exists v. split; [reflexivity |]. unfold getAt.
      destruct (Z.ltb_spec (heatmapIdx hm x y) 0); [lia |].
      now rewrite N.
    + apply nth_error_None in N. lia.
  - intros Hx Hy. unfold heatmapIdx. cbv zeta.
    assert (Fx : (Zfloor (x / IZR AI_PROFILE.HEATMAP_CELL) < 0)%Z).
    { apply lt_IZR. destruct (Zfloor_bound (x / IZR AI_PROFILE.HEATMAP_CELL)).
      cfg. lra. }
    assert (Fy : (Zfloor (y / IZR AI_PROFILE.HEATMAP_CELL) < 0)%Z).
    { apply lt_IZR. destruct (Zfloor_bound (y / IZR AI_PROFILE.HEATMAP_CELL)).
      cfg. lra. }
    lia.
Qed.

Lemma heat_sample_reads_a_cell_witness :
  (0 <= heatmapIdx (heatmapInit env0 heat0) 700 (-30) < 8 * 6)%Z.
Proof.
  destruct (heatmapInit_ready env0 heat0) as (Hr & _ & Hc & Hw);
    [simpl; lra | simpl; lra |].
  destruct (heat_sample_reads_a_cell env0 (heatmapInit env0 heat0) 700 (-30)
              Hr) as (H & _).
  rewrite Hc, Hw in H. simpl in H.
  rewrite (Zceil_eq 8), (Zceil_eq 6) in H by (simpl; lra). exact H.
Defined.

(** X13.  The heat of a cell never leaves the range from 0 to 43.5, the
    binary32 value next above the heat at which one decay takes away what
    one stamp adds.  [heatmapTick] lays the field out when there is none,
    keeps its layout otherwise, and leaves in the cell under the centre of
    the player at least a stamp as the grid stores it, and exactly that
    when the field was cold; the stored stamp is [5452595 / 2097152], a
    little less than the 2.6 of the profile. *)
Theorem heat_stays_bounded (env : Env) (p : Player) (hm : Heat) :
  0 < canvas_width env -> 0 < canvas_height env ->
  grid hm = None
  \/ (heatReady env hm
      /\ Forall (fun v => 0 <= v <= heatLimit) (heatCells hm)) ->
  let hm' := heatmapTick env p hm in
  let stored := fround AI_PROFILE.HEATMAP_PLAYER_STAMP in
  heatReady env hm'
  /\ Forall (fun v => 0 <= v <= heatLimit) (heatCells hm')
  /\ (exists v, nth_error (heatCells hm')
                  (Z.to_nat (heatmapIdx hm' (p_x p + p_w p / 2)
                                            (p_y p + p_h p / 2)))
                = Some v
                /\ stored <= v
                /\ (grid hm = None -> v = stored))
  /\ stored = 5452595 / 2097152
  /\ stored < AI_PROFILE.HEATMAP_PLAYER_STAMP.
Proof.
  intros HW HH Hhm hm' stored.
  assert (St : stored = 5452595 / 2097152)
    by (unfold stored; cfg; apply fround_stamp).
  assert (K : exists h, heatReady env h
                        /\ Forall (fun v => 0 <= v <= heatLimit) (heatCells h)
                        /\ (grid hm = None ->
                            Forall (fun v => v = 0) (heatCells h))
                        /\ hm' = heatmapTick env p h).
  { destruct Hhm as [N | [Hr F]].
    - exists (heatmapInit env hm).
      destruct (heatmapInit_ready env hm HW HH) as (Hr & Z & _).
      split; [exact Hr |]. split; [| split; [intros _; exact Z |]].
      + eapply Forall_impl; [| exact Z]. intros v ->.
        unfold heatLimit. lra.
      + unfold hm', heatmapTick.
        assert (E : heatmapEnsure env hm = heatmapInit env hm)
          by (unfold heatmapEnsure; now rewrite N).
        now rewrite E, (heatReady_ensure env _ Hr).
    - exists hm. split; [exact Hr |]. split; [exact F |]. split; [| reflexivity].
      intros N. destruct Hr as (g & G & _). congruence. }
  destruct K as (h & Hr & F & Cold & ->).
  destruct (heatmapTick_ready env p h Hr) as (Hr' & Hc & Hw & Cells).
  split; [exact Hr' |].
  set (idx := heatmapIdx h (p_x p + p_w p / 2) (p_y p + p_h p / 2)) in *.
  set (decayed := map (fun v => fround (v * AI_PROFILE.HEATMAP_DECAY))
                      (heatCells h)) in *.
  assert (D : Forall (fun v => 0 <= v <= 2617 / 64) decayed).
  { apply Forall_map. eapply Forall_impl; [| exact F].
    intros v Hv. now apply decay_in_range. }
  split; [| split; [| split; [exact St |
                              rewrite St; cfg; lra]]].
  - rewrite Cells. eapply addAt_Forall; [| | exact D].
    + intros u Hu. unfold heatLimit. simpl in Hu. lra.
    + intros u Hu. simpl in Hu. destruct (stamp_in_range u Hu) as [L U].
      fold stored in L. rewrite St in L. lra.
  - assert (Ei : heatmapIdx (heatmapTick env p h) (p_x p + p_w p / 2)
                            (p_y p + p_h p / 2) = idx)
      by (unfold idx, heatmapIdx; now rewrite Hc, Hw).
    rewrite Ei, Cells.
    destruct Hr as (g & G & C & R_ & L & _).
    pose proof (heatmapIdx_range h (p_x p + p_w p / 2) (p_y p + p_h p / 2)
                  C R_) as I. fold idx in I.
    unfold addAt. destruct (Z.ltb_spec idx 0); [lia |].
    destruct (nth_error decayed (Z.to_nat idx)) as [a |] eqn:N.
    + exists (fround (a + AI_PROFILE.HEATMAP_PLAYER_STAMP)).
      split; [now apply nth_error_addNth |].
      pose proof D as D'. rewrite Forall_forall in D'.
      specialize (D' a (nth_error_In _ _ N)). simpl in D'.
      split; [apply (stamp_in_range a D') |].
      intros Hn. specialize (Cold Hn).
      unfold decayed in N. rewrite nth_error_map in N.
      destruct (nth_error (heatCells h) (Z.to_nat idx)) as [a0 |] eqn:N0;
        [| discriminate].
      injection N as <-.
      rewrite Forall_forall in Cold.
      rewrite (Cold a0 (nth_error_In _ _ N0)).
      replace (0 * AI_PROFILE.HEATMAP_DECAY) with 0 by lra.
      rewrite fround_zero. unfold stored. f_equal. lra.
    + apply nth_error_None in N. unfold decayed in N.
      rewrite length_map in N. unfold heatCells in N. rewrite G in N. lia.
Qed.

Lemma heat_stays_bounded_witness :
  Forall (fun v => 0 <= v <= heatLimit)
         (heatCells (heatmapTick env0 player0 heat0))
  /\ exists v,
       nth_error (heatCells (heatmapTick env0 player0 heat0))
         (Z.to_nat (heatmapIdx (heatmapTick env0 player0 heat0)
                      (p_x player0 + p_w player0 / 2)
                      (p_y player0 + p_h player0 / 2)))
       = Some v
       /\ v = 5452595 / 2097152.
Proof.
  destruct (heat_stays_bounded env0 player0 heat0)
    as (_ & H & (v & Hv & _ & Hc) & St & _);
    [simpl; lra | simpl; lra | now left |].
  split; [exact H |]. exists v. split; [exact Hv |].
  rewrite (Hc eq_refl). exact St.
Defined.

Section HeatPerAgent.

Variable env : Env.
Variable dt : R.

Lemma collectStep_heat (i : nat) (s : State) :
  (i < length (targets s))%nat ->
  heat (collectStep env dt i s) = heatmapTick env (player s) (heat s)
  /\ player (collectStep env dt i s) = player s
  /\ (i <= length (targets (collectStep env dt i s)))%nat.
Proof.
  intros L.
  destruct (nth_error (targets s) i) as [t0 |] eqn:Hi;
    [| apply nth_error_None in Hi; lia].
  destruct (updateTargetAI_anatomy env dt i s t0 Hi) as (_ & Hh & _).
  destruct (updateTargetAI_frame env dt i s) as (Hs & _ & _ & Hl).
  assert (Hp : player (updateTargetAI env dt i s) = player s)
    by (unfold session in Hs; now injection Hs).
  unfold collectStep. set (u := updateTargetAI env dt i s) in *.
  destruct (nth_error (targets u) i) as [t |] eqn:Hn;
    [| repeat split; auto; lia].
  destruct (rectsOverlap _ _); [| repeat split; auto; lia].
  simpl. repeat split; auto.
  pose proof (removeNth_valid _ _ _ Hn). lia.
Qed.

Lemma collectLoop_heat (n : nat) (s : State) :
  (n <= length (targets s))%nat ->
  heat (collectLoop env dt n s)
  = Nat.iter n (heatmapTick env (player s)) (heat s).
Proof.
  revert s; induction n as [| n IH]; intros s L; [reflexivity |].
  destruct (collectStep_heat n s L) as (Hh & Hp & Hl).
  cbn [collectLoop]. rewrite (IH _ Hl), Hh, Hp.
  now rewrite Nat.iter_succ_r.
Qed.

End HeatPerAgent.

(** X14.  The heat field is ticked by every agent update, not once per frame: a
    tick with [n] agents decays the field [n] times and stamps the cell of
    the player [n] times. *)
Theorem heat_ticks_once_per_agent (env : Env) (dt : R) (s : State) :
  alive s = true -> 0 < drained s dt ->
  heat (update env dt s)
  = Nat.iter (length (targets s))
             (heatmapTick env (movePlayer env dt (player s) (keys s)))
             (heat s).
Proof.
  intros Ha Hp. rewrite (update_live env dt s Ha Hp).
  assert (E : forall m, heat (refillOnClear env m) = heat m).
  { intros m. unfold refillOnClear. destruct (targets m); [| reflexivity].
    match goal with
    | |- context [spawnToCap env ?c ?s1] =>
        destruct (spawnToCap_rest env c s1) as [-> _]
    end. reflexivity. }
  rewrite E. unfold capturePass. cbv zeta.
  rewrite collectLoop_heat by (simpl; lia). reflexivity.
Qed.

Lemma heat_ticks_once_per_agent_witness :
  heat (update env0 (1 / 100) state1)
  = heatmapTick env0 (movePlayer env0 (1 / 100) player0 []) heat0.
Proof.
  assert (Hp : 0 < drained state1 (1 / 100))
    by (unfold drained; rewrite clamp_inside; simpl; cfg; lra).
  exact (heat_ticks_once_per_agent env0 (1 / 100) state1 eq_refl Hp).
Defined.

(** ** Prediction and the steering layers *)

Lemma aiPredictPlayer_fields (p : Player) (ks : list Key) :
  let pred := aiPredictPlayer p ks in
  (pr_hx pred, pr_hy pred) = readInput ks
  /\ pr_hv pred = hypot (fst (readInput ks)) (snd (readInput ks))
  /\ pr_px pred = p_x p + p_w p / 2 + pr_hx pred * p_speed p * AI_CFG.LEAD
  /\ pr_py pred = p_y p + p_h p / 2 + pr_hy pred * p_speed p * AI_CFG.LEAD.
Proof.
  unfold aiPredictPlayer. destruct (readInput ks) as [dx dy]. simpl.
  repeat split.
Qed.

(** X15.  The predicted point of the pursuer is its centre moved along the
    input direction by [speed * LEAD]: exactly that far when a direction
    is held, and the centre itself when none is. *)
Theorem prediction_leads_by_the_input (p : Player) (ks : list Key) :
  0 <= p_speed p ->
  let pred := aiPredictPlayer p ks in
  let cx := p_x p + p_w p / 2 in
  let cy := p_y p + p_h p / 2 in
  (pr_hx pred, pr_hy pred) = readInput ks
  /\ (pr_hv pred = 0 \/ pr_hv pred = 1)
  /\ hypot (pr_px pred - cx) (pr_py pred - cy)
     = pr_hv pred * (p_speed p * AI_CFG.LEAD)
  /\ (pr_hv pred = 0 -> pr_px pred = cx /\ pr_py pred = cy).
Proof.
  intros Hs pred cx cy.
  destruct (aiPredictPlayer_fields p ks) as (Hh & Hv & Hx & Hy).
  fold pred in Hh, Hv, Hx, Hy.
  pose proof (readInput_shape ks) as (U & _). cbv zeta in U.
  rewrite <- Hh in U, Hv. simpl in U, Hv.
  split; [exact Hh |]. split; [now rewrite Hv |].
  assert (Ex : pr_px pred - cx = pr_hx pred * (p_speed p * AI_CFG.LEAD))
    by (rewrite Hx; unfold cx; ring).
  assert (Ey : pr_py pred - cy = pr_hy pred * (p_speed p * AI_CFG.LEAD))
    by (rewrite Hy; unfold cy; ring).
  split.
  - rewrite Ex, Ey, hypot_scale, Hv; [reflexivity |]. cfg. nra.
  - intros Z. rewrite Hv in Z. destruct (hypot_eq_zero _ _ Z) as [Zx Zy].
    rewrite Zx in Ex. rewrite Zy in Ey. lra.
Qed.

Lemma prediction_leads_by_the_input_witness :
  hypot (pr_px (aiPredictPlayer player0 [right_key]) - (120 + 24 / 2))
        (pr_py (aiPredictPlayer player0 [right_key]) - (120 + 24 / 2))
  = pr_hv (aiPredictPlayer player0 [right_key]) * (240 * (22 / 100)).
Proof.
  destruct (prediction_leads_by_the_input player0 [right_key])
    as (_ & _ & H & _); [simpl; cfg; lra |].
  exact H.
Defined.

(** ** Neighbours out of range *)

Lemma indexed_In {A : Type} (l : list A) (k j : nat) (o : A) :
  In (j, o) (combine (seq k (length l)) l) ->
  (k <= j)%nat /\ nth_error l (j - k) = Some o.
Proof.
  revert k; induction l as [| a l IH]; intros k; simpl; [tauto |].
  intros [E | H].
  - injection E as <- <-. split; [lia |]. now rewrite Nat.sub_diag.
  - destruct (IH (S k) H) as [L N]. split; [lia |].
    replace (j - k)%nat with (S (j - S k)) by lia. exact N.
Qed.

Lemma fold_left_fixed {A B : Type} (f : A -> B -> A) (l : list B) (a : A) :
  (forall x, In x l -> f a x = a) -> fold_left f l a = a.
Proof.
  induction l as [| x l IH]; intros H; simpl; [reflexivity |].
  rewrite (H x) by now left. apply IH. intros y Hy. apply H. now right.
Qed.

Lemma sepLoop_alone (ts : list Target) (i : nat) (t : Target) :
  alone ts i t AI_CFG.SEP_RADIUS ->
  fold_left (sepStep i (t_x t + t_w t / 2) (t_y t + t_h t / 2))
            (indexed ts) (0, 0) = (0, 0).
Proof.
  intros Al. apply fold_left_fixed. intros [j o] Hin.
  apply indexed_In in Hin. destruct Hin as [_ Hn].
  rewrite Nat.sub_0_r in Hn. unfold sepStep.
  destruct (Nat.eqb_spec j i) as [-> | N]; [reflexivity |].
  specialize (Al j o Hn N). unfold centreDist in Al.
  cbv zeta. rewrite (Rltb_false _ AI_CFG.SEP_RADIUS Al).
  now rewrite andb_false_r.
Qed.

(** X16.  An agent that keeps the wall margin and has no neighbour within the
    separation radius is never steered toward the pursuer: the base
    steering vector points away from the predicted point with a weight of
    at least 0.75, the rest of it being sideways.  The distance that
    [aiSteerBase] passes on is positive. *)
Theorem base_steering_flees_the_pursuer (env : Env) (ts : list Target)
  (i : nat) (t : Target) (pred : Pred) :
  alone ts i t AI_CFG.SEP_RADIUS ->
  awayFromWalls env t AI_CFG.WALL_REPEL_MARGIN ->
  let base := aiSteerBase env ts i t pred in
  let toX := pr_px pred - (t_x t + t_w t / 2) in
  let toY := pr_py pred - (t_y t + t_h t / 2) in
  0 < b_d base
  /\ b_cx base = t_x t + t_w t / 2 /\ b_cy base = t_y t + t_h t / 2
  /\ sx base * toX + sy base * toY <= - (75 / 100) * hypot toX toY.
Proof.
  intros Al [[X1 X2] [Y1 Y2]] base toX toY.
  assert (Db : b_d base = len toX toY)
    by (unfold base; rewrite aiSteerBase_d; reflexivity).
  pose proof (len_pos toX toY) as Dp.
  unfold base, aiSteerBase. cbv zeta. rewrite (sepLoop_alone ts i t Al).
  assert (T : truthy2 0 0 = false)
    by (unfold truthy2; now rewrite Reqb_true).
  rewrite T. unfold aiNearEdges. cbv zeta. cbn [e_L e_R e_T e_B].
  revert X1 X2 Y1 Y2. cfg. intros X1 X2 Y1 Y2.
  rewrite (Rltb_false (t_x t) 60) by lra.
  rewrite (Rltb_false (canvas_width env - t_w t - 60) (t_x t)) by lra.
  rewrite (Rltb_false (t_y t) 60) by lra.
  rewrite (Rltb_false (canvas_height env - t_h t - 60) (t_y t)) by lra.
  rewrite (Rltb_false (t_x t) 12) by lra.
  rewrite (Rltb_false (canvas_width env - t_w t - 12) (t_x t)) by lra.
  rewrite (Rltb_false (t_y t) 12) by lra.
  rewrite (Rltb_false (canvas_height env - t_h t - 12) (t_y t)) by lra.
  cbn [orb b_d b_cx b_cy sx sy].
  fold toX toY. fold (len toX toY).
  split; [exact Dp |]. split; [reflexivity |]. split; [reflexivity |].
  set (near := Rmin 1 (Rmax 0 ((260 - len toX toY) / 260))).
  assert (N : 0 <= near <= 1).
  { unfold near, Rmin, Rmax.
    repeat match goal with
           | |- context [Rle_dec ?a ?b] => destruct (Rle_dec a b)
           end; lra. }
  set (d := len toX toY) in *.
  replace ((- toX / d * (75 / 100 + 25 / 100 * near)
            + - (- toY / d) * (85 / 100 * near)) * toX
           + (- toY / d * (75 / 100 + 25 / 100 * near)
              + - toX / d * (85 / 100 * near)) * toY)
    with (- (75 / 100 + 25 / 100 * near) * ((toX * toX + toY * toY) / d))
    by (field; lra).
  destruct (Req_dec_T (hypot toX toY) 0) as [Z | NZ].
  - destruct (hypot_eq_zero _ _ Z) as [-> ->]. rewrite hypot_zero.
    unfold Rdiv. nra.
  - assert (Ed : d = hypot toX toY) by (unfold d; now apply len_hypot).
    rewrite <- hypot_sqr, <- Ed.
    replace (d * d / d) with d by (field; lra). nra.
Qed.

Lemma base_steering_flees_the_pursuer_witness :
  let base := aiSteerBase env0 [target0; target_caught] 0 target0
                (aiPredictPlayer player0 []) in
  0 < b_d base.
Proof.
  assert (Al : alone [target0; target_caught] 0 target0 AI_CFG.SEP_RADIUS).
  { intros [| [| j]] o Hn Hj; simpl in Hn; try discriminate;
      [contradiction | | destruct j; discriminate].
    injection Hn as <-. unfold centreDist. simpl.
    pose proof (Rabs_le_hypot_x (308 + 24 / 2 - (120 + 24 / 2))
                  (228 + 24 / 2 - (120 + 24 / 2))) as H.
    rewrite Rabs_pos_eq in H by lra. cfg. lra. }
  assert (Aw : awayFromWalls env0 target0 AI_CFG.WALL_REPEL_MARGIN)
    by (unfold awayFromWalls; simpl; cfg; lra).
  destruct (base_steering_flees_the_pursuer env0 [target0; target_caught] 0
              target0 (aiPredictPlayer player0 []) Al Aw) as (H & _).
  exact H.
Defined.

(** ** Juke *)

Lemma Rmax0_nonneg (a : R) : 0 <= Rmax 0 a.
Proof. apply Rmax_l. Qed.

(** X17.  A juke needs a pursuer that is steering.  When no burst is running and
    the pursuer holds no direction (or is 190 or more away, or the juke is
    still cooling down), the juke layer only runs its timers: the steering
    vector, the juke direction and the oracle are left as they were.  Both
    timers are never negative. *)
Theorem juke_needs_a_steering_pursuer (p : Player) (a : AI) (base : Base)
  (pred : Pred) (dt : R) (g : Rng) :
  jukeTime a - dt <= 0 ->
  pr_hv pred <= 3 / 10 \/ AI_CFG.JUKE_CLOSE_DIST <= b_d base
  \/ 0 < jukeCool a - dt ->
  let r := aiApplyJuke p a base pred dt g in
  snd (fst r) = base /\ snd r = g
  /\ jukeTime (fst (fst r)) = 0
  /\ jukeCool (fst (fst r)) = Rmax 0 (jukeCool a - dt)
  /\ 0 <= jukeCool (fst (fst r))
  /\ jukeDirX (fst (fst r)) = jukeDirX a
  /\ jukeDirY (fst (fst r)) = jukeDirY a.
Proof.
  intros Ht Hc. unfold aiApplyJuke. cbv zeta. cbn [jukeTime jukeCool set_juke].
  rewrite (Rmax_left 0 (jukeTime a - dt)) by lra.
  rewrite (Rltb_false 0 0) by lra.
  assert (C : (b_d base <? AI_CFG.JUKE_CLOSE_DIST)
              && (Rmax 0 (jukeCool a - dt) =? 0)
              && (pr_hv pred >? 3 / 10) = false).
  { destruct Hc as [H | [H | H]].
    - rewrite (Rltb_false (3 / 10) (pr_hv pred)) by lra.
      apply andb_false_r.
    - now rewrite (Rltb_false _ _ H).
    - rewrite (Rmax_right 0 (jukeCool a - dt)) by lra.
      rewrite (Reqb_false (jukeCool a - dt) 0) by lra.
      now rewrite andb_false_r. }
  rewrite C. simpl. repeat split; auto using Rmax0_nonneg.
Qed.

Lemma juke_needs_a_steering_pursuer_witness :
  snd (fst (aiApplyJuke player0 ai_rest base_left (aiPredictPlayer player0 [])
              (1 / 100) rng_half)) = base_left.
Proof.
  destruct (juke_needs_a_steering_pursuer player0 ai_rest base_left
              (aiPredictPlayer player0 []) (1 / 100) rng_half) as (H & _).
  - simpl. lra.
  - left. destruct (aiPredictPlayer_fields player0 []) as (_ & -> & _).
    rewrite readInput_idle. simpl. rewrite hypot_zero. lra.
  - exact H.
Defined.

Lemma hypot_perp (a b : R) : hypot (- b) a = hypot a b.
Proof. unfold hypot. f_equal. ring. Qed.

Lemma hypot_perp' (a b : R) : hypot b (- a) = hypot a b.
Proof. unfold hypot. f_equal. ring. Qed.

(** X18.  A juke starts sideways.  With no burst running and the cooldown over,
    a pursuer within 190 that steers toward the agent (cosine above 0.85)
    starts one: it lasts 0.14, the cooldown is set to 1.1 plus up to 0.4
    drawn from the oracle, and the direction is a unit vector
    perpendicular to the line from the predicted point to the agent.  The
    steering vector of the starting frame is left alone: the push begins
    on the next frame. *)
Theorem juke_starts_sideways (p : Player) (a : AI) (base : Base)
  (pred : Pred) (dt : R) (g : Rng) :
  jukeTime a - dt <= 0 -> jukeCool a - dt <= 0 ->
  b_d base < AI_CFG.JUKE_CLOSE_DIST -> 3 / 10 < pr_hv pred ->
  AI_CFG.JUKE_TRIGGER_ANGLE < jukeBearing p base pred ->
  let r := aiApplyJuke p a base pred dt g in
  let a' := fst (fst r) in
  let awayX := b_cx base - pr_px pred in
  let awayY := b_cy base - pr_py pred in
  snd (fst r) = base
  /\ jukeTime a' = AI_CFG.JUKE_DURATION
  /\ jukeCool a' = AI_CFG.JUKE_COOLDOWN + src g (pos g) * (4 / 10)
  /\ pos (snd r) = S (pos g)
  /\ jukeDirX a' * awayX + jukeDirY a' * awayY = 0
  /\ (hypot awayX awayY <> 0 -> hypot (jukeDirX a') (jukeDirY a') = 1)
  /\ (fair g -> 11 / 10 <= jukeCool a' < 15 / 10).
Proof.
  intros Ht Hc Hd Hv Hb r a' awayX awayY.
  subst a' r. unfold aiApplyJuke. cbv zeta.
  cbn [jukeTime jukeCool jukeDirX jukeDirY set_juke].
  rewrite (Rmax_left 0 (jukeTime a - dt)) by lra.
  rewrite (Rmax_left 0 (jukeCool a - dt)) by lra.
  rewrite (Rltb_false 0 0) by lra.
  rewrite (Rltb_true _ _ Hd), (Reqb_true 0 0 eq_refl), (Rltb_true _ _ Hv).
  cbn [andb]. unfold jukeBearing in Hb. cbv zeta in Hb.
  rewrite (Rltb_true _ _ Hb).
  fold awayX awayY. fold (len awayX awayY).
  pose proof (len_pos awayX awayY) as Lp.
  set (n := len awayX awayY) in *.
  assert (P1 : - (awayY / n) * awayX + awayX / n * awayY = 0)
    by (field; lra).
  assert (P2 : awayY / n * awayX + - (awayX / n) * awayY = 0)
    by (field; lra).
  assert (U : hypot awayX awayY <> 0 ->
              hypot (- (awayY / n)) (awayX / n) = 1
              /\ hypot (awayY / n) (- (awayX / n)) = 1).
  { intros NZ. rewrite hypot_perp, hypot_perp'.
    split; now apply hypot_div_len. }
  assert (F : fair g ->
              11 / 10 <= AI_CFG.JUKE_COOLDOWN + src g (pos g) * (4 / 10)
              < 15 / 10).
  { intros Hf. specialize (Hf (pos g)). cfg. lra. }
  destruct (_ >? _); simpl; repeat split; auto; try (apply F; assumption);
    try (intros NZ; apply U; assumption).
Qed.

Lemma jukeBearing_close : jukeBearing player0 base_close pred_right = 1.
Proof.
  unfold jukeBearing. simpl. cfg.
  replace (232 - (120 + 24 / 2)) with 100 by lra.
  replace (132 - (120 + 24 / 2)) with 0 by lra.
  rewrite !hypot_axis_x, !Rabs_pos_eq by lra.
  rewrite !orElse_nonzero by lra. field.
Qed.

Lemma juke_starts_sideways_witness :
  jukeTime (fst (fst (aiApplyJuke player0 ai_rest base_close pred_right
                        (1 / 100) rng_half)))
  = AI_CFG.JUKE_DURATION.
Proof.
  destruct (juke_starts_sideways player0 ai_rest base_close pred_right
              (1 / 100) rng_half) as (_ & H & _).
  - simpl. lra.
  - simpl. lra.
  - simpl. cfg. lra.
  - simpl. lra.
  - rewrite jukeBearing_close. cfg. lra.
  - exact H.
Defined.

(** ** Patrol *)

Lemma sign_pos (a : R) : 0 < a -> sign a = 1.
Proof. intros H. unfold sign. now rewrite (Rltb_true 0 a H). Qed.

Lemma sign_neg (a : R) : a < 0 -> sign a = -1.
Proof.
  intros H. unfold sign.
  now rewrite (Rltb_false 0 a) by lra; rewrite (Rltb_true a 0 H).
Qed.

Lemma sign_range (a : R) : -1 <= sign a <= 1.
Proof. unfold sign. destruct (0 <? a); [lra |]. destruct (a <? 0); lra. Qed.

Lemma unit_component (a b : R) :
  -1 <= a / orElse (hypot a b) 1 <= 1 /\ -1 <= b / orElse (hypot a b) 1 <= 1.
Proof.
  destruct (unitOrZero_length a b) as (_ & _ & L). unfold unitOrZero in L.
  simpl in L.
  pose proof (Rabs_le_hypot_x (a / orElse (hypot a b) 1)
                (b / orElse (hypot a b) 1)) as Hx.
  pose proof (Rabs_le_hypot_y (a / orElse (hypot a b) 1)
                (b / orElse (hypot a b) 1)) as Hy.
  split; apply Rabs_le_between; lra.
Qed.

(** X19.  A patrol leads off the wall.  On a canvas at least 240 each way, with
    no patrol running and the cooldown over, an agent within 12 of a wall
    whose pursuer is more than 234 away starts one: it lasts 0.5, the
    cooldown is set to 1.6 plus up to 0.5 drawn from the oracle, and the
    direction is a unit vector that points away from every wall the agent
    is near.  The steering vector of the starting frame is left alone. *)
Theorem patrol_leads_off_the_wall (env : Env) (t : Target) (a : AI)
  (base : Base) (pred : Pred) (dt : R) (g : Rng) :
  2 * AI_CFG.SAFE_BAND <= canvas_width env ->
  2 * AI_CFG.SAFE_BAND <= canvas_height env ->
  t_w t <= 216 -> t_h t <= 216 ->
  b_cx base = t_x t + t_w t / 2 -> b_cy base = t_y t + t_h t / 2 ->
  patrolTime a - dt <= 0 -> patrolCool a - dt <= 0 ->
  AI_CFG.ORBIT_DIST * (9 / 10) < b_d base ->
  e_L (aiNearEdges env t) || e_R (aiNearEdges env t)
  || e_T (aiNearEdges env t) || e_B (aiNearEdges env t) = true ->
  let r := aiApplyPatrol env t a base pred dt g in
  let a' := fst (fst r) in
  snd (fst r) = base
  /\ patrolTime a' = AI_CFG.PATROL_TIME
  /\ patrolCool a' = AI_CFG.PATROL_COOLDOWN + src g (pos g) * (5 / 10)
  /\ pos (snd r) = S (pos g)
  /\ hypot (patrolDirX a') (patrolDirY a') = 1
  /\ (e_L (aiNearEdges env t) = true -> 0 < patrolDirX a')
  /\ (e_R (aiNearEdges env t) = true -> patrolDirX a' < 0)
  /\ (e_T (aiNearEdges env t) = true -> 0 < patrolDirY a')
  /\ (e_B (aiNearEdges env t) = true -> patrolDirY a' < 0).
Proof.
  intros HW HH Hw Hh Ecx Ecy Ht Hc Hd He r a'. subst a' r.
  unfold aiApplyPatrol. cbv zeta.
  cbn [patrolTime patrolCool patrolDirX patrolDirY set_patrol].
  rewrite (Rmax_left 0 (patrolTime a - dt)) by lra.
  rewrite (Rmax_left 0 (patrolCool a - dt)) by lra.
  rewrite (Rltb_false 0 0) by lra.
  rewrite (Rltb_true _ _ Hd), (Reqb_true 0 0 eq_refl).
  assert (On : inCorner (aiNearEdges env t) || e_L (aiNearEdges env t)
               || e_R (aiNearEdges env t) || e_T (aiNearEdges env t)
               || e_B (aiNearEdges env t) = true).
  { destruct (inCorner _); [reflexivity | exact He]. }
  rewrite On. cbn [andb].
  set (cx := b_cx base) in *. set (cy := b_cy base) in *.
  set (tangX := - (pr_py pred - cy)). set (tangY := pr_px pred - cx).
  destruct (unit_component tangX tangY) as [Ux Uy].
  set (u := tangX / orElse (hypot tangX tangY) 1) in *.
  set (v := tangY / orElse (hypot tangX tangY) 1) in *.
  set (targetX := Rmin (canvas_width env - AI_CFG.SAFE_BAND)
                       (Rmax AI_CFG.SAFE_BAND cx)).
  set (targetY := Rmin (canvas_height env - AI_CFG.SAFE_BAND)
                       (Rmax AI_CFG.SAFE_BAND cy)).
  pose proof (sign_range (targetX - cx)) as Sx.
  pose proof (sign_range (targetY - cy)) as Sy.
  set (dirX := 75 / 100 * sign (targetX - cx) + 25 / 100 * u).
  set (dirY := 75 / 100 * sign (targetY - cy) + 25 / 100 * v).
  fold (len dirX dirY). pose proof (len_pos dirX dirY) as Lp.
  assert (EL : e_L (aiNearEdges env t) = true -> 1 / 2 <= dirX).
  { unfold aiNearEdges. cbn [e_L]. intros E. apply Rltb_lt in E.
    revert E HW. cfg. intros E HW.
    assert (S1 : sign (targetX - cx) = 1).
    { apply sign_pos. unfold targetX. cfg.
      rewrite Rmax_left by lra. rewrite Rmin_right by lra. lra. }
    unfold dirX. rewrite S1. lra. }
  assert (ER : e_R (aiNearEdges env t) = true -> dirX <= - (1 / 2)).
  { unfold aiNearEdges. cbn [e_R]. intros E. apply Rltb_lt in E.
    revert E HW. cfg. intros E HW.
    assert (S1 : sign (targetX - cx) = -1).
    { apply sign_neg. unfold targetX. cfg.
      rewrite Rmax_right by lra. rewrite Rmin_left by lra. lra. }
    unfold dirX. rewrite S1. lra. }
  assert (ET : e_T (aiNearEdges env t) = true -> 1 / 2 <= dirY).
  { unfold aiNearEdges. cbn [e_T]. intros E. apply Rltb_lt in E.
    revert E HH. cfg. intros E HH.
    assert (S1 : sign (targetY - cy) = 1).
    { apply sign_pos. unfold targetY. cfg.
      rewrite Rmax_left by lra. rewrite Rmin_right by lra. lra. }
    unfold dirY. rewrite S1. lra. }
  assert (EB : e_B (aiNearEdges env t) = true -> dirY <= - (1 / 2)).
  { unfold aiNearEdges. cbn [e_B]. intros E. apply Rltb_lt in E.
    revert E HH. cfg. intros E HH.
    assert (S1 : sign (targetY - cy) = -1).
    { apply sign_neg. unfold targetY. cfg.
      rewrite Rmax_right by lra. rewrite Rmin_left by lra. lra. }
    unfold dirY. rewrite S1. lra. }
  assert (NZ : hypot dirX dirY <> 0).
  { intros Z. destruct (hypot_eq_zero _ _ Z) as [Zx Zy].
    destruct (e_L (aiNearEdges env t)); [specialize (EL eq_refl); lra |].
    destruct (e_R (aiNearEdges env t)); [specialize (ER eq_refl); lra |].
    destruct (e_T (aiNearEdges env t)); [specialize (ET eq_refl); lra |].
    destruct (e_B (aiNearEdges env t)); [specialize (EB eq_refl); lra |].
    discriminate. }
  pose proof (Rinv_0_lt_compat _ Lp) as Ip.
  simpl. split; [reflexivity |]. split; [reflexivity |].
  split; [reflexivity |]. split; [reflexivity |].
  split; [now apply hypot_div_len |].
  unfold Rdiv.
  split; [intros E; specialize (EL E); nra |].
  split; [intros E; specialize (ER E); nra |].
  split; [intros E; specialize (ET E); nra |].
  intros E; specialize (EB E); nra.
Qed.

Lemma patrol_leads_off_the_wall_witness :
  0 < patrolDirX (fst (fst (aiApplyPatrol env0 target_left ai_rest base_far
                              pred_right (1 / 100) rng_half))).
Proof.
  assert (L : e_L (aiNearEdges env0 target_left) = true)
    by (unfold aiNearEdges; simpl; cfg; now rewrite (Rltb_true 1 12) by lra).
  destruct (patrol_leads_off_the_wall env0 target_left ai_rest base_far
              pred_right (1 / 100) rng_half)
    as (_ & _ & _ & _ & _ & H & _);
    try (simpl; cfg; lra).
  - now rewrite L.
  - now apply H.
Defined.

(** X20.  A patrol waits for an edge.  With no patrol running, an agent that is
    off every edge (or whose pursuer is within 234, or whose patrol is
    still cooling down) starts none: the patrol layer only runs its timers
    and leaves the steering vector, the patrol direction and the oracle as
    they were. *)
Theorem patrol_waits_for_an_edge (env : Env) (t : Target) (a : AI)
  (base : Base) (pred : Pred) (dt : R) (g : Rng) :
  patrolTime a - dt <= 0 ->
  awayFromWalls env t AI_CFG.CORNER_NEAR_EDGE
  \/ b_d base <= AI_CFG.ORBIT_DIST * (9 / 10)
  \/ 0 < patrolCool a - dt ->
  let r := aiApplyPatrol env t a base pred dt g in
  snd (fst r) = base /\ snd r = g
  /\ patrolTime (fst (fst r)) = 0
  /\ patrolCool (fst (fst r)) = Rmax 0 (patrolCool a - dt)
  /\ 0 <= patrolCool (fst (fst r))
  /\ patrolDirX (fst (fst r)) = patrolDirX a
  /\ patrolDirY (fst (fst r)) = patrolDirY a.
Proof.
  intros Ht Hc. unfold aiApplyPatrol. cbv zeta.
  cbn [patrolTime patrolCool set_patrol].
  rewrite (Rmax_left 0 (patrolTime a - dt)) by lra.
  rewrite (Rltb_false 0 0) by lra.
  assert (C : (b_d base >? AI_CFG.ORBIT_DIST * (9 / 10))
              && (inCorner (aiNearEdges env t) || e_L (aiNearEdges env t)
                  || e_R (aiNearEdges env t) || e_T (aiNearEdges env t)
                  || e_B (aiNearEdges env t))
              && (Rmax 0 (patrolCool a - dt) =? 0) = false).
  { destruct Hc as [[[X1 X2] [Y1 Y2]] | [H | H]].
    - unfold aiNearEdges. cbv zeta. cbn [inCorner e_L e_R e_T e_B].
      rewrite (Rltb_false (t_x t) _ X1), (Rltb_false (t_y t) _ Y1).
      rewrite (Rltb_false _ (t_x t) X2), (Rltb_false _ (t_y t) Y2).
      simpl. now rewrite andb_false_r.
    - now rewrite (Rltb_false _ _ H).
    - rewrite (Rmax_right 0 (patrolCool a - dt)) by lra.
      rewrite (Reqb_false (patrolCool a - dt) 0) by lra.
      now rewrite andb_false_r. }
  rewrite C. simpl. repeat split; auto using Rmax0_nonneg.
Qed.

Lemma patrol_waits_for_an_edge_witness :
  snd (fst (aiApplyPatrol env0 target0 ai_rest base_far pred_right (1 / 100)
              rng_half)) = base_far.
Proof.
  destruct (patrol_waits_for_an_edge env0 target0 ai_rest base_far pred_right
              (1 / 100) rng_half) as (H & _).
  - simpl. lra.
  - left. unfold awayFromWalls. simpl. cfg. lra.
  - exact H.
Defined.

(** ** Dispersion *)

(** X21.  Dispersion needs a neighbour.  For an agent near an edge whose
    neighbours are all off the edges and at least the minimum spacing
    away, and for any agent off the edges, the dispersion layer adds
    nothing to the steering vector and draws nothing from the oracle. *)
Theorem dispersion_needs_a_neighbour (env : Env) (ts : list Target)
  (i : nat) (t : Target) (base : Base) (g : Rng) :
  nearEdge12 env t = false
  \/ (forall j o, nth_error ts j = Some o -> j <> i ->
        nearEdge12 env o = false
        /\ AI_PROFILE.DISPERSION_MIN_SPACING <= centreDist t o) ->
  let r := aiApplyDispersion env ts i t base g in
  sx (fst r) = sx base /\ sy (fst r) = sy base
  /\ b_d (fst r) = b_d base /\ b_cx (fst r) = b_cx base
  /\ b_cy (fst r) = b_cy base /\ snd r = g.
Proof.
  intros [N | Al]; cbv zeta.
  - rewrite (aiApplyDispersion_inner env ts i t base g N). now repeat split.
  - unfold aiApplyDispersion. cbv zeta.
    destruct (nearEdge12 env t) eqn:N; [| now repeat split].
    cbn [negb].
    assert (F : forall ex ey,
              fold_left (dispStep env i (t_x t + t_w t / 2)
                           (t_y t + t_h t / 2) ex ey true)
                        (indexed ts) (0, 0, 0, g) = (0, 0, 0, g)).
    { intros ex ey. apply fold_left_fixed. intros [j o] Hin.
      apply indexed_In in Hin. destruct Hin as [_ Hn].
      rewrite Nat.sub_0_r in Hn. unfold dispStep.
      destruct (Nat.eqb_spec j i) as [-> | Nj]; [reflexivity |].
      destruct (Al j o Hn Nj) as [Ne Hd]. unfold centreDist in Hd.
      cbv zeta. rewrite (Rltb_false _ _ Hd), Ne. reflexivity. }
    destruct (_ || _); rewrite F; simpl; repeat split; ring.
Qed.

Lemma dispersion_needs_a_neighbour_witness :
  sy (fst (aiApplyDispersion env0 [target_left; target0] 0 target_left
             base_far rng_half)) = sy base_far.
Proof.
  destruct (dispersion_needs_a_neighbour env0 [target_left; target0] 0
              target_left base_far rng_half) as (_ & H & _); [| exact H].
  right. intros [| [| j]] o Hn Hj; simpl in Hn; try discriminate;
    [contradiction | | destruct j; discriminate].
  injection Hn as <-. split.
  - unfold nearEdge12. simpl. rcmp. reflexivity.
  - unfold centreDist. simpl.
    pose proof (Rabs_le_hypot_x (1 + 24 / 2 - (308 + 24 / 2))
                  (228 + 24 / 2 - (228 + 24 / 2))) as H.
    rewrite Rabs_left in H by lra. cfg. lra.
Defined.

(** X22.  The fan term steers toward the neighbour.  Take an agent near a
    vertical edge (its nearest wall is the left or the right one) and a
    single neighbour that is near an edge too, at least the minimum
    spacing away and not level with it.  Dispersion then adds nothing
    across the edge, and along the edge it adds 0.9 times the sign of the
    neighbour's offset: when the neighbour is further down, the agent is
    steered down. *)
Theorem edge_fan_steers_toward_the_neighbour (env : Env) (t o : Target)
  (base : Base) (g : Rng) :
  nearEdge12 env t = true -> nearEdge12 env o = true ->
  (let minD := Rmin (Rmin (Rmin (t_x t) (canvas_width env - (t_x t + t_w t)))
                          (t_y t))
                    (canvas_height env - (t_y t + t_h t)) in
   minD = t_x t \/ minD = canvas_width env - (t_x t + t_w t)) ->
  AI_PROFILE.DISPERSION_MIN_SPACING <= centreDist t o ->
  t_y o + t_h o / 2 <> t_y t + t_h t / 2 ->
  let r := aiApplyDispersion env [t; o] 0 t base g in
  sx (fst r) = sx base
  /\ sy (fst r)
     = sy base
       + sign ((t_y o + t_h o / 2) - (t_y t + t_h t / 2))
         * AI_PROFILE.DISPERSION_EDGE_FAN
  /\ snd r = g.
Proof.
  intros Nt No Hmin Hd Hy. cbv zeta in Hmin.
  unfold aiApplyDispersion. cbv zeta. rewrite Nt. cbn [negb].
  assert (E : (Rmin (Rmin (Rmin (t_x t) (canvas_width env - (t_x t + t_w t)))
                          (t_y t))
                    (canvas_height env - (t_y t + t_h t)) =? t_x t)
              || (Rmin (Rmin (Rmin (t_x t)
                                   (canvas_width env - (t_x t + t_w t)))
                             (t_y t))
                       (canvas_height env - (t_y t + t_h t))
                  =? canvas_width env - (t_x t + t_w t)) = true).
  { destruct Hmin as [H | H].
    - now rewrite (Reqb_true _ _ H).
    - rewrite (Reqb_true _ (canvas_width env - (t_x t + t_w t)) H).
      apply orb_true_r. }
  rewrite E. unfold indexed. simpl. unfold centreDist in Hd.
  rewrite (Rltb_false _ _ Hd). fold (nearEdge12 env o). rewrite No.
  simpl.
  rewrite Reqb_false by lra. simpl.
  repeat split; [ring |].
  replace ((t_x o + t_w o / 2 - (t_x t + t_w t / 2)) * 0
           + (t_y o + t_h o / 2 - (t_y t + t_h t / 2)) * 1)
    with (t_y o + t_h o / 2 - (t_y t + t_h t / 2)) by ring.
  ring.
Qed.

Lemma edge_fan_steers_toward_the_neighbour_witness :
  sy (fst (aiApplyDispersion env0 [target_left; target_below] 0 target_left
             base_far rng_half))
  = sy base_far + 1 * AI_PROFILE.DISPERSION_EDGE_FAN.
Proof.
  destruct (edge_fan_steers_toward_the_neighbour env0 target_left
              target_below base_far rng_half) as (_ & H & _).
  - unfold nearEdge12. simpl. rcmp. reflexivity.
  - unfold nearEdge12. simpl. rcmp. reflexivity.
  - left. simpl. rewrite (Rmin_left 1 (640 - (1 + 24))) by lra.
    rewrite (Rmin_left 1 228) by lra. apply Rmin_left. lra.
  - unfold centreDist. simpl.
    pose proof (Rabs_le_hypot_y (1 + 24 / 2 - (1 + 24 / 2))
                  (228 + 24 / 2 - (428 + 24 / 2))) as H.
    rewrite Rabs_left in H by lra. cfg. lra.
  - simpl. lra.
  - rewrite H. simpl. rewrite sign_pos by lra. reflexivity.
Defined.

(** ** Frames *)

Lemma frame_dt_bounds (t last : R) :
  frame_dt t last <= 33 / 1000
  /\ (last <= t -> 0 <= frame_dt t last)
  /\ (t - last <= 33 -> frame_dt t last = (t - last) / 1000)
  /\ (t < last -> frame_dt t last < 0).
Proof.
  unfold frame_dt, Rmin. destruct (Rle_dec _ _); repeat split; intros; lra.
Qed.

Lemma update_player (env : Env) (dt : R) (s : State) :
  alive s = true ->
  player (update env dt s) = player s
  \/ player (update env dt s) = movePlayer env dt (player s) (keys s).
Proof.
  intros Ha. pose proof (drained_range s dt) as Hr.
  destruct (Rle_dec (drained s dt) 0) as [Z | P].
  - left. destruct (update_health env dt s Ha) as (_ & _ & _ & E & _).
    rewrite E by lra. reflexivity.
  - right. rewrite (update_live env dt s Ha) by lra.
    destruct (refillOnClear_session env
                (capturePass env dt s (drained s dt))) as (-> & _).
    destruct (capturePass_frame env dt s (drained s dt)) as [E _].
    unfold session in E. now injection E.
Qed.

Lemma frame_reach (env : Env) (t last : R) (i : nat) (s : State)
  (t0 : Target) :
  last <= t -> nth_error (targets s) i = Some t0 -> inArena env t0 ->
  exists t',
    nth_error (targets (updateTargetAI env (frame_dt t last) i s)) i = Some t'
    /\ Rabs (t_x t' - t_x t0) <= 81312 / 10000
    /\ Rabs (t_y t' - t_y t0) <= 81312 / 10000.
Proof.
  intros Hc Hi Hin.
  destruct (frame_dt_bounds t last) as (B1 & B2 & _). specialize (B2 Hc).
  destruct (updateTargetAI_reach env (frame_dt t last) i s t0 Hi Hin)
    as (t' & Hn & _ & _ & Hx & Hy).
  exists t'. split; [exact Hn |].
  assert (Rr : reach (frame_dt t last) <= 81312 / 10000).
  { unfold reach. cfg. rewrite Rabs_pos_eq by lra. lra. }
  split; unfold Rabs; destruct (Rcase_abs _); lra.
Qed.

(** X23.  The frame time is the clock difference in seconds, capped at 0.033
    but not floored: a clock that steps back gives a negative frame time.
    With the clock going forward, a frame of a live session adds at
    most 0.033 to the elapsed time, drains at most 0.264 of health, moves
    a player that is on the canvas by at most 7.92 along each axis, and no
    agent update of the frame moves an agent of the arena by more than
    8.1312 along an axis, a third of the side of a cube. *)
Theorem a_frame_is_a_short_tick (env : Env) (t last : R) (s : State) :
  last <= t -> alive s = true -> 0 <= hp s <= CFG.HEALTH_MAX ->
  onCanvas env (player s) -> p_speed (player s) = CFG.PLAYER_SPEED ->
  let dt := frame_dt t last in
  let s' := fst (frame env t (s, last)) in
  snd (frame env t (s, last)) = t
  /\ s' = update env dt s
  /\ 0 <= dt <= 33 / 1000
  /\ (t - last <= 33 -> dt = (t - last) / 1000)
  /\ elapsed s' = elapsed s + dt
  /\ hp s - 264 / 1000 <= hp s'
  /\ Rabs (p_x (player s') - p_x (player s)) <= 792 / 100
  /\ Rabs (p_y (player s') - p_y (player s)) <= 792 / 100
  /\ (forall i s1 t0,
        nth_error (targets s1) i = Some t0 -> inArena env t0 ->
        exists t',
          nth_error (targets (updateTargetAI env dt i s1)) i = Some t'
          /\ Rabs (t_x t' - t_x t0) <= 81312 / 10000
          /\ Rabs (t_y t' - t_y t0) <= 81312 / 10000).
Proof.
  intros Hc Ha Hh [Ox Oy] Hs dt s'.
  destruct (frame_dt_bounds t last) as (B1 & B2 & B3 & _).
  specialize (B2 Hc). fold dt in B1, B2, B3.
  assert (E : s' = update env dt s) by reflexivity.
  split; [reflexivity |]. split; [exact E |]. split; [lra |].
  split; [exact B3 |]. rewrite E.
  split; [now apply update_elapsed |].
  split; [| split; [| split; [| intros i s1 t0 Hi Hin;
                                 now apply frame_reach]]].
  - destruct (update_health env dt s Ha) as (_ & _ & _ & D & A).
    pose proof (drained_range s dt) as Hr.
    assert (Dv : hp s - CFG.HEALTH_DECAY_PER_SEC * dt <= drained s dt).
    { unfold drained.
      destruct (clamp_cases (hp s - CFG.HEALTH_DECAY_PER_SEC * dt) 0
                  CFG.HEALTH_MAX) as (_ & I & L & _); [cfg; lra |].
      destruct (Rle_dec (hp s - CFG.HEALTH_DECAY_PER_SEC * dt) 0) as [Z | P].
      - rewrite L by lra. lra.
      - rewrite I; [lra |]. revert Hh B2. cfg. intros; lra. }
    destruct (Rle_dec (drained s dt) 0) as [Z | P].
    + rewrite D by lra. simpl. revert Dv. cfg. intros; lra.
    + rewrite A by lra. revert Dv Hr.
      destruct (targets (capturePass env dt s (drained s dt))); cfg;
        intros; lra.
  - assert (Wd : p_w (player s) <= canvas_width env) by lra.
    assert (Hd : p_h (player s) <= canvas_height env) by lra.
    destruct (movePlayer_shape env dt (player s) (keys s) Wd Hd)
      as (_ & _ & _ & _ & _ & Mx & _).
    specialize (Mx Ox).
    assert (Sp : Rabs (p_speed (player s) * dt) <= 792 / 100).
    { rewrite Hs. cfg. rewrite Rabs_pos_eq by lra. lra. }
    destruct (update_player env dt s Ha) as [-> | ->].
    + rewrite Rminus_diag, Rabs_R0. lra.
    + lra.
  - assert (Wd : p_w (player s) <= canvas_width env) by lra.
    assert (Hd : p_h (player s) <= canvas_height env) by lra.
    destruct (movePlayer_shape env dt (player s) (keys s) Wd Hd)
      as (_ & _ & _ & _ & _ & _ & My).
    specialize (My Oy).
    assert (Sp : Rabs (p_speed (player s) * dt) <= 792 / 100).
    { rewrite Hs. cfg. rewrite Rabs_pos_eq by lra. lra. }
    destruct (update_player env dt s Ha) as [-> | ->].
    + rewrite Rminus_diag, Rabs_R0. lra.
    + lra.
Qed.

Lemma a_frame_is_a_short_tick_witness :
  elapsed (fst (frame env0 1016 (state1, 1000)))
  = elapsed state1 + frame_dt 1016 1000.
Proof.
  destruct (a_frame_is_a_short_tick env0 1016 1000 state1)
    as (_ & _ & _ & _ & H & _);
    try (unfold onCanvas; simpl; cfg; lra); try reflexivity.
  exact H.
Defined.

(** X24.  [ensureCap] only ever appends: the agents it finds are kept in place,
    new ones are pushed until the array reaches the cap of the elapsed
    time, and an array at or above the cap is left as it is.  It touches
    neither the session nor the score. *)
Theorem ensureCap_only_appends (env : Env) (s : State) :
  let s' := ensureCap env s in
  (exists new, targets s' = targets s ++ new)
  /\ Z.of_nat (length (targets s'))
     = Z.max (targetCap s) (Z.of_nat (length (targets s)))
  /\ (targetCap s <= Z.of_nat (length (targets s)) -> s' = s)%Z
  /\ session s' = session s /\ score s' = score s
  /\ ensureCap env s' = s'.
Proof.
  cbv zeta. unfold ensureCap.
  pose proof (spawnToCap_session env (targetCap s) s) as Hs.
  assert (Ec : targetCap (spawnToCap env (targetCap s) s) = targetCap s).
  { unfold session in Hs. injection Hs as _ _ _ _ He.
    unfold targetCap at 1 3. now rewrite He. }
  assert (L : Z.of_nat (length (targets (spawnToCap env (targetCap s) s)))
              = Z.max (targetCap s) (Z.of_nat (length (targets s)))).
  { destruct (Z_lt_dec (Z.of_nat (length (targets s))) (targetCap s)).
    - rewrite spawnToCap_length by lia. lia.
    - rewrite spawnToCap_full by lia. lia. }
  split; [| split; [exact L | split; [| split; [exact Hs | split]]]].
  - destruct (spawnToCap_appends env (fun _ => True) (targetCap s) s)
      as (_ & new & E & _); [auto |]. now exists new.
  - intros H. now apply spawnToCap_full.
  - apply spawnToCap_score.
  - rewrite Ec. apply spawnToCap_full. lia.
Qed.

Lemma ensureCap_only_appends_witness : ensureCap env0 state1 = state1.
Proof.
  destruct (ensureCap_only_appends env0 state1) as (_ & _ & F & _).
  apply F. unfold targetCap. simpl. rewrite capAt_zero by (cfg; lra).
  lia.
Defined.

(** ** The first revision: ticks, containment and the dash *)

Section FirstRevisionTick.

Lemma Rev1_push_target_frame (s : Rev1.State) :
  Rev1.player (Rev1.push_target s) = Rev1.player s
  /\ Rev1.score (Rev1.push_target s) = Rev1.score s
  /\ Rev1.keys (Rev1.push_target s) = Rev1.keys s
  /\ exists t, Rev1.targets (Rev1.push_target s) = Rev1.targets s ++ [t].
Proof.
  unfold Rev1.push_target.
  destruct (Rev1.spawnOneTarget _ _) as [t g]. simpl.
  repeat split. now exists t.
Qed.

Lemma Rev1_ensureTargetCount_spec (s : Rev1.State) :
  Rev1.player (Rev1.ensureTargetCount s) = Rev1.player s
  /\ Rev1.score (Rev1.ensureTargetCount s) = Rev1.score s
  /\ Rev1.keys (Rev1.ensureTargetCount s) = Rev1.keys s
  /\ (exists new, Rev1.targets (Rev1.ensureTargetCount s)
                  = Rev1.targets s ++ new)
  /\ length (Rev1.targets (Rev1.ensureTargetCount s))
     = Nat.max Rev1.CFG.TARGET_COUNT (length (Rev1.targets s)).
Proof.
  funelim (Rev1.ensureTargetCount s).
  - destruct H as (Hp & Hs & Hk & (new & Hn) & Hl).
    destruct (Rev1_push_target_frame s) as (Pp & Ps & Pk & (t & Pt)).
    rewrite Hp, Hs, Hk, Pp, Ps, Pk. repeat split.
    + exists ([t] ++ new). now rewrite Hn, Pt, <- app_assoc.
    + rewrite Hl, Pt, length_app. cbn [length].
      unfold Rev1.CFG.TARGET_COUNT in *. lia.
  - repeat split; [exists []; now rewrite app_nil_r |].
    unfold Rev1.CFG.TARGET_COUNT in *. lia.
Qed.

Variable clock : nat -> R.
Variable dt : R.

Lemma Rev1_collectStep_count (i : nat) (s : Rev1.State) :
  Rev1.player (Rev1.collectStep clock dt i s) = Rev1.player s
  /\ (Rev1.score (Rev1.collectStep clock dt i s)
      + Z.of_nat (length (Rev1.targets (Rev1.collectStep clock dt i s)))
      = Rev1.score s + Z.of_nat (length (Rev1.targets s)))%Z
  /\ (Rev1.score s <= Rev1.score (Rev1.collectStep clock dt i s))%Z.
Proof.
  unfold Rev1.collectStep.
  destruct (nth_error (Rev1.targets s) i) as [t |] eqn:Hn;
    [| repeat split; lia].
  destruct (Rev1.updateTargetAI _ _ _ _ _ _) as [t' g].
  destruct (rectsOverlap _ _); simpl.
  - pose proof (removeNth_valid _ _ _ Hn). repeat split; lia.
  - rewrite setNth_length. repeat split; lia.
Qed.

Lemma Rev1_collectLoop_count (n : nat) (s : Rev1.State) :
  Rev1.player (Rev1.collectLoop clock dt n s) = Rev1.player s
  /\ (Rev1.score (Rev1.collectLoop clock dt n s)
      + Z.of_nat (length (Rev1.targets (Rev1.collectLoop clock dt n s)))
      = Rev1.score s + Z.of_nat (length (Rev1.targets s)))%Z
  /\ (Rev1.score s <= Rev1.score (Rev1.collectLoop clock dt n s))%Z.
Proof.
  revert s; induction n as [| n IH]; intros s; simpl;
    [repeat split; lia |].
  destruct (IH (Rev1.collectStep clock dt n s)) as (P1 & C1 & S1).
  destruct (Rev1_collectStep_count n s) as (P2 & C2 & S2).
  repeat split; [congruence | lia | lia].
Qed.

End FirstRevisionTick.

(** X25.  First revision: every catch is answered in the same tick.  A tick
    that starts with at most [TARGET_COUNT] agents (one) ends with exactly
    that many: the agents the pass collects are replaced before the tick
    is over, and the score has grown by the number collected. *)
Theorem Rev1_update_keeps_the_target_count (clock : nat -> R) (dt : R)
  (s : Rev1.State) :
  (length (Rev1.targets s) <= Rev1.CFG.TARGET_COUNT)%nat ->
  let s' := Rev1.update clock dt s in
  length (Rev1.targets s') = Rev1.CFG.TARGET_COUNT
  /\ (Rev1.score s <= Rev1.score s'
      <= Rev1.score s + Z.of_nat (length (Rev1.targets s)))%Z
  /\ Rev1.player s' = Rev1.movePlayer dt (Rev1.player s) (Rev1.keys s).
Proof.
  intros L s'. unfold s', Rev1.update. cbv zeta.
  set (s1 := Rev1.mkState _ _ _ _ _).
  change (Rev1.targets s1) with (Rev1.targets s).
  destruct (Rev1_collectLoop_count clock dt (length (Rev1.targets s)) s1)
    as (P & C & S).
  set (s2 := Rev1.collectLoop clock dt (length (Rev1.targets s)) s1) in *.
  destruct (Rev1_ensureTargetCount_spec s2) as (Hp & Hs & _ & _ & Hl).
  change (Rev1.targets s1) with (Rev1.targets s) in C.
  change (Rev1.score s1) with (Rev1.score s) in C, S.
  rewrite Hl, Hs, Hp, P. repeat split; try lia.
Qed.

Lemma Rev1_update_keeps_the_target_count_witness :
  length (Rev1.targets (Rev1.update (fun _ => 0) (1 / 100)
                          (Rev1.boot Rev1_state0)))
  = Rev1.CFG.TARGET_COUNT.
Proof.
  destruct (Rev1_update_keeps_the_target_count (fun _ => 0) (1 / 100)
              (Rev1.boot Rev1_state0)) as (H & _); [| exact H].
  unfold Rev1.boot.
  destruct (Rev1_ensureTargetCount_spec
              (Rev1.mkState (Rev1.player Rev1_state0) []
                 (Rev1.score Rev1_state0) (Rev1.keys Rev1_state0)
                 (Rev1.rng Rev1_state0))) as (_ & _ & _ & _ & ->).
  unfold Rev1.CFG.TARGET_COUNT. simpl. lia.
Defined.

Lemma Rev1_stayInside_inArena (t : Rev1.Target) :
  Rev1.w t <= Rev1.CFG.CANVAS_W -> Rev1.h t <= Rev1.CFG.CANVAS_H ->
  Rev1_inArena (Rev1.stayInside t).
Proof.
  intros Hw Hh. unfold Rev1_inArena, Rev1.stayInside. rdec; simpl; lra.
Qed.

Lemma Rev1_stayInside_rest (t : Rev1.Target) :
  Rev1.w (Rev1.stayInside t) = Rev1.w t
  /\ Rev1.h (Rev1.stayInside t) = Rev1.h t
  /\ Rev1.maxSpeed (Rev1.stayInside t) = Rev1.maxSpeed t
  /\ Rev1.dashTime (Rev1.stayInside t) = Rev1.dashTime t
  /\ Rev1.dashCooldown (Rev1.stayInside t) = Rev1.dashCooldown t.
Proof. unfold Rev1.stayInside. split_lets. simpl. repeat split. Qed.

(** X26.  First revision: an agent update leaves the agent inside the 640 by
    480 canvas, with its size unchanged and its speed within its maximum
    speed. *)
Theorem Rev1_agent_is_contained_and_capped (player : Player) (score : Z)
  (now : R) (t : Rev1.Target) (dt : R) (g : Rng) :
  Rev1.w t <= Rev1.CFG.CANVAS_W -> Rev1.h t <= Rev1.CFG.CANVAS_H ->
  0 <= Rev1.maxSpeed t -> 0 <= Rev1.baseSpeed t -> (0 <= score)%Z ->
  let t' := fst (Rev1.updateTargetAI player score now t dt g) in
  Rev1_inArena t'
  /\ Rev1.w t' = Rev1.w t /\ Rev1.h t' = Rev1.h t
  /\ hypot (Rev1.vx t') (Rev1.vy t') <= Rev1.maxSpeed t
  /\ pos (snd (Rev1.updateTargetAI player score now t dt g)) = S (S (pos g)).
Proof.
  intros Hw Hh Hm Hb Hs t'.
  destruct (Rev1_velocity_within_cap player score now t dt g Hm Hb Hs)
    as [V _]. fold t' in V.
  split; [| split; [| split; [| split; [exact V |]]]].
  - unfold t', Rev1.updateTargetAI. split_lets. simpl fst.
    apply Rev1_stayInside_inArena; simpl; assumption.
  - unfold t', Rev1.updateTargetAI. split_lets. simpl fst.
    match goal with
    | |- context [Rev1.stayInside ?u] =>
        destruct (Rev1_stayInside_rest u) as (-> & _)
    end. reflexivity.
  - unfold t', Rev1.updateTargetAI. split_lets. simpl fst.
    match goal with
    | |- context [Rev1.stayInside ?u] =>
        destruct (Rev1_stayInside_rest u) as (_ & -> & _)
    end. reflexivity.
  - unfold Rev1.updateTargetAI. split_lets. simpl snd.
    repeat match goal with
           | H : random _ = _ |- _ => unfold random in H; injection H as ? ?
           end.
    subst. reflexivity.
Qed.

Lemma Rev1_agent_is_contained_and_capped_witness :
  Rev1_inArena
    (fst (Rev1.updateTargetAI (mkPlayer 120 120 24 24 150) 0 0
            Rev1_target_near (1 / 100) rng_half)).
Proof.
  destruct (Rev1_agent_is_contained_and_capped (mkPlayer 120 120 24 24 150)
              0 0 Rev1_target_near (1 / 100) rng_half) as (H & _);
    try (simpl; unfold Rev1.CFG.TARGET_SIZE, Rev1.CFG.CANVAS_W,
         Rev1.CFG.CANVAS_H, Rev1.CFG.TARGET_MAX_SPEED,
         Rev1.CFG.TARGET_BASE_SPEED; lra); [lia |].
  exact H.
Defined.

(** X27.  First revision: the panic dash.  Both dash timers stay at or above
    zero, and the dash time never exceeds the cooldown once that holds.
    A dash starts exactly when the player is closer than the threat
    distance and the cooldown has run out: the dash time is set to 5 and
    the cooldown to 9.  While the cooldown runs, nothing restarts or
    extends the dash. *)
Theorem Rev1_dash_runs_on_its_cooldown (player : Player) (score : Z)
  (now : R) (t : Rev1.Target) (dt : R) (g : Rng) :
  Rev1.dashTime t <= Rev1.dashCooldown t ->
  let t' := fst (Rev1.updateTargetAI player score now t dt g) in
  0 <= Rev1.dashTime t' <= Rev1.dashCooldown t'
  /\ (Rev1_dist player t < Rev1.threatDist t ->
      Rev1.dashCooldown t - dt <= 0 ->
      Rev1.dashTime t' = Rev1.CFG.DASH_TIME
      /\ Rev1.dashCooldown t' = Rev1.CFG.DASH_COOLDOWN)
  /\ (Rev1.threatDist t <= Rev1_dist player t
      \/ 0 < Rev1.dashCooldown t - dt ->
      Rev1.dashTime t' = Rmax 0 (Rev1.dashTime t - dt)
      /\ Rev1.dashCooldown t' = Rmax 0 (Rev1.dashCooldown t - dt)).
Proof.
  intros Inv t'.
  assert (E : Rev1.dashTime t'
              = (if (Rev1_dist player t <? Rev1.threatDist t)
                    && (Rmax 0 (Rev1.dashCooldown t - dt) =? 0)
                 then Rev1.CFG.DASH_TIME
                 else Rmax 0 (Rev1.dashTime t - dt))
              /\ Rev1.dashCooldown t'
                 = (if (Rev1_dist player t <? Rev1.threatDist t)
                       && (Rmax 0 (Rev1.dashCooldown t - dt) =? 0)
                    then Rev1.CFG.DASH_COOLDOWN
                    else Rmax 0 (Rev1.dashCooldown t - dt))).
  { unfold t', Rev1.updateTargetAI, Rev1_dist. split_lets. simpl fst.
    match goal with
    | |- context [Rev1.stayInside ?u] =>
        destruct (Rev1_stayInside_rest u) as (_ & _ & _ & -> & ->)
    end. simpl.
    match goal with
    | H : (if ?c then _ else _) = (_, _) |- _ =>
        destruct c; injection H as <- <-
    end; split; reflexivity. }
  destruct E as [-> ->].
  assert (M : Rmax 0 (Rev1.dashTime t - dt) <= Rmax 0 (Rev1.dashCooldown t - dt)).
  { unfold Rmax. repeat destruct (Rle_dec _ _); lra. }
  pose proof (Rmax_l 0 (Rev1.dashTime t - dt)) as T0.
  split; [| split].
  - destruct (_ && _);
      [unfold Rev1.CFG.DASH_TIME, Rev1.CFG.DASH_COOLDOWN; lra | lra].
  - intros Hd Hc. rewrite (Rltb_true _ _ Hd).
    rewrite (Rmax_left 0 (Rev1.dashCooldown t - dt)) by lra.
    rewrite (Reqb_true 0 0 eq_refl). now split.
  - intros [Hd | Hc].
    + rewrite (Rltb_false _ _ Hd). now split.
    + rewrite (Rmax_right 0 (Rev1.dashCooldown t - dt)) by lra.
      rewrite (Reqb_false (Rev1.dashCooldown t - dt) 0) by lra.
      rewrite andb_false_r. now split.
Qed.

Lemma Rev1_dash_runs_on_its_cooldown_witness :
  0 <= Rev1.dashTime
         (fst (Rev1.updateTargetAI (mkPlayer 120 120 24 24 150) 0 0
                 Rev1_target_near (1 / 100) rng_half))
  <= Rev1.dashCooldown
       (fst (Rev1.updateTargetAI (mkPlayer 120 120 24 24 150) 0 0
               Rev1_target_near (1 / 100) rng_half)).
Proof.
  destruct (Rev1_dash_runs_on_its_cooldown (mkPlayer 120 120 24 24 150) 0 0
              Rev1_target_near (1 / 100) rng_half) as (H & _);
    [simpl; lra | exact H].
Defined.

(** ** The minimal revision *)

(** X28.  Minimal revision: the target is collected once and for all.  A tick
    never brings a target back nor moves it; a target that is left after
    the tick does not touch the player; and the player ends the tick on
    the canvas when the canvas has room for it. *)
Theorem Minimal_target_is_collected_once (env : Env) (dt : R)
  (s : Minimal.State) :
  let s' := Minimal.update env dt s in
  (Minimal.target s = None -> Minimal.target s' = None)
  /\ (forall r, Minimal.target s' = Some r ->
        Minimal.target s = Some r
        /\ rectsOverlap (rectP (Minimal.player s')) r = false)
  /\ Minimal.keys s' = Minimal.keys s
  /\ (p_w (Minimal.player s) <= canvas_width env ->
      p_h (Minimal.player s) <= canvas_height env ->
      onCanvas env (Minimal.player s')).
Proof.
  unfold Minimal.update. cbv zeta.
  match goal with
  | |- context [if ?c then (?a, ?b) else (?a', ?b')] =>
      destruct (if c then (a, b) else (a', b')) as [x y]
  end.
  cbn [Minimal.target Minimal.player Minimal.keys].
  split; [intros ->; reflexivity |]. split; [| split; [reflexivity |]].
  - intros r. destruct (Minimal.target s) as [r0 |]; [| discriminate].
    destruct (rectsOverlap _ r0) eqn:E; [discriminate |].
    intros [= <-]. split; [reflexivity | exact E].
  - intros Hw Hh. unfold onCanvas. simpl. unfold Rmax, Rmin.
    repeat destruct (Rle_dec _ _); lra.
Qed.

Lemma Minimal_target_is_collected_once_witness :
  onCanvas env0 (Minimal.player (Minimal.update env0 (1 / 100) Minimal.start)).
Proof.
  destruct (Minimal_target_is_collected_once env0 (1 / 100) Minimal.start)
    as (_ & _ & _ & C).
  apply C; simpl; lra.
Defined.

(** ** The revision with zigs *)

Lemma Zig_softBounce_inArena (env : Env) (t : Zig.Target) :
  Zig.w t <= canvas_width env -> Zig.h t <= canvas_height env ->
  Zig_inArena env (Zig.softBounce env t).
Proof.
  intros Hw Hh. unfold Zig_inArena, Zig.softBounce. rdec; simpl; lra.
Qed.

Lemma Zig_softBounce_speed (env : Env) (t : Zig.Target) :
  hypot (Zig.vx (Zig.softBounce env t)) (Zig.vy (Zig.softBounce env t))
  <= hypot (Zig.vx t) (Zig.vy t).
Proof.
  apply hypot_mono; unfold Zig.softBounce; rdec; simpl; rabs.
Qed.

Lemma Zig_softBounce_rest (env : Env) (t : Zig.Target) :
  Zig.w (Zig.softBounce env t) = Zig.w t
  /\ Zig.h (Zig.softBounce env t) = Zig.h t
  /\ Zig.mem (Zig.softBounce env t) = Zig.mem t.
Proof. unfold Zig.softBounce. split_lets. simpl. repeat split. Qed.

Lemma Zig_init_ready (t : Zig.Target) (g : Rng) :
  Zig_ready t ->
  0 < Zig.zigTime (fst (Zig.init t g)) ->
  Zig.zigDir (fst (Zig.init t g)) <> None.
Proof.
  intros Hr. unfold Zig.init. destruct (Zig.mem t) as [m |] eqn:E; simpl.
  - now apply Hr.
  - lra.
Qed.

(** X29.  Zig revision: with a frame time that is not negative, the agent
    update is defined (it never reads the zig direction before a zig has
    set it) and leaves the agent inside the arena, with its size unchanged
    and its speed within the maximum speed of 220; and the zig direction
    is again there whenever a zig is running. *)
Theorem Zig_update_is_defined_contained_and_capped (env : Env)
  (player : Player) (ts : list Zig.Target) (i : nat) (t : Zig.Target)
  (dt : R) (g : Rng) :
  0 <= dt -> Zig_ready t ->
  Zig.w t <= canvas_width env -> Zig.h t <= canvas_height env ->
  exists t' g',
    Zig.updateTargetAI env player ts i t dt g = Some (t', g')
    /\ Zig_ready t' /\ Zig_inArena env t'
    /\ Zig.w t' = Zig.w t /\ Zig.h t' = Zig.h t
    /\ hypot (Zig.vx t') (Zig.vy t') <= CFG.TARGET_MAX_SPEED.
Proof.
  intros Hdt Hr Hw Hh. unfold Zig.updateTargetAI.
  pose proof (Zig_init_ready t g Hr) as Hi.
  destruct (Zig.init t g) as [m g0]. simpl in Hi.
  cbv zeta.
  destruct (fold_left _ _ _) as [sepX sepY].
  destruct (if truthy2 sepX sepY then _ else _) as [steerX steerY].
  destruct (if Zig.wanderTimer m - dt <=? 0 then _ else _)
    as [[wT wP] g1].
  match goal with
  | |- context [if ?c then ?a else (?z1, ?z2, Zig.zigDir m, g1)] =>
      assert (Z : exists zt zc zd g2,
                 (if c then a else (z1, z2, Zig.zigDir m, g1))
                 = (zt, zc, zd, g2)
                 /\ (0 < zt -> zd <> None))
  end.
  { destruct (_ && _).
    - destruct (random g1) as [r g2].
      do 4 eexists. split; [reflexivity |]. intros _. discriminate.
    - do 4 eexists. split; [reflexivity |]. intros P. apply Hi.
      unfold Rmax in P. destruct (Rle_dec _ _); lra. }
  destruct Z as (zt & zc & zd & g2 & -> & Hz).
  destruct (zt >? 0) eqn:Zt.
  - apply Rltb_lt in Zt. destruct zd as [[zx zy] |]; [| now elim (Hz Zt)].
    destruct (random g2) as [r3 g3]. destruct (random g3) as [r4 g4].
    match goal with
    | |- context [clampSpeed ?c ?a ?b] =>
        pose proof (clampSpeed_bound c a b) as B;
        destruct (clampSpeed c a b) as [vx2 vy2]
    end.
    simpl in B. do 2 eexists. split; [reflexivity |].
    match goal with
    | |- context [Zig.softBounce env ?u] =>
        destruct (Zig_softBounce_rest env u) as (Ew & Eh & Em);
        pose proof (Zig_softBounce_speed env u) as Sp;
        pose proof (Zig_softBounce_inArena env u) as Ar
    end.
    simpl in *. split; [| split; [now apply Ar | split; [exact Ew |
      split; [exact Eh |]]]].
    + intros m' Hm'. rewrite Em in Hm'. injection Hm' as <-. simpl.
      intros _. discriminate.
    + specialize (B ltac:(cfg; lra)). lra.
  - destruct (random g2) as [r3 g3]. destruct (random g3) as [r4 g4].
    match goal with
    | |- context [clampSpeed ?c ?a ?b] =>
        pose proof (clampSpeed_bound c a b) as B;
        destruct (clampSpeed c a b) as [vx2 vy2]
    end.
    simpl in B. do 2 eexists. split; [reflexivity |].
    match goal with
    | |- context [Zig.softBounce env ?u] =>
        destruct (Zig_softBounce_rest env u) as (Ew & Eh & Em);
        pose proof (Zig_softBounce_speed env u) as Sp;
        pose proof (Zig_softBounce_inArena env u) as Ar
    end.
    simpl in *. split; [| split; [now apply Ar | split; [exact Ew |
      split; [exact Eh |]]]].
    + intros m' Hm'. rewrite Em in Hm'. injection Hm' as <-. simpl.
      intros P. apply Rltb_ge in Zt. lra.
    + specialize (B ltac:(cfg; lra)). lra.
Qed.

Lemma Zig_update_is_defined_contained_and_capped_witness :
  exists t' g',
    Zig.updateTargetAI env0 player0 [Zig_target0] 0 Zig_target0 (1 / 100)
      rng_half = Some (t', g')
    /\ Zig_inArena env0 t'.
Proof.
  destruct (Zig_update_is_defined_contained_and_capped env0 player0
              [Zig_target0] 0 Zig_target0 (1 / 100) rng_half)
    as (t' & g' & H & _ & A & _).
  - lra.
  - intros m Hm. discriminate.
  - simpl. lra.
  - simpl. lra.
  - exists t', g'. split; [exact H | exact A].
Defined.

(** X30.  Zig revision: a negative frame time breaks a fresh agent.  On the
    first update of an agent, a frame time below zero leaves the zig timer
    positive with no zig direction set, and the update computes with the
    undefined direction. *)
Theorem Zig_negative_frame_time_breaks_a_fresh_agent (env : Env)
  (player : Player) (ts : list Zig.Target) (i : nat) (t : Zig.Target)
  (dt : R) (g : Rng) :
  dt < 0 -> Zig.mem t = None ->
  Zig.updateTargetAI env player ts i t dt g = None.
Proof.
  intros Hdt Hm. unfold Zig.updateTargetAI, Zig.init. rewrite Hm.
  destruct (random g) as [r g0]. cbv zeta.
  cbn [Zig.zigTime Zig.zigCooldown Zig.zigDir Zig.wanderTimer
       Zig.wanderPhase].
  destruct (fold_left _ _ _) as [sepX sepY].
  destruct (if truthy2 sepX sepY then _ else _) as [steerX steerY].
  destruct (if 0 - dt <=? 0 then _ else _) as [[wT wP] g1] eqn:W.
  rewrite (Rmax_right 0 (0 - dt)) by lra.
  rewrite (Reqb_false (0 - dt) 0) by lra.
  rewrite !andb_false_r.
  rewrite (Rltb_true 0 (0 - dt)) by lra. reflexivity.
Qed.

Lemma Zig_negative_frame_time_breaks_a_fresh_agent_witness :
  Zig.updateTargetAI env0 player0 [Zig_target0] 0 Zig_target0
    (frame_dt 1000 1016) rng_half = None.
Proof.
  apply Zig_negative_frame_time_breaks_a_fresh_agent; [| reflexivity].
  destruct (frame_dt_bounds 1000 1016) as (_ & _ & _ & H). apply H. lra.
Defined.
